(** * a11y-engine: the reversible-mutation engine of [a11y.user.js]

    A shallow embedding of the change-tracking ledger ([changeLog]), the
    tracked-write API, rollback, garbage collection, the global-pass
    scheduler and the enable/disable lifecycle of the userscript, together
    with the properties its specification states about them.

    The browser is the environment of the script.  The part of it the script
    talks to is modelled explicitly: a heap of DOM [Node] objects addressed by
    identity, each with its attributes, inline style declaration, tree links
    and the answers of the layout engine; the animation-frame and timer
    queues; mutation-observer registrations.  JavaScript exceptions are
    modelled by an outcome type, and state changes made before an exception
    persist, as they do in JavaScript. *)

From Stdlib Require Import ZArith.
From stdpp Require Import gmap strings pretty list fin_maps functions.

Local Open Scope string_scope.

(** ** Exceptions and the state/exception monad *)

Inductive exn : Type :=
  | TypeError         (* calling a method the receiver does not have *)
  | SyntaxError       (* querySelector on a string that is not a selector *)
  | DOMException.     (* a call the browser refuses: localStorage.setItem
                         when the storage is full or denied *)

Inductive outcome (A : Type) : Type :=
  | Ok (a : A)
  | Throw (e : exn).
Arguments Ok {A} a.
Arguments Throw {A} e.

(** A computation over a mutable state [S]: it returns normally or throws,
    and in both cases leaves a state behind. *)
Definition Js (S A : Type) : Type := S → outcome A * S.

Definition js_ret {S A} (a : A) : Js S A := λ s, (Ok a, s).

Definition js_bind {S A B} (f : A → Js S B) (m : Js S A) : Js S B :=
  λ s, match m s with
       | (Ok a, s') => f a s'
       | (Throw e, s') => (Throw e, s')
       end.

#[global] Instance Js_ret {S} : MRet (Js S) := @js_ret S.
#[global] Instance Js_bind {S} : MBind (Js S) := @js_bind S.

Definition js_throw {S A} (e : exn) : Js S A := λ s, (Throw e, s).
Definition js_get {S} : Js S S := λ s, (Ok s, s).
Definition js_modify {S} (f : S → S) : Js S unit := λ s, (Ok tt, f s).

(** [Array.prototype.forEach] and [for ... of]: the body runs on every
    element in order; an exception leaves the loop. *)
Fixpoint forEach {S A} (l : list A) (body : A → Js S unit) : Js S unit :=
  match l with
  | [] => mret tt
  | x :: l' => body x ;; forEach l' body
  end.

(** The state a computation leaves behind, whatever its outcome. *)
Definition stateAfter {S A} (m : Js S A) (s : S) : S := (m s).2.

(** ** The document *)

(** A DOM node is a JavaScript object; [node] is its identity. *)
Definition node : Type := positive.
Bind Scope positive_scope with node.

Record Node : Type := mkNode {
  nodeType : Z;                       (* 1 is ELEMENT_NODE *)
  tagName : string;                   (* upper case, as HTML reports it *)
  attributes : gmap string string;    (* hasAttribute / getAttribute / ...,
                                         on the names of plainAttr *)
  style : gmap string string;         (* inline style: el.style[prop], on
                                         the declarations of plainStyle *)
  parentNode : option node;
  childNodes : list node;
  isConnected : bool;
  innerText : string;
  textContent : string;
  onclickHandler : bool;              (* typeof el.onclick === 'function' *)
  layoutVisible : bool                (* the layout engine's part of isVisible *)
}.

Definition with_attributes (a : gmap string string) (n : Node) : Node :=
  mkNode (nodeType n) (tagName n) a (style n) (parentNode n) (childNodes n)
         (isConnected n) (innerText n) (textContent n) (onclickHandler n) (layoutVisible n).

Definition with_style (st : gmap string string) (n : Node) : Node :=
  mkNode (nodeType n) (tagName n) (attributes n) st (parentNode n) (childNodes n)
         (isConnected n) (innerText n) (textContent n) (onclickHandler n) (layoutVisible n).

Definition with_parentNode (p : option node) (n : Node) : Node :=
  mkNode (nodeType n) (tagName n) (attributes n) (style n) p (childNodes n)
         (isConnected n) (innerText n) (textContent n) (onclickHandler n) (layoutVisible n).

Definition with_childNodes (c : list node) (n : Node) : Node :=
  mkNode (nodeType n) (tagName n) (attributes n) (style n) (parentNode n) c
         (isConnected n) (innerText n) (textContent n) (onclickHandler n) (layoutVisible n).

Definition with_isConnected (b : bool) (n : Node) : Node :=
  mkNode (nodeType n) (tagName n) (attributes n) (style n) (parentNode n)
         (childNodes n) b (innerText n) (textContent n) (onclickHandler n) (layoutVisible n).

Definition with_textContent (t : string) (n : Node) : Node :=
  mkNode (nodeType n) (tagName n) (attributes n) (style n) (parentNode n)
         (childNodes n) (isConnected n) (innerText n) t (onclickHandler n) (layoutVisible n).

Definition with_innerText (t : string) (n : Node) : Node :=
  mkNode (nodeType n) (tagName n) (attributes n) (style n) (parentNode n)
         (childNodes n) (isConnected n) t (textContent n) (onclickHandler n) (layoutVisible n).

(** The heap of node objects and the [document] singleton.  Every reference
    denotes a node object; [nextNode] is the next identity [createElement]
    hands out.  The document is an HTML document, in quirks mode or not. *)
Record Document : Type := mkDocument {
  nodes : node → Node;
  documentNode : node;                (* [document] itself, nodeType 9 *)
  head : option node;                 (* document.head *)
  body : option node;                 (* document.body *)
  nextNode : node;
  quirksMode : bool                   (* document.compatMode === 'BackCompat' *)
}.

Definition with_nodes (f : node → Node) (d : Document) : Document :=
  mkDocument f (documentNode d) (head d) (body d) (nextNode d) (quirksMode d).

Definition updNode (el : node) (f : Node → Node) (d : Document) : Document :=
  with_nodes (<[el := f (nodes d el)]> (nodes d)) d.

(** ** The ledger: [changeLog] *)

(** One [{ attrs: {}, styles: {} }] object.  [attrs] maps an attribute name
    to its original value, [None] being JavaScript's [null] (the attribute was
    absent); [styles] maps a style property to its original value.  Both are
    the own properties of a plain object.  On such an object the key
    [__proto__] is not a property like the others, see [assignAttr] below:
    [attrsBare] says that [entry.attrs] has lost its prototype.  [styles] is
    modelled for the property names other than [__proto__].

    The order in which [Object.keys] and the [Map] enumerate their keys is
    not recorded: replaying and collecting the ledger do not depend on it
    ([restoreAttrs_list], [restoreStyles_list], [nodeOf_restoreAll] and
    [changeLog_collectSteps] below hold for every enumeration). *)
Record Entry : Type := mkEntry {
  attrs : gmap string (option string);
  styles : gmap string string;
  attrsBare : bool                    (* Object.getPrototypeOf(entry.attrs) === null *)
}.

Definition emptyEntry : Entry := mkEntry ∅ ∅ false.

(** What the tracked-write API and the enhancement rules can touch: the
    document and the [changeLog] map, keyed by node identity. *)
Record Page : Type := mkPage {
  doc : Document;
  changeLog : gmap node Entry
}.

Definition with_doc (d : Document) (p : Page) : Page := mkPage d (changeLog p).
Definition with_changeLog (l : gmap node Entry) (p : Page) : Page := mkPage (doc p) l.

Definition nodeOf (p : Page) (el : node) : Node := nodes (doc p) el.

(** ** Utilities of the script *)

(** [isElement(el)]: [el && el.nodeType === 1]. *)
Definition isElement (p : Page) (el : node) : bool :=
  (nodeType (nodeOf p el) =? 1)%Z.

(** ** DOM primitives used by the tracked-write API

    Element methods exist on element nodes only: on any other node the call
    is a call of [undefined] and throws a [TypeError].

    On an element the primitives are those of a finite map.  That is what
    the browser does for the attribute names of [plainAttr] and the style
    declarations of [plainStyle] below, on an element that has a [style]
    object, as the HTML elements of a page have; the properties that depend
    on it are stated for these names and declarations, and for writes that
    return. *)

Definition onElement {A} (el : node) (k : Js Page A) : Js Page A :=
  λ p, if isElement p el then k p else (Throw TypeError, p).

(** [el.hasAttribute(attr) ? el.getAttribute(attr) : null] *)
Definition readAttribute (el : node) (attr : string) : Js Page (option string) :=
  onElement el (λ p, (Ok (attributes (nodeOf p el) !! attr), p)).

(** What the primitives do to the page when the receiver is an element. *)
Definition setAttributeOn (el : node) (attr value : string) (p : Page) : Page :=
  with_doc (updNode el (λ n, with_attributes (<[attr := value]> (attributes n)) n) (doc p)) p.

Definition removeAttributeOn (el : node) (attr : string) (p : Page) : Page :=
  with_doc (updNode el (λ n, with_attributes (delete attr (attributes n)) n) (doc p)) p.

(** [el.style[prop] = value]: assigning the empty string removes the
    declaration. *)
Definition assignStyle (prop value : string) (st : gmap string string) : gmap string string :=
  if decide (value = "") then delete prop st else <[prop := value]> st.

Definition writeStyleOn (el : node) (prop value : string) (p : Page) : Page :=
  with_doc (updNode el (λ n, with_style (assignStyle prop value (style n)) n) (doc p)) p.

Definition setAttribute (el : node) (attr value : string) : Js Page unit :=
  onElement el (js_modify (setAttributeOn el attr value)).

Definition removeAttribute (el : node) (attr : string) : Js Page unit :=
  onElement el (js_modify (removeAttributeOn el attr)).

(** [el.style[prop] || '']: the declared value, the empty string when the
    property is not declared. *)
Definition readStyle (el : node) (prop : string) : Js Page string :=
  onElement el (λ p, (Ok (default "" (style (nodeOf p el) !! prop)), p)).

Definition writeStyle (el : node) (prop value : string) : Js Page unit :=
  onElement el (js_modify (writeStyleOn el prop value)).

(** ** The tracked-write API *)

(** [ensureEntry(el)]: the entry object of [el], created when missing.  The
    object it returns is the one stored in the map; the writes through it are
    modelled by [captureAttr] and [captureStyle] below. *)
Definition ensureEntry (el : node) : Js Page Entry :=
  λ p, match changeLog p !! el with
       | Some e => (Ok e, p)
       | None => (Ok emptyEntry, with_changeLog (<[el := emptyEntry]> (changeLog p)) p)
       end.

(** [entry.attrs[attr] = v].  The object was created by [{}] and inherits
    from [Object.prototype], where [__proto__] is an accessor: assigning to
    that key calls its setter, which makes [null] the prototype of the
    object when the value is [null] and does nothing when it is a string; no
    own property is created.  Once the prototype is [null] the accessor is
    out of reach and the assignment creates an own property named
    [__proto__].  Every other key becomes an own property. *)
Definition assignAttr (attr : string) (v : option string) (e : Entry) : Entry :=
  if bool_decide (attr = "__proto__") && negb (attrsBare e)
  then match v with
       | None => mkEntry (attrs e) (styles e) true
       | Some _ => e
       end
  else mkEntry (<[attr := v]> (attrs e)) (styles e) (attrsBare e).

(** [entry.attrs[attr] = v] on the entry object of [el]. *)
Definition captureAttr (el : node) (attr : string) (v : option string) : Js Page unit :=
  js_modify (λ p, with_changeLog (alter (assignAttr attr v) el (changeLog p)) p).

(** [entry.styles[prop] = v] on the entry object of [el]. *)
Definition captureStyle (el : node) (prop : string) (v : string) : Js Page unit :=
  js_modify (λ p, with_changeLog
    (alter (λ e, mkEntry (attrs e) (<[prop := v]> (styles e)) (attrsBare e)) el
       (changeLog p)) p).

(** [Object.prototype.hasOwnProperty.call(obj, key)] *)
Definition hasOwnProperty {V} (obj : gmap string V) (key : string) : bool :=
  bool_decide (is_Some (obj !! key)).

Definition setAttrTracked (el : node) (attr value : string) : Js Page unit :=
  entry ← ensureEntry el;
  (if hasOwnProperty (attrs entry) attr then mret tt
   else old ← readAttribute el attr; captureAttr el attr old);;
  setAttribute el attr value.

Definition removeAttrTracked (el : node) (attr : string) : Js Page unit :=
  entry ← ensureEntry el;
  (if hasOwnProperty (attrs entry) attr then mret tt
   else old ← readAttribute el attr; captureAttr el attr old);;
  removeAttribute el attr.

Definition setStyleTracked (el : node) (prop value : string) : Js Page unit :=
  entry ← ensureEntry el;
  (if hasOwnProperty (styles entry) prop then mret tt
   else old ← readStyle el prop; captureStyle el prop old);;
  writeStyle el prop value.

(** The body of the [changeLog.forEach] callback of [clearAllTrackedChanges].
    [entry.attrs] and [entry.styles] are objects, hence truthy. *)
Definition restoreEntry (el : node) (entry : Entry) : Js Page unit :=
  λ p, if negb (isElement p el) then (Ok tt, p) else
    (forEach (map_to_list (attrs entry)) (λ '(attr, oldVal),
       match oldVal with
       | None => removeAttribute el attr
       | Some v => setAttribute el attr v
       end);;
     forEach (map_to_list (styles entry)) (λ '(prop, v), writeStyle el prop v)) p.

Definition clearAllTrackedChanges : Js Page unit :=
  p ← js_get;
  forEach (map_to_list (changeLog p)) (λ '(el, entry), restoreEntry el entry);;
  js_modify (with_changeLog ∅).

(** [garbageCollect()]: [isConnected] is a property of every node, so the
    loop cannot throw; deleting the key just visited does not disturb the
    iteration of a JavaScript [Map]. *)
Definition garbageCollect : Js Page unit :=
  p ← js_get;
  forEach (map_to_list (changeLog p)).*1 (λ el,
    js_modify (λ q, if negb (isConnected (nodeOf q el))
                    then with_changeLog (delete el (changeLog q)) q else q)).

(** ** Selectors and tree queries

    The script finds the nodes it enhances with [querySelectorAll] and
    [matches].  The selectors it uses are comma lists of compounds of the
    following simple selectors. *)

Inductive SimpleSelector : Type :=
  | Tag (name : string)                  (* button: the tag, upper case *)
  | HasAttr (attr : string)              (* [onclick] *)
  | AttrIs (attr value : string)         (* [role="button"] *)
  | AttrContains (attr sub : string)     (* [class*="btn"] *)
  | Class (name : string).               (* .clickable *)

(** A compound such as [a[href]] matches when all its parts match; a comma
    list matches when one of its compounds does. *)
Definition Selector : Type := list (list SimpleSelector).

Fixpoint contains (sub s : string) : bool :=
  String.prefix sub s ||
  match s with
  | EmptyString => false
  | String _ s' => contains sub s'
  end.

(** ASCII white space, which separates the tokens of a [class] attribute. *)
Definition isSpace (c : Ascii.ascii) : bool :=
  match Ascii.nat_of_ascii c with
  | 9 | 10 | 12 | 13 | 32 => true
  | _ => false
  end%nat.

Fixpoint splitWords (cur s : string) : list string :=
  match s with
  | EmptyString => if decide (cur = "") then [] else [cur]
  | String c s' =>
      if isSpace c
      then (if decide (cur = "") then splitWords "" s' else cur :: splitWords "" s')
      else splitWords (cur +:+ String c "") s'
  end.

(** A JavaScript string is a sequence of UTF-16 code units; a [string] here
    is its UTF-8 encoding, byte by byte.

    The white space of JavaScript, which [trim()] removes and [parseInt]
    skips: the code points of [WhiteSpace] and [LineTerminator], that is
    U+0009 to U+000D and U+0020 (one byte, the white space above and the
    vertical tab), U+00A0 (two bytes), and U+1680, U+2000 to U+200A, U+2028,
    U+2029, U+202F, U+205F, U+3000 and U+FEFF (three bytes). *)
Definition isWhiteSpace1 (c : Ascii.ascii) : bool :=
  isSpace c || (Ascii.nat_of_ascii c =? 11)%nat.

Definition isWhiteSpace2 (c1 c2 : Ascii.ascii) : bool :=
  (Ascii.nat_of_ascii c1 =? 194)%nat && (Ascii.nat_of_ascii c2 =? 160)%nat.

Definition isWhiteSpace3 (c1 c2 c3 : Ascii.ascii) : bool :=
  let b1 := Ascii.nat_of_ascii c1 in
  let b2 := Ascii.nat_of_ascii c2 in
  let b3 := Ascii.nat_of_ascii c3 in
  ((b1 =? 225) && (b2 =? 154) && (b3 =? 128) ||                  (* U+1680 *)
   (b1 =? 226) && (b2 =? 128) &&
     ((128 <=? b3) && (b3 <=? 138) ||                            (* U+2000-200A *)
      (b3 =? 168) || (b3 =? 169) || (b3 =? 175)) ||              (* U+2028/9/F *)
   (b1 =? 226) && (b2 =? 129) && (b3 =? 159) ||                  (* U+205F *)
   (b1 =? 227) && (b2 =? 128) && (b3 =? 128) ||                  (* U+3000 *)
   (b1 =? 239) && (b2 =? 187) && (b3 =? 191))%nat.               (* U+FEFF *)

(** The string without the white space at its beginning. *)
Fixpoint skipWhiteSpace (s : string) : string :=
  match s with
  | EmptyString => EmptyString
  | String c1 s1 =>
      if isWhiteSpace1 c1 then skipWhiteSpace s1 else
      match s1 with
      | EmptyString => s
      | String c2 s2 =>
          if isWhiteSpace2 c1 c2 then skipWhiteSpace s2 else
          match s2 with
          | EmptyString => s
          | String c3 s3 => if isWhiteSpace3 c1 c2 c3 then skipWhiteSpace s3 else s
          end
      end
  end.

(** [(s || "").trim().length > 0] fails exactly on the blank strings, those
    that are white space throughout. *)
Definition isBlank (s : string) : bool :=
  bool_decide (skipWhiteSpace s = "").

(** U+00A0, the no-break space of [&nbsp;], and U+2028, the line
    separator. *)
Definition noBreakSpace : string :=
  String (Ascii.ascii_of_nat 194) (String (Ascii.ascii_of_nat 160) "").

Definition lineSeparator : string :=
  String (Ascii.ascii_of_nat 226)
    (String (Ascii.ascii_of_nat 128) (String (Ascii.ascii_of_nat 168) "")).

Definition hasAttribute (n : Node) (attr : string) : bool :=
  bool_decide (is_Some (attributes n !! attr)).

(** ASCII lower case. *)
Definition lowerChar (c : Ascii.ascii) : Ascii.ascii :=
  let b := Ascii.nat_of_ascii c in
  if ((65 <=? b) && (b <=? 90))%nat then Ascii.ascii_of_nat (b + 32) else c.

Fixpoint toLowerCase (s : string) : string :=
  match s with
  | EmptyString => EmptyString
  | String c s' => String (lowerChar c) (toLowerCase s')
  end.

(** A class selector is compared with the tokens of the [class] attribute
    as they are written, and in a quirks-mode document without regard to
    ASCII case.  Attribute selectors on [role], [class], [id], [href] and
    the like compare values as they are written in both modes. *)
Definition hasClass (quirks : bool) (name value : string) : bool :=
  if quirks
  then existsb (λ token, bool_decide (toLowerCase token = toLowerCase name))
               (splitWords "" value)
  else bool_decide (name ∈ splitWords "" value).

Definition matchesSimple (quirks : bool) (n : Node) (sel : SimpleSelector) : bool :=
  match sel with
  | Tag name => bool_decide (tagName n = name)
  | HasAttr attr => hasAttribute n attr
  | AttrIs attr value => bool_decide (attributes n !! attr = Some value)
  | AttrContains attr sub =>
      match attributes n !! attr with
      | Some v => negb (bool_decide (sub = "")) && contains sub v
      | None => false
      end
  | Class name =>
      match attributes n !! "class" with
      | Some v => hasClass quirks name v
      | None => false
      end
  end.

(** [el.matches(selector)] *)
Definition matches (p : Page) (sel : Selector) (el : node) : bool :=
  existsb (forallb (matchesSimple (quirksMode (doc p)) (nodeOf p el))) sel.

(** The descendants of a node in document order.  The recursion follows
    [childNodes]; its depth is bounded by the number of nodes created so
    far. *)
Fixpoint descendantsUpTo (depth : nat) (d : Document) (root : node) : list node :=
  match depth with
  | O => []
  | S depth' =>
      flat_map (λ c, c :: descendantsUpTo depth' d c) (childNodes (nodes d root))
  end.

Definition descendants (p : Page) (root : node) : list node :=
  descendantsUpTo (Pos.to_nat (nextNode (doc p))) (doc p) root.

(** [container.querySelectorAll(selector)]: the element descendants of the
    container that match, in document order, as a static list. *)
Definition querySelectorAll (root : node) (sel : Selector) (p : Page) : list node :=
  filter (λ el, isElement p el && matches p sel el = true) (descendants p root).

(** [const container = root || document;] *)
Definition containerOf (root : option node) (p : Page) : node :=
  default (documentNode (doc p)) root.

(** ** Tree primitives used by the lifecycle *)

Definition newElement (tag : string) : Node :=
  mkNode 1 tag ∅ ∅ None [] false "" "" false false.

(** [document.createElement(tag)] *)
Definition createElement (tag : string) : Js Page node :=
  λ p, let el := nextNode (doc p) in
       (Ok el,
        with_doc (mkDocument (<[el := newElement tag]> (nodes (doc p)))
                    (documentNode (doc p)) (head (doc p)) (body (doc p)) (Pos.succ el)
                    (quirksMode (doc p))) p).

Definition removeFrom (child : node) (l : list node) : list node :=
  filter (λ c, c ≠ child) l.

(** A node and its descendants become connected or disconnected together. *)
Definition subtree (d : Document) (root : node) : list node :=
  root :: descendantsUpTo (Pos.to_nat (nextNode d)) d root.

Definition setConnected (b : bool) (els : list node) (d : Document) : Document :=
  foldr (λ el d', updNode el (with_isConnected b) d') d els.

(** Taking a node out of the child list of its parent, if it has one. *)
Definition unlink (child : node) (d : Document) : Document :=
  match parentNode (nodes d child) with
  | Some parent =>
      setConnected false (subtree d child)
        (updNode child (with_parentNode None)
           (updNode parent (λ n, with_childNodes (removeFrom child (childNodes n)) n) d))
  | None => d
  end.

(** [parent.appendChild(child)] and [parent.insertBefore(child,
    parent.firstChild)]: the child leaves its old parent first. *)
Definition link (atFront : bool) (parent child : node) (d : Document) : Document :=
  let d1 := unlink child d in
  let d2 := updNode parent (λ n, with_childNodes
              (if atFront then child :: childNodes n else childNodes n ++ [child]) n) d1 in
  setConnected (isConnected (nodes d2 parent)) (subtree d2 child)
    (updNode child (with_parentNode (Some parent)) d2).

Definition appendChild (parent child : node) : Js Page unit :=
  js_modify (λ p, with_doc (link false parent child (doc p)) p).

Definition insertFirst (parent child : node) : Js Page unit :=
  js_modify (λ p, with_doc (link true parent child (doc p)) p).

(** [child.parentNode.removeChild(child)] *)
Definition removeFromParent (child : node) : Js Page unit :=
  js_modify (λ p, with_doc (unlink child (doc p)) p).

(** [el.textContent = text] *)
Definition setTextContent (el : node) (text : string) : Js Page unit :=
  js_modify (λ p, with_doc (updNode el (with_textContent text) (doc p)) p).

(** [isVisible(el)]: the element test of the script, then the computed style
    and the bounding box, which the layout engine answers. *)
Definition isVisible (p : Page) (el : node) : bool :=
  isElement p el && layoutVisible (nodeOf p el).

Definition elementHasOwnAccessibility (p : Page) (el : node) : bool :=
  let n := nodeOf p el in
  hasAttribute n "role" || hasAttribute n "aria-label" ||
  hasAttribute n "aria-labelledby" || hasAttribute n "aria-describedby".

(** [el.id], the reflection of the [id] attribute. *)
Definition idOf (p : Page) (el : node) : string :=
  default "" (attributes (nodeOf p el) !! "id").

(** ** The engine state

    The global variables of the script, and the part of the browser its
    scheduling and lifecycle talk to. *)

Definition observer : Type := nat.

(** A callback handed to [requestAnimationFrame]. *)
Inductive FrameCallback : Type :=
  | LocalBatch (nodesToEnhance : list node)   (* of the mutation observer *)
  | GlobalPass.                               (* of scheduleEnhancements *)

(** A callback handed to [setTimeout]. *)
Inductive TimerCallback : Type :=
  | SetRegionText (region : node) (text : string).   (* of announce *)

Record Engine : Type := mkEngine {
  page : Page;                               (* document and changeLog *)
  a11yEnabled : bool;
  mutationObserver : option observer;        (* null or the observer *)
  enhancementScheduled : bool;
  skipLinkEl : option node;
  liveRegionEl : option node;
  globalStyleEl : option node;
  mutationCounter : Z;
  pendingItemCount : Z;
  (* the browser *)
  observerSupported : bool;                  (* window.MutationObserver *)
  observations : list (observer * node);     (* live observe() registrations *)
  nextObserver : observer;
  frameQueue : list FrameCallback;
  timerQueue : list TimerCallback
}.

Definition with_page (x : Page) (s : Engine) : Engine :=
  mkEngine x (a11yEnabled s) (mutationObserver s) (enhancementScheduled s)
    (skipLinkEl s) (liveRegionEl s) (globalStyleEl s) (mutationCounter s)
    (pendingItemCount s) (observerSupported s) (observations s) (nextObserver s)
    (frameQueue s) (timerQueue s).

Definition with_a11yEnabled (x : bool) (s : Engine) : Engine :=
  mkEngine (page s) x (mutationObserver s) (enhancementScheduled s)
    (skipLinkEl s) (liveRegionEl s) (globalStyleEl s) (mutationCounter s)
    (pendingItemCount s) (observerSupported s) (observations s) (nextObserver s)
    (frameQueue s) (timerQueue s).

Definition with_mutationObserver (x : option observer) (s : Engine) : Engine :=
  mkEngine (page s) (a11yEnabled s) x (enhancementScheduled s)
    (skipLinkEl s) (liveRegionEl s) (globalStyleEl s) (mutationCounter s)
    (pendingItemCount s) (observerSupported s) (observations s) (nextObserver s)
    (frameQueue s) (timerQueue s).

Definition with_enhancementScheduled (x : bool) (s : Engine) : Engine :=
  mkEngine (page s) (a11yEnabled s) (mutationObserver s) x
    (skipLinkEl s) (liveRegionEl s) (globalStyleEl s) (mutationCounter s)
    (pendingItemCount s) (observerSupported s) (observations s) (nextObserver s)
    (frameQueue s) (timerQueue s).

Definition with_skipLinkEl (x : option node) (s : Engine) : Engine :=
  mkEngine (page s) (a11yEnabled s) (mutationObserver s) (enhancementScheduled s)
    x (liveRegionEl s) (globalStyleEl s) (mutationCounter s)
    (pendingItemCount s) (observerSupported s) (observations s) (nextObserver s)
    (frameQueue s) (timerQueue s).

Definition with_liveRegionEl (x : option node) (s : Engine) : Engine :=
  mkEngine (page s) (a11yEnabled s) (mutationObserver s) (enhancementScheduled s)
    (skipLinkEl s) x (globalStyleEl s) (mutationCounter s)
    (pendingItemCount s) (observerSupported s) (observations s) (nextObserver s)
    (frameQueue s) (timerQueue s).

Definition with_globalStyleEl (x : option node) (s : Engine) : Engine :=
  mkEngine (page s) (a11yEnabled s) (mutationObserver s) (enhancementScheduled s)
    (skipLinkEl s) (liveRegionEl s) x (mutationCounter s)
    (pendingItemCount s) (observerSupported s) (observations s) (nextObserver s)
    (frameQueue s) (timerQueue s).

Definition with_mutationCounter (x : Z) (s : Engine) : Engine :=
  mkEngine (page s) (a11yEnabled s) (mutationObserver s) (enhancementScheduled s)
    (skipLinkEl s) (liveRegionEl s) (globalStyleEl s) x
    (pendingItemCount s) (observerSupported s) (observations s) (nextObserver s)
    (frameQueue s) (timerQueue s).

Definition with_pendingItemCount (x : Z) (s : Engine) : Engine :=
  mkEngine (page s) (a11yEnabled s) (mutationObserver s) (enhancementScheduled s)
    (skipLinkEl s) (liveRegionEl s) (globalStyleEl s) (mutationCounter s)
    x (observerSupported s) (observations s) (nextObserver s)
    (frameQueue s) (timerQueue s).

Definition with_observations (x : list (observer * node)) (nxt : observer) (s : Engine)
  : Engine :=
  mkEngine (page s) (a11yEnabled s) (mutationObserver s) (enhancementScheduled s)
    (skipLinkEl s) (liveRegionEl s) (globalStyleEl s) (mutationCounter s)
    (pendingItemCount s) (observerSupported s) x nxt
    (frameQueue s) (timerQueue s).

Definition with_frameQueue (x : list FrameCallback) (s : Engine) : Engine :=
  mkEngine (page s) (a11yEnabled s) (mutationObserver s) (enhancementScheduled s)
    (skipLinkEl s) (liveRegionEl s) (globalStyleEl s) (mutationCounter s)
    (pendingItemCount s) (observerSupported s) (observations s) (nextObserver s)
    x (timerQueue s).

Definition with_timerQueue (x : list TimerCallback) (s : Engine) : Engine :=
  mkEngine (page s) (a11yEnabled s) (mutationObserver s) (enhancementScheduled s)
    (skipLinkEl s) (liveRegionEl s) (globalStyleEl s) (mutationCounter s)
    (pendingItemCount s) (observerSupported s) (observations s) (nextObserver s)
    (frameQueue s) x.

(** A page computation run on the page of the engine. *)
Definition onPage {A} (m : Js Page A) : Js Engine A :=
  λ s, ((m (page s)).1, with_page (m (page s)).2 s).

(** [if (!a11yEnabled) return;] *)
Definition whenEnabled (m : Js Engine unit) : Js Engine unit :=
  λ s, if negb (a11yEnabled s) then (Ok tt, s) else m s.

(** [requestAnimationFrame(cb)] and [setTimeout(cb, ms)] *)
Definition requestAnimationFrame (cb : FrameCallback) : Js Engine unit :=
  js_modify (λ s, with_frameQueue (frameQueue s ++ [cb]) s).

Definition setTimeout (cb : TimerCallback) : Js Engine unit :=
  js_modify (λ s, with_timerQueue (timerQueue s ++ [cb]) s).

(** ** Global styles, skip link, live region *)

(** The text of the injected stylesheet, white space normalised. *)
Definition globalStyleText : string :=
  ":where(a, button, input, textarea, select, [tabindex]):focus-visible { outline: 3px solid #005fcc !important; outline-offset: 2px !important; } .a11y-skip-link { position: absolute; left: -999px; top: -999px; background: #000; color: #fff; padding: 6px 10px; z-index: 2147483647; } .a11y-skip-link:focus { left: 10px; top: 10px; } .a11y-live-region { position: absolute; left: -9999px; width: 1px; height: 1px; overflow: hidden; }".

Definition addGlobalStyles : Js Engine unit :=
  λ s, if bool_decide (is_Some (globalStyleEl s)) || negb (a11yEnabled s) then (Ok tt, s)
       else match head (doc (page s)) with
            | None => (Ok tt, s)
            | Some h =>
                (style ← onPage (createElement "STYLE");
                 onPage (setAttribute style "id" "a11y-global-style");;
                 onPage (setTextContent style globalStyleText);;
                 onPage (appendChild h style);;
                 js_modify (with_globalStyleEl (Some style))) s
            end.

(** [if (x && x.parentNode) x.parentNode.removeChild(x);] *)
Definition detachIfAttached (x : option node) : Js Engine unit :=
  λ s, match x with
       | Some el =>
           if bool_decide (is_Some (parentNode (nodeOf (page s) el)))
           then onPage (removeFromParent el) s
           else (Ok tt, s)
       | None => (Ok tt, s)
       end.

Definition removeGlobalStyles : Js Engine unit :=
  s ← js_get;
  detachIfAttached (globalStyleEl s);;
  js_modify (with_globalStyleEl None).

(** [x && x.parentNode] *)
Definition attached (p : Page) (x : option node) : bool :=
  match x with
  | Some el => bool_decide (is_Some (parentNode (nodeOf p el)))
  | None => false
  end.

Definition addSkipLink : Js Engine unit :=
  λ s, if negb (a11yEnabled s) then (Ok tt, s)
       else match body (doc (page s)) with
            | None => (Ok tt, s)
            | Some b =>
                if attached (page s) (skipLinkEl s) then (Ok tt, s)
                else
                  (let mainCandidate :=
                     default b (List.head (querySelectorAll (documentNode (doc (page s)))
                                             [[Tag "MAIN"]] (page s))) in
                   (if decide (idOf (page s) mainCandidate = "")
                    then onPage (setAttrTracked mainCandidate "id" "a11y-main")
                    else mret tt);;
                   skip ← onPage (createElement "A");
                   s' ← js_get;
                   onPage (setAttribute skip "href" ("#" +:+ idOf (page s') mainCandidate));;
                   onPage (setAttribute skip "class" "a11y-skip-link");;
                   onPage (setTextContent skip "Skip to main content");;
                   onPage (insertFirst b skip);;
                   js_modify (with_skipLinkEl (Some skip))) s
            end.

Definition removeSkipLink : Js Engine unit :=
  s ← js_get;
  detachIfAttached (skipLinkEl s);;
  js_modify (with_skipLinkEl None).

(** [getLiveRegion()]; [document.body.appendChild] on a missing body is a
    call on [null]. *)
Definition getLiveRegion : Js Engine (option node) :=
  λ s, if negb (a11yEnabled s) then (Ok None, s)
       else if attached (page s) (liveRegionEl s) then (Ok (liveRegionEl s), s)
       else
         (region ← onPage (createElement "DIV");
          onPage (setAttribute region "id" "a11y-live-region");;
          onPage (setAttribute region "class" "a11y-live-region");;
          onPage (setAttribute region "role" "status");;
          onPage (setAttribute region "aria-live" "polite");;
          match body (doc (page s)) with
          | Some b => onPage (appendChild b region)
          | None => js_throw TypeError
          end;;
          js_modify (with_liveRegionEl (Some region));;
          mret (Some region)) s.

Definition removeLiveRegion : Js Engine unit :=
  s ← js_get;
  detachIfAttached (liveRegionEl s);;
  js_modify (with_liveRegionEl None).

Definition announce (text : string) : Js Engine unit :=
  whenEnabled
    (if decide (text = "") then mret tt
     else
       region ← getLiveRegion;
       match region with
       | None => mret tt
       | Some r =>
           onPage (setTextContent r "");;
           setTimeout (SetRegionText r text)
       end).

(** ** Vocabulary of the ledger properties *)

(** A key of a node: an attribute name or an inline style property.  On
    the plain keys below the two key spaces are independent. *)
Inductive Key : Type :=
  | AttrKey (attr : string)
  | StyleKey (prop : string).

(** The value a key has on a node now.  An attribute is [None] when absent;
    a style property always reads as a string, [""] when undeclared. *)
Definition current (p : Page) (el : node) (k : Key) : option string :=
  match k with
  | AttrKey a => attributes (nodeOf p el) !! a
  | StyleKey s => Some (default "" (style (nodeOf p el) !! s))
  end.

(** The original value the ledger holds for a key, if it holds one. *)
Definition captured (p : Page) (el : node) (k : Key) : option (option string) :=
  e ← changeLog p !! el;
  match k with
  | AttrKey a => attrs e !! a
  | StyleKey s => Some <$> styles e !! s
  end.

(** A call of the tracked-write API. *)
Inductive TrackedWrite : Type :=
  | SetAttr (el : node) (attr value : string)
  | RemoveAttr (el : node) (attr : string)
  | SetStyle (el : node) (prop value : string).

Definition exec (w : TrackedWrite) : Js Page unit :=
  match w with
  | SetAttr el a v => setAttrTracked el a v
  | RemoveAttr el a => removeAttrTracked el a
  | SetStyle el s v => setStyleTracked el s v
  end.

Definition target (w : TrackedWrite) : node * Key :=
  match w with
  | SetAttr el a _ => (el, AttrKey a)
  | RemoveAttr el a => (el, AttrKey a)
  | SetStyle el s _ => (el, StyleKey s)
  end.

(** The value the key of a write reads as once the write is done. *)
Definition written (w : TrackedWrite) : option string :=
  match w with
  | SetAttr _ _ v => Some v
  | RemoveAttr _ _ => None
  | SetStyle _ _ v => Some v
  end.

#[global] Instance Key_eq_dec : EqDecision Key.
Proof. solve_decision. Defined.

(** ** The keys on which the DOM is a map

    The attributes of an element and the declarations of its inline style
    are modelled as finite maps keyed by the strings the script passes, and
    so are the two objects of a ledger entry.  The browser is such a map on
    part of the strings only.  [setAttribute] lower-cases the name on an HTML
    element and throws on a string that is not a name; the [style] attribute
    and the inline style are two views of the same declarations; other
    attributes are tied to a property of the element or are refused by a
    policy of the page; the CSS parser drops a value it does not know,
    rewrites others, and a shorthand property overlaps its longhands; and on
    the plain objects [entry.attrs] and [entry.styles] the key [__proto__] is
    not an ordinary property.

    The script passes the attribute names [role], [tabindex], [id] and
    [hidden], names that begin with [aria-] or with [data-], and the one
    style property [display].  [plainAttr], [plainStyle] and [plainKey]
    delimit these keys, on which the maps are what the browser does: one of
    the four names, or [aria-] or [data-] followed by lower-case letters,
    digits and hyphens, for an attribute; [display] with a keyword or the
    empty string for a style declaration.  The properties of the ledger
    below are stated for them. *)
Definition isLowerLetter (c : Ascii.ascii) : bool :=
  (97 <=? Ascii.nat_of_ascii c)%nat && (Ascii.nat_of_ascii c <=? 122)%nat.

Definition isNameChar (c : Ascii.ascii) : bool :=
  isLowerLetter c ||
  (48 <=? Ascii.nat_of_ascii c)%nat && (Ascii.nat_of_ascii c <=? 57)%nat ||
  (Ascii.nat_of_ascii c =? 45)%nat.

Fixpoint allNameChars (s : string) : bool :=
  match s with
  | EmptyString => true
  | String c s' => isNameChar c && allNameChars s'
  end.

(** The rest of [s] after the prefix [pre], if [s] begins with it. *)
Fixpoint stripPrefix (pre s : string) : option string :=
  match pre, s with
  | EmptyString, _ => Some s
  | String c pre', String c' s' => if Ascii.eqb c c' then stripPrefix pre' s' else None
  | String _ _, EmptyString => None
  end.

Definition isNameAfter (pre a : string) : bool :=
  match stripPrefix pre a with
  | Some rest => negb (bool_decide (rest = "")) && allNameChars rest
  | None => false
  end.

Definition plainAttr (a : string) : bool :=
  bool_decide (a ∈ ["role"; "tabindex"; "id"; "hidden"]) ||
  isNameAfter "aria-" a || isNameAfter "data-" a.

(** Values of [display] that every browser keeps as they are written. *)
Definition displayKeywords : list string :=
  ["none"; "block"; "inline"; "inline-block"; "flex"; "inline-flex"; "grid";
   "inline-grid"; "table"; "list-item"; "contents"].

Definition plainStyle (prop value : string) : bool :=
  bool_decide (prop = "display") &&
  (bool_decide (value = "") || bool_decide (value ∈ displayKeywords)).

Definition plainKey (k : Key) : bool :=
  match k with
  | AttrKey a => plainAttr a
  | StyleKey s => bool_decide (s = "display")
  end.

Definition plainWrite (w : TrackedWrite) : bool :=
  match w with
  | SetAttr _ a _ | RemoveAttr _ a => plainAttr a
  | SetStyle _ s v => plainStyle s v
  end.

(** A tracked write whose key is a property like the others on the objects
    of a ledger entry. *)
Definition ordinary (w : TrackedWrite) : Prop :=
  match w with
  | SetAttr _ a _ | RemoveAttr _ a => a ≠ "__proto__"
  | SetStyle _ _ _ => True
  end.

(** A ledger that holds originals of plain keys only. *)
Definition plainEntry (e : Entry) : bool :=
  forallb plainAttr (map_to_list (attrs e)).*1 &&
  forallb (λ s, bool_decide (s = "display")) (map_to_list (styles e)).*1.

Definition plainLedger (p : Page) : bool :=
  forallb plainEntry (map_to_list (changeLog p)).*2.

(** A sequence of tracked writes, each one a call of its own: a call that
    throws leaves its state behind and the next call still happens. *)
Definition run (ws : list TrackedWrite) (p : Page) : Page :=
  foldl (λ q w, stateAfter (exec w) q) p ws.

(** A page whose ledger is empty, as [new Map()] leaves it. *)
Definition freshPage (d : Document) : Page := mkPage d ∅.

(** The number of (node, key) pairs the ledger holds an original for. *)
Definition entrySize (e : Entry) : nat := size (attrs e) + size (styles e).
Definition ledgerSize (p : Page) : nat :=
  map_fold (λ _ e n, entrySize e + n) 0 (changeLog p).

(** What a tracked write leaves behind on an element: the original of the
    key is recorded unless an original is recorded already, then the write is
    done. *)
Definition recordOriginal (k : Key) (v : option string) (e : Entry) : Entry :=
  match k with
  | AttrKey a =>
      if hasOwnProperty (attrs e) a then e
      else assignAttr a v e
  | StyleKey s =>
      if hasOwnProperty (styles e) s then e
      else mkEntry (attrs e) (<[s := default "" v]> (styles e)) (attrsBare e)
  end.

Definition entryOf (p : Page) (el : node) : Entry :=
  default emptyEntry (changeLog p !! el).

Definition applyWrite (w : TrackedWrite) (p : Page) : Page :=
  match w with
  | SetAttr el a v => setAttributeOn el a v p
  | RemoveAttr el a => removeAttributeOn el a p
  | SetStyle el s v => writeStyleOn el s v p
  end.

Definition tracked (w : TrackedWrite) (p : Page) : Page :=
  let el := (target w).1 in
  let k := (target w).2 in
  applyWrite w
    (with_changeLog (<[el := recordOriginal k (current p el k) (entryOf p el)]> (changeLog p)) p).

(** What a tracked write leaves behind on a node that is not an element: the
    entry [ensureEntry] made, nothing else. *)
Definition attempted (w : TrackedWrite) (p : Page) : Page :=
  let el := (target w).1 in
  with_changeLog (<[el := entryOf p el]> (changeLog p)) p.

(** The ledger invariant of a key, against a page [p0] on which the ledger
    held no original of the key: a recorded original is the value the key had
    on [p0] and belongs to an element, and a key without an original still
    has that value. *)
Definition keyInv (p0 p : Page) (el : node) (k : Key) : Prop :=
  match captured p el k with
  | Some o => o = current p0 el k ∧ isElement p el = true
  | None => current p el k = current p0 el k
  end.


(** What replaying one captured key does to the attributes and to the inline
    style of its node, and to the page. *)
Definition restoreAttrStep (a : gmap string string) (kv : string * option string)
  : gmap string string :=
  match kv.2 with
  | None => delete kv.1 a
  | Some v => <[kv.1 := v]> a
  end.

Definition restoreStyleStep (st : gmap string string) (kv : string * string)
  : gmap string string :=
  assignStyle kv.1 kv.2 st.

Definition restoreAttrOn (el : node) (p : Page) (kv : string * option string) : Page :=
  match kv.2 with
  | None => removeAttributeOn el kv.1 p
  | Some v => setAttributeOn el kv.1 v p
  end.

Definition restoreStyleOn (el : node) (p : Page) (kv : string * string) : Page :=
  writeStyleOn el kv.1 kv.2 p.

(** What replaying one entry does to its node and to the page. *)
Definition restoredNode (e : Entry) (n : Node) : Node :=
  with_style (foldl restoreStyleStep (style n) (map_to_list (styles e)))
    (with_attributes (foldl restoreAttrStep (attributes n) (map_to_list (attrs e))) n).

Definition restoreStep (p : Page) (ee : node * Entry) : Page :=
  if isElement p ee.1
  then foldl (restoreStyleOn ee.1)
         (foldl (restoreAttrOn ee.1) p (map_to_list (attrs ee.2)))
         (map_to_list (styles ee.2))
  else p.

(** The page [clearAllTrackedChanges] leaves behind. *)
Definition rolledBack (p : Page) : Page :=
  with_changeLog ∅ (foldl restoreStep p (map_to_list (changeLog p))).

(** The page [garbageCollect] leaves behind. *)
Definition collectStep (q : Page) (el : node) : Page :=
  if negb (isConnected (nodeOf q el))
  then with_changeLog (delete el (changeLog q)) q else q.

Definition collected (p : Page) : Page :=
  foldl collectStep p (map_to_list (changeLog p)).*1.

(** ** The enhancement rules

    Which label or role a rule picks is decided by pattern matching on class
    names, handlers, sibling text, computed styles and URLs.  Those decisions
    are parameters of the model: each is the body the rule runs on a node it
    selected, a computation on the page that can make tracked writes and can
    throw.  What the rules share is modelled as written: the [a11yEnabled]
    guard, the selection of the candidates, and for the two labelling rules
    below the tests made before a write. *)

Record Heuristics : Type := mkHeuristics {
  (* the label steps 1 to 9 of enhanceUnlabeledButtons arrive at *)
  buttonLabel : node → Page → string;
  (* the callback of links.forEach in enhanceUnlabeledLinks *)
  linkRule : node → Js Page unit;
  (* the three callbacks of enhanceInputsAndForms *)
  requiredLabelRule : node → Js Page unit;
  placeholderRule : node → Js Page unit;
  errorRule : node → Js Page unit;
  (* the callbacks of enhanceLocalDropdowns, enhanceLocalLiveRegions and
     enhanceSliders *)
  dropdownRule : node → Js Page unit;
  liveRegionRule : node → Js Page unit;
  sliderRule : node → Js Page unit;
  (* the bodies of the document-wide rules *)
  regionsRule : Js Page unit;
  tabsRule : Js Page unit;
  dialogsRule : Js Page unit;
  stickyHeadersRule : Js Page unit;
  tabIndexRule : Js Page unit
}.

(** A rule of the shape
    [if (!a11yEnabled) return;
     (root || document).querySelectorAll(selector).forEach(callback)]. *)
Definition selectAndApply (root : option node) (sel : Selector)
    (callback : node → Js Page unit) : Js Engine unit :=
  whenEnabled (onPage (
    p ← js_get;
    forEach (querySelectorAll (containerOf root p) sel p) callback)).

Definition buttonSelector : Selector :=
  [[Tag "BUTTON"]; [AttrIs "role" "button"]; [HasAttr "onclick"];
   [AttrContains "class" "btn"]; [AttrContains "class" "button"]].

(** The callback of [candidates.forEach] in [enhanceUnlabeledButtons]: every
    path through the label steps ends in one tracked write of [aria-label]. *)
Definition labelButton (H : Heuristics) (btn : node) : Js Page unit :=
  λ p, if negb (isElement p btn) then (Ok tt, p)
       else if negb (isVisible p btn) then (Ok tt, p)
       else if hasAttribute (nodeOf p btn) "aria-label" ||
               hasAttribute (nodeOf p btn) "aria-labelledby" then (Ok tt, p)
       else if negb (isBlank (innerText (nodeOf p btn))) then (Ok tt, p)
       else setAttrTracked btn "aria-label" (buttonLabel H btn p) p.

Definition enhanceUnlabeledButtons (H : Heuristics) (root : option node) : Js Engine unit :=
  selectAndApply root buttonSelector (labelButton H).

Definition enhanceUnlabeledLinks (H : Heuristics) (root : option node) : Js Engine unit :=
  selectAndApply root [[Tag "A"; HasAttr "href"]] (linkRule H).

Definition inputSelector : Selector := [[Tag "INPUT"]; [Tag "TEXTAREA"]; [Tag "SELECT"]].

(** [inputs] is one node list, walked twice. *)
Definition enhanceInputsAndForms (H : Heuristics) (root : option node) : Js Engine unit :=
  whenEnabled (onPage (
    p ← js_get;
    forEach (querySelectorAll (containerOf root p) [[Tag "LABEL"]] p) (requiredLabelRule H);;
    q ← js_get;
    let inputs := querySelectorAll (containerOf root q) inputSelector q in
    forEach inputs (placeholderRule H);;
    forEach inputs (errorRule H))).

Definition clickableSelector : Selector :=
  [[Class "clickable"]; [AttrContains "class" "btn"]; [AttrContains "class" "button"]].

(** The callback of [enhanceClickableRoles]. *)
Definition makeButton (el : node) : Js Page unit :=
  λ p, if negb (isVisible p el) then (Ok tt, p)
       else if elementHasOwnAccessibility p el then (Ok tt, p)
       else if bool_decide (tagName (nodeOf p el) = "BUTTON") ||
               bool_decide (tagName (nodeOf p el) = "A") then (Ok tt, p)
       else
         let clickable :=
           onclickHandler (nodeOf p el) ||
           negb (bool_decide (default "" (attributes (nodeOf p el) !! "onclick") = "")) ||
           matches p clickableSelector el in
         if clickable
         then (setAttrTracked el "role" "button";;
               q ← js_get;
               if negb (hasAttribute (nodeOf q el) "tabindex")
               then setAttrTracked el "tabindex" "0" else mret tt) p
         else (Ok tt, p).

Definition enhanceClickableRoles (root : option node) : Js Engine unit :=
  selectAndApply root [[Tag "DIV"]; [Tag "SPAN"]] makeButton.

Definition dropdownSelector : Selector :=
  [[HasAttr "data-toggle"]; [HasAttr "data-accordion"]; [Class "dropdown-toggle"];
   [Class "accordion-title"]; [Class "accordion-header"]; [Class "faq-question"];
   [Class "collapsible"]; [Class "collapse-toggle"]; [Class "menu-toggle"];
   [Class "nav-toggle"]].

Definition enhanceLocalDropdowns (H : Heuristics) (root : option node) : Js Engine unit :=
  selectAndApply root dropdownSelector (dropdownRule H).

Definition enhanceLocalLiveRegions (H : Heuristics) (root : option node) : Js Engine unit :=
  selectAndApply root
    [[Class "toast"]; [Class "notification"]; [Class "alert"]; [Class "snackbar"]]
    (liveRegionRule H).

Definition enhanceSliders (H : Heuristics) (root : option node) : Js Engine unit :=
  selectAndApply root [[Class "slider"]; [Class "range"]; [HasAttr "data-slider"]]
    (sliderRule H).

(** [if (!a11yEnabled || !document.body) return;] *)
Definition enhanceRegionsGlobal (H : Heuristics) : Js Engine unit :=
  λ s, if negb (a11yEnabled s) || negb (bool_decide (is_Some (body (doc (page s)))))
       then (Ok tt, s) else onPage (regionsRule H) s.

Definition enhanceTabsGlobal (H : Heuristics) : Js Engine unit :=
  whenEnabled (onPage (tabsRule H)).

Definition enhanceDialogsGlobal (H : Heuristics) : Js Engine unit :=
  whenEnabled (onPage (dialogsRule H)).

Definition enhanceStickyHeadersGlobal (H : Heuristics) : Js Engine unit :=
  whenEnabled (onPage (stickyHeadersRule H)).

Definition normalizeTabIndexGlobal (H : Heuristics) : Js Engine unit :=
  whenEnabled (onPage (tabIndexRule H)).

Definition enhanceInfiniteScrollGlobal (addedCount : Z) : Js Engine unit :=
  whenEnabled
    (if (0 <? addedCount)%Z
     then announce (pretty addedCount +:+ " more items loaded")
     else mret tt).

(** ** Routing *)

Definition runLocalEnhancements (H : Heuristics) (root : option node) : Js Engine unit :=
  enhanceUnlabeledButtons H root;;
  enhanceUnlabeledLinks H root;;
  enhanceInputsAndForms H root;;
  enhanceClickableRoles root;;
  enhanceLocalDropdowns H root;;
  enhanceLocalLiveRegions H root;;
  enhanceSliders H root.

Definition runGlobalEnhancements (H : Heuristics) (addedCount : Z) : Js Engine unit :=
  enhanceRegionsGlobal H;;
  enhanceTabsGlobal H;;
  enhanceDialogsGlobal H;;
  enhanceStickyHeadersGlobal H;;
  normalizeTabIndexGlobal H;;
  enhanceInfiniteScrollGlobal addedCount.

(** ** The scheduler

    The counters are JavaScript numbers that hold integers; their additions
    are the additions of integers as long as the sums stay within 2^53. *)

Definition scheduleEnhancements (count : Z) : Js Engine unit :=
  js_modify (λ s, with_pendingItemCount (pendingItemCount s + count) s);;
  s ← js_get;
  if enhancementScheduled s then mret tt
  else
    js_modify (with_enhancementScheduled true);;
    requestAnimationFrame GlobalPass.

(** The two frame callbacks of the script. *)
Definition frameCallback (H : Heuristics) (cb : FrameCallback) : Js Engine unit :=
  match cb with
  | LocalBatch nodesToEnhance =>
      forEach nodesToEnhance (λ n, runLocalEnhancements H (Some n))
  | GlobalPass =>
      js_modify (with_enhancementScheduled false);;
      s ← js_get;
      runGlobalEnhancements H (pendingItemCount s);;
      js_modify (with_pendingItemCount 0)
  end.

(** One animation frame: the browser runs the callbacks queued so far, in
    order; an exception ends the callback it is thrown in, not the frame. *)
Definition animationFrame (H : Heuristics) (s : Engine) : Engine :=
  foldl (λ s' cb, stateAfter (frameCallback H cb) s') (with_frameQueue [] s) (frameQueue s).

(** The timer callback of [announce]. *)
Definition timerCallback (cb : TimerCallback) : Js Engine unit :=
  match cb with
  | SetRegionText region text => onPage (setTextContent region text)
  end.

(** ** The mutation observer *)

Record MutationRecord : Type := mkMutationRecord {
  recordType : string;
  addedNodes : list node
}.

Definition itemSelector : Selector :=
  [[Tag "LI"]; [Tag "ARTICLE"]; [AttrIs "role" "listitem"]; [Class "card"];
   [Class "tweet"]; [Class "post"]].

(** The callback given to [new MutationObserver]. *)
Definition observerCallback (H : Heuristics) (mutations : list MutationRecord)
  : Js Engine unit :=
  whenEnabled (
    s ← js_get;
    let nodesToEnhance :=
      flat_map (λ m, if bool_decide (recordType m = "childList")
                     then filter (λ n, isElement (page s) n = true) (addedNodes m)
                     else []) mutations in
    let addedNodeCount :=
      Z.of_nat (length (filter (λ n, matches (page s) itemSelector n = true) nodesToEnhance)) in
    (if bool_decide (nodesToEnhance = []) then mret tt
     else requestAnimationFrame (LocalBatch nodesToEnhance);;
          scheduleEnhancements addedNodeCount);;
    js_modify (λ s', with_mutationCounter (mutationCounter s' + 1) s');;
    s' ← js_get;
    if (80 <=? mutationCounter s')%Z
    then onPage garbageCollect;; js_modify (with_mutationCounter 0)
    else mret tt).

Definition startMutationObserver : Js Engine unit :=
  λ s, if negb (observerSupported s) || bool_decide (is_Some (mutationObserver s))
       then (Ok tt, s)
       else match body (doc (page s)) with
            | None => (Ok tt, s)
            | Some b =>
                let o := nextObserver s in
                (Ok tt, with_observations (observations s ++ [(o, b)]) (S o)
                          (with_mutationObserver (Some o) s))
            end.

(** [mutationObserver.disconnect()] ends the registrations of that observer. *)
Definition stopMutationObserver : Js Engine unit :=
  λ s, match mutationObserver s with
       | Some o =>
           (Ok tt, with_mutationObserver None
                     (with_observations (filter (λ r, r.1 ≠ o) (observations s))
                        (nextObserver s) s))
       | None => (Ok tt, s)
       end.

(** ** Enable and disable *)

Definition enableA11Y (H : Heuristics) : Js Engine unit :=
  addGlobalStyles;;
  addSkipLink;;
  s ← js_get;
  runLocalEnhancements H (body (doc (page s)));;
  runGlobalEnhancements H 0;;
  startMutationObserver.

Definition disableA11Y : Js Engine unit :=
  stopMutationObserver;;
  removeSkipLink;;
  removeLiveRegion;;
  removeGlobalStyles;;
  onPage clearAllTrackedChanges;;
  js_modify (with_pendingItemCount 0);;
  js_modify (with_mutationCounter 0).

(** The click handler of the toggle button when [localStorage.setItem]
    returns; [toggleListener] below is the handler with the call that can
    throw.  The stored preference and the look of the button are outside the
    state modelled here. *)
Definition toggleClick (H : Heuristics) : Js Engine unit :=
  js_modify (λ s, with_a11yEnabled (negb (a11yEnabled s)) s);;
  s ← js_get;
  if a11yEnabled s then enableA11Y H else disableA11Y.

(** The engine as the script declares it, on a given document. *)
Definition initialEngine (d : Document) : Engine :=
  mkEngine (freshPage d) false None false None None None 0 0 true [] 0 [] [].

(** ** Sample documents

    Concrete inputs on which the properties below are instantiated. *)

Definition elementNode (tag : string) (a : list (string * string)) (parent : option node)
    (kids : list node) (connected : bool) : Node :=
  mkNode 1%Z tag (list_to_map a) ∅ parent kids connected "" "" false true.

Definition otherNode (type : Z) (name : string) (kids : list node) (connected : bool) : Node :=
  mkNode type name ∅ ∅ None kids connected "" "" false false.

(** [<html><head></head><body><button class="btn-close"></button>
    <div style="display:block" id="panel"></div></body></html>], and a
    detached [<span role="note">] (node 7) that is no longer part of the
    tree.  Every other reference is a detached text node. *)
Definition sampleNodes (el : node) : Node :=
  match el with
  | 1 => otherNode 9 "#document" [2] true
  | 2 => elementNode "HTML" [] (Some 1) [3; 4] true
  | 3 => elementNode "HEAD" [] (Some 2) [] true
  | 4 => elementNode "BODY" [] (Some 2) [5; 6] true
  | 5 => elementNode "BUTTON" [("class", "btn-close")] (Some 4) [] true
  | 6 => with_style {[ "display" := "block" ]}
           (elementNode "DIV" [("id", "panel")] (Some 4) [] true)
  | 7 => elementNode "SPAN" [("role", "note")] None [] false
  | _ => otherNode 3 "#text" [] false
  end%positive.

Definition sampleDocument : Document :=
  mkDocument sampleNodes 1%positive (Some 3%positive) (Some 4%positive) 8%positive false.

(** Heuristics whose rules find nothing to do; the button label is the last
    resort of [enhanceUnlabeledButtons]. *)
Definition quietHeuristics : Heuristics :=
  mkHeuristics (λ _ _, "Button")
    (λ _, mret tt) (λ _, mret tt) (λ _, mret tt) (λ _, mret tt)
    (λ _, mret tt) (λ _, mret tt) (λ _, mret tt)
    (mret tt) (mret tt) (mret tt) (mret tt) (mret tt).

(** The part of [enhanceTabsGlobal] that decides whether it throws.  The
    rule skips a tab list it has flagged and flags the others first; then,
    for each visible tab of the list that is a link whose [href] starts with
    [#], it calls [document.querySelector] with that [href].  An [href] that
    is just ["#"] is not a selector, and the call throws.  The role, tabindex
    and id writes of the rule are left out. *)
Definition tabListSelector : Selector :=
  [[AttrIs "role" "tablist"]; [Class "tabs"]; [Class "tab-list"]; [Class "nav-tabs"];
   [Class "tab-container"]].

Definition tabSelector : Selector :=
  [[AttrIs "role" "tab"]; [Class "tab"]; [Tag "LI"]; [Tag "A"]].

Definition hashTabsRule : Js Page unit :=
  p ← js_get;
  forEach (querySelectorAll (documentNode (doc p)) tabListSelector p) (λ tablist,
    q ← js_get;
    if bool_decide (attributes (nodeOf q tablist) !! "data-a11y-flag-tablist" = Some "1")
    then mret tt
    else
      setAttrTracked tablist "data-a11y-flag-tablist" "1";;
      r ← js_get;
      forEach (filter (λ t, isVisible r t = true) (querySelectorAll tablist tabSelector r))
        (λ tab,
           t ← js_get;
           if bool_decide (tagName (nodeOf t tab) = "A") &&
              bool_decide (attributes (nodeOf t tab) !! "href" = Some "#")
           then js_throw SyntaxError
           else mret tt)).

Definition hashTabsHeuristics : Heuristics :=
  mkHeuristics (λ _ _, "Button")
    (λ _, mret tt) (λ _, mret tt) (λ _, mret tt) (λ _, mret tt)
    (λ _, mret tt) (λ _, mret tt) (λ _, mret tt)
    (mret tt) hashTabsRule (mret tt) (mret tt) (mret tt).

(** An empty [<body>], and a list
    [<ul class="nav-tabs"><li><a href="#">Home</a></li></ul>] (nodes 5 to 7)
    that a page script has built and not inserted yet. *)
Definition tabsNodes (el : node) : Node :=
  match el with
  | 1 => otherNode 9 "#document" [2] true
  | 2 => elementNode "HTML" [] (Some 1) [3; 4] true
  | 3 => elementNode "HEAD" [] (Some 2) [] true
  | 4 => elementNode "BODY" [] (Some 2) [] true
  | 5 => elementNode "UL" [("class", "nav-tabs")] None [6] false
  | 6 => elementNode "LI" [] (Some 5) [7] false
  | 7 => elementNode "A" [("href", "#")] (Some 6) [] false
  | _ => otherNode 3 "#text" [] false
  end%positive.

Definition tabsDocument : Document :=
  mkDocument tabsNodes 1%positive (Some 3%positive) (Some 4%positive) 8%positive false.

(** [document.body.appendChild(el)] called by a script of the page. *)
Definition pageAppendsToBody (el : node) (s : Engine) : Engine :=
  match body (doc (page s)) with
  | Some b => with_page (with_doc (link false b el (doc (page s))) (page s)) s
  | None => s
  end.

(** [<body><div class="clickable"></div></body>]: a clickable [div] that is
    rendered and has no text, such as an icon drawn by a background image. *)
Definition clickableNodes (el : node) : Node :=
  match el with
  | 1 => otherNode 9 "#document" [2] true
  | 2 => elementNode "HTML" [] (Some 1) [3; 4] true
  | 3 => elementNode "HEAD" [] (Some 2) [] true
  | 4 => elementNode "BODY" [] (Some 2) [5] true
  | 5 => elementNode "DIV" [("class", "clickable")] (Some 4) [] true
  | _ => otherNode 3 "#text" [] false
  end%positive.

Definition clickableDocument : Document :=
  mkDocument clickableNodes 1%positive (Some 3%positive) (Some 4%positive) 6%positive false.

(** [<body>] with three [<article class="post">] that a page script has
    just inserted. *)
Definition feedNodes (el : node) : Node :=
  match el with
  | 1 => otherNode 9 "#document" [2] true
  | 2 => elementNode "HTML" [] (Some 1) [3; 4] true
  | 3 => elementNode "HEAD" [] (Some 2) [] true
  | 4 => elementNode "BODY" [] (Some 2) [5; 6; 7] true
  | 5 | 6 | 7 => elementNode "ARTICLE" [("class", "post")] (Some 4) [] true
  | _ => otherNode 3 "#text" [] false
  end%positive.

Definition feedDocument : Document :=
  mkDocument feedNodes 1%positive (Some 3%positive) (Some 4%positive) 8%positive false.

(** The scheduler called once per item count, in order. *)
Definition scheduleAll (counts : list Z) (s : Engine) : Engine :=
  foldl (λ s' c, stateAfter (scheduleEnhancements c) s') s counts.

Definition sumOf (counts : list Z) : Z := foldr Z.add 0%Z counts.

(** What [disableA11Y] leaves behind. *)
Definition detached (x : option node) (p : Page) : Page :=
  if attached p x
  then match x with
       | Some el => with_doc (unlink el (doc p)) p
       | None => p
       end
  else p.

Definition disabledState (s : Engine) : Engine :=
  mkEngine
    (rolledBack (detached (globalStyleEl s)
       (detached (liveRegionEl s) (detached (skipLinkEl s) (page s)))))
    (a11yEnabled s) None (enhancementScheduled s) None None None 0 0
    (observerSupported s)
    (match mutationObserver s with
     | Some o => filter (λ r, r.1 ≠ o) (observations s)
     | None => observations s
     end)
    (nextObserver s) (frameQueue s) (timerQueue s).

(** A state in which [disableA11Y] finds nothing to undo. *)
Definition quiescent (s : Engine) : Prop :=
  mutationObserver s = None ∧ skipLinkEl s = None ∧ liveRegionEl s = None ∧
  globalStyleEl s = None ∧ changeLog (page s) = ∅ ∧
  pendingItemCount s = 0%Z ∧ mutationCounter s = 0%Z.

(** The variables the enhancement passes never assign: everything but the
    page, the live region and the timer queue. *)
Definition sameControl (s s' : Engine) : Prop :=
  a11yEnabled s' = a11yEnabled s ∧
  mutationObserver s' = mutationObserver s ∧
  enhancementScheduled s' = enhancementScheduled s ∧
  skipLinkEl s' = skipLinkEl s ∧
  globalStyleEl s' = globalStyleEl s ∧
  mutationCounter s' = mutationCounter s ∧
  pendingItemCount s' = pendingItemCount s ∧
  observerSupported s' = observerSupported s ∧
  observations s' = observations s ∧
  nextObserver s' = nextObserver s ∧
  frameQueue s' = frameQueue s.

Definition keepsControl {A} (m : Js Engine A) : Prop :=
  ∀ s, sameControl s (m s).2.

(* ===================================================================== *)
(** * More of the script *)
(* ===================================================================== *)

(** ** Tracked writes and collections interleaved *)

(** What happens to the ledger between two rollbacks: tracked writes, and
    the collections the mutation observer triggers. *)
Inductive LedgerOp : Type :=
  | Write (w : TrackedWrite)
  | Collect.

Definition applyOp (p : Page) (op : LedgerOp) : Page :=
  match op with
  | Write w => stateAfter (exec w) p
  | Collect => stateAfter garbageCollect p
  end.

Definition runOps (ops : list LedgerOp) (p : Page) : Page := foldl applyOp p ops.

Definition plainOp (op : LedgerOp) : bool :=
  match op with
  | Write w => plainWrite w
  | Collect => true
  end.

(** ** The ledger as JavaScript enumerates it

    [changeLog.forEach] visits the entries in the order the nodes were first
    written to, and [Object.keys] lists the keys of an entry in the order
    they were first recorded.  An enumeration gives each entry once, with its
    attribute originals and its style originals in some order. *)
Definition Enumeration : Type :=
  list (node * (list (string * option string) * list (string * string))).

Definition replayedNode (originals : list (string * option string) * list (string * string))
    (n : Node) : Node :=
  with_style (foldl restoreStyleStep (style n) originals.2)
    (with_attributes (foldl restoreAttrStep (attributes n) originals.1) n).

(** The callback of [clearAllTrackedChanges] on an enumerated entry. *)
Definition replayEntry (p : Page)
    (ee : node * (list (string * option string) * list (string * string))) : Page :=
  if isElement p ee.1
  then foldl (restoreStyleOn ee.1) (foldl (restoreAttrOn ee.1) p ee.2.1) ee.2.2
  else p.

Definition replay (l : Enumeration) (p : Page) : Page :=
  with_changeLog ∅ (foldl replayEntry p l).

Definition entryOfLists
    (originals : list (string * option string) * list (string * string)) : Entry :=
  mkEntry (list_to_map originals.1) (list_to_map originals.2) false.

(** [l] is an enumeration of the ledger [L]: no node and no key twice, and
    the same entries. *)
Definition enumerates (l : Enumeration) (L : gmap node Entry) : Prop :=
  NoDup l.*1 ∧
  Forall (λ ee, NoDup ee.2.1.*1 ∧ NoDup ee.2.2.*1) l ∧
  L = entryOfLists <$> (list_to_map l : gmap node _).

(** ** Events

    The script runs only in callbacks the browser calls one at a time: the
    start-up code, the click handler of the toggle button, the callback of
    the mutation observer, animation frames and timers.  Between two of them
    the scripts of the page change the document as they like.  A click on
    the toggle is taken to be possible at any time, and the browser stores
    the preference it sets or refuses to.  The keyboard listener is not
    among the events. *)

(** The part of [createToggleButton] that touches the engine.  Without a
    body, or when the document already has an element with the id of the
    button, it does nothing; otherwise the stored preference becomes
    [a11yEnabled], and an engine stored as enabled is enabled at once.  The
    button the script creates in between and its look are outside the state
    modelled here, as for [toggleClick]. *)
Definition startUp (H : Heuristics) (stored : bool) : Js Engine unit :=
  λ s, match body (doc (page s)) with
       | None => (Ok tt, s)
       | Some _ =>
           if bool_decide (querySelectorAll (documentNode (doc (page s)))
                             [[AttrIs "id" "a11y-toggle-btn"]] (page s) = [])
           then (js_modify (with_a11yEnabled stored);;
                 s' ← js_get;
                 if a11yEnabled s' then enableA11Y H else mret tt) s
           else (Ok tt, s)
       end.

(** The click listener of the toggle button, statement by statement.  The
    flag is flipped first.  [localStorage.setItem] then stores it; the
    browser refuses the write when the storage is full or denied, and the
    call throws: [saved] says whether it returned.  When it throws the
    listener ends there, the flag flipped and nothing else done. *)
Definition toggleListener (H : Heuristics) (saved : bool) : Js Engine unit :=
  js_modify (λ s, with_a11yEnabled (negb (a11yEnabled s)) s);;
  (if saved then mret tt else js_throw DOMException);;
  s ← js_get;
  if a11yEnabled s then enableA11Y H else disableA11Y.

Inductive Event : Type :=
  | ToggleClicked (saved : bool)
  | MutationsObserved (mutations : list MutationRecord)
  | FrameTick
  | TimerFired
  | PageScript (f : Document → Document).

(** The browser delivers mutation records only to an observer that is
    registered, and runs timers of equal delay in the order they were set. *)
Definition fire (H : Heuristics) (ev : Event) (s : Engine) : Engine :=
  match ev with
  | ToggleClicked saved => stateAfter (toggleListener H saved) s
  | MutationsObserved mutations =>
      if bool_decide (observations s = []) then s
      else stateAfter (observerCallback H mutations) s
  | FrameTick => animationFrame H s
  | TimerFired =>
      match timerQueue s with
      | cb :: rest => stateAfter (timerCallback cb) (with_timerQueue rest s)
      | [] => s
      end
  | PageScript f => with_page (with_doc (f (doc (page s))) (page s)) s
  end.

Definition runEvents (H : Heuristics) (evs : list Event) (s : Engine) : Engine :=
  foldl (λ s' ev, fire H ev s') s evs.

(** The events other than a click whose preference the browser refused to
    store. *)
Definition storageKept (ev : Event) : bool :=
  match ev with
  | ToggleClicked saved => saved
  | _ => true
  end.

(** The engine as the script declares it, in a browser that has
    [MutationObserver] or has not. *)
Definition engineAtLoad (supported : bool) (d : Document) : Engine :=
  mkEngine (freshPage d) false None false None None None 0 0 supported [] 0 [] [].

(** A run of the script: start-up, then events. *)
Definition session (H : Heuristics) (supported stored : bool) (d : Document)
    (evs : list Event) : Engine :=
  runEvents H evs (stateAfter (startUp H stored) (engineAtLoad supported d)).

Definition isGlobalPass (cb : FrameCallback) : bool :=
  match cb with GlobalPass => true | LocalBatch _ => false end.

(** How many global passes a list of frame callbacks holds. *)
Definition pendingPasses (q : list FrameCallback) : nat :=
  length (filter (λ cb, isGlobalPass cb = true) q).

(** The variables that only the scheduler, the observer and the toggle
    assign. *)
Definition sameSchedule (s s' : Engine) : Prop :=
  a11yEnabled s' = a11yEnabled s ∧
  mutationObserver s' = mutationObserver s ∧
  enhancementScheduled s' = enhancementScheduled s ∧
  mutationCounter s' = mutationCounter s ∧
  pendingItemCount s' = pendingItemCount s ∧
  observerSupported s' = observerSupported s ∧
  observations s' = observations s ∧
  nextObserver s' = nextObserver s ∧
  frameQueue s' = frameQueue s.

Definition keepsSchedule {A} (m : Js Engine A) : Prop :=
  ∀ s, sameSchedule s (m s).2.

(** What holds between two callbacks; within an animation frame, [running]
    counts the global passes of the frame that have not run yet.  The last
    two parts say that the flag [a11yEnabled] and the engine agree; they
    hold as long as every click got to the end of its listener ([inStep]). *)
Definition settled (inStep : bool) (running : nat) (s : Engine) : Prop :=
  (running + pendingPasses (frameQueue s))%nat = (if enhancementScheduled s then 1 else 0)%nat ∧
  (0 ≤ mutationCounter s < 80)%Z ∧
  (0 ≤ pendingItemCount s)%Z ∧
  (observations s).*1 = option_list (mutationObserver s) ∧
  (inStep = true → is_Some (mutationObserver s) → a11yEnabled s = true) ∧
  (inStep = true → a11yEnabled s = false →
     changeLog (page s) = ∅ ∧ skipLinkEl s = None ∧ liveRegionEl s = None ∧
     globalStyleEl s = None ∧ pendingItemCount s = 0%Z ∧ mutationCounter s = 0%Z).

(** ** Elements of the engine's own

    The stylesheet, the skip link and the live region are elements the
    engine creates; it writes to them without the ledger.  [keepsOld bound p
    p'] says what such steps leave alone: the ledger, and the type, the
    attributes, the inline style and the connection of the nodes below
    [bound]. *)
Definition keepsOld (bound : node) (p p' : Page) : Prop :=
  changeLog p' = changeLog p ∧
  (nextNode (doc p) ≤ nextNode (doc p'))%positive ∧
  ∀ el, (el < bound)%positive →
    nodeType (nodeOf p' el) = nodeType (nodeOf p el) ∧
    attributes (nodeOf p' el) = attributes (nodeOf p el) ∧
    style (nodeOf p' el) = style (nodeOf p el) ∧
    isConnected (nodeOf p' el) = isConnected (nodeOf p el).

(** Announcements made one after the other. *)
Definition announceAll (texts : list string) (s : Engine) : Engine :=
  foldl (λ s' text, stateAfter (announce text) s') s texts.

(** The page after the engine has built an element: [createElement], the
    attributes in the order they are set, the text if one is set, and the
    insertion under [parent]. *)
Definition built (tag : string) (attrs : list (string * string)) (text : option string)
    (atFront : bool) (parent : node) (p : Page) : Page :=
  let el := nextNode (doc p) in
  let p1 := (createElement tag p).2 in
  let p2 := foldl (λ q kv, setAttributeOn el kv.1 kv.2 q) p1 attrs in
  let p3 := match text with
            | Some t => with_doc (updNode el (with_textContent t) (doc p2)) p2
            | None => p2
            end in
  with_doc (link atFront parent el (doc p3)) p3.

Definition liveRegionAttributes : list (string * string) :=
  [("id", "a11y-live-region"); ("class", "a11y-live-region");
   ("role", "status"); ("aria-live", "polite")].

(** [document.querySelector('main') || document.body] *)
Definition mainCandidateOf (b : node) (p : Page) : node :=
  default b (List.head (querySelectorAll (documentNode (doc p)) [[Tag "MAIN"]] p)).

Definition skipLinkAttributes (target : string) : list (string * string) :=
  [("href", "#" +:+ target); ("class", "a11y-skip-link")].

(** ** Toggling on and off again

    [upholds p0 p el]: measured against the page [p0], no node has been taken
    away, and the node [el] of [p0] is in the document and has each of its
    keys either as in [p0] or on the ledger with the value of [p0]. *)
Definition upholds (p0 p : Page) (el : node) : Prop :=
  (el < nextNode (doc p0))%positive ∧
  (nextNode (doc p0) ≤ nextNode (doc p))%positive ∧
  isConnected (nodeOf p el) = true ∧
  ∀ k, keyInv p0 p el k.

(** A step on the page that keeps this of every node, whether it returns or
    throws. *)
Definition respectsLedger {A} (m : Js Page A) : Prop :=
  ∀ p0 p el, upholds p0 p el → upholds p0 (m p).2 el.

(** A rule body that changes the page by tracked writes on plain keys and by
    nothing else: whatever the page, and whether it returns or throws, it
    leaves behind what some sequence of such writes leaves behind. *)
Definition writesPlainly {A} (m : Js Page A) : Prop :=
  ∀ p, ∃ ws, forallb plainWrite ws = true ∧ (m p).2 = run ws p.

Definition respectful (H : Heuristics) : Prop :=
  (∀ el, writesPlainly (linkRule H el)) ∧
  (∀ el, writesPlainly (requiredLabelRule H el)) ∧
  (∀ el, writesPlainly (placeholderRule H el)) ∧
  (∀ el, writesPlainly (errorRule H el)) ∧
  (∀ el, writesPlainly (dropdownRule H el)) ∧
  (∀ el, writesPlainly (liveRegionRule H el)) ∧
  (∀ el, writesPlainly (sliderRule H el)) ∧
  writesPlainly (regionsRule H) ∧
  writesPlainly (tabsRule H) ∧
  writesPlainly (dialogsRule H) ∧
  writesPlainly (stickyHeadersRule H) ∧
  writesPlainly (tabIndexRule H).

(** The same of a callback of the engine, which in addition leaves
    [a11yEnabled] alone. *)
Definition steady {A} (m : Js Engine A) : Prop :=
  ∀ p0 s el, upholds p0 (page s) el →
    upholds p0 (page (m s).2) el ∧ a11yEnabled (m s).2 = a11yEnabled s.




(** ** Rules modelled in full *)

(** [parseInt(s, 10)]: the white space at the beginning is skipped, a sign
    is read, then the longest run of decimal digits; [None] stands for
    [NaN].  The value is the integer the digits denote, which is positive
    exactly when the number JavaScript computes is. *)
Definition isDigit (c : Ascii.ascii) : bool :=
  (48 <=? Ascii.nat_of_ascii c)%nat && (Ascii.nat_of_ascii c <=? 57)%nat.

Fixpoint leadingDigits (acc : Z) (s : string) : Z :=
  match s with
  | String c s' =>
      if isDigit c
      then leadingDigits (10 * acc + (Z.of_nat (Ascii.nat_of_ascii c) - 48)) s'
      else acc
  | EmptyString => acc
  end.

Definition startsWithDigit (s : string) : bool :=
  match s with
  | String c _ => isDigit c
  | EmptyString => false
  end.

Definition parseInt (s : string) : option Z :=
  let s1 := skipWhiteSpace s in
  let signed :=
    match s1 with
    | String c rest =>
        if (Ascii.nat_of_ascii c =? 45)%nat then (-1, rest)%Z        (* - *)
        else if (Ascii.nat_of_ascii c =? 43)%nat then (1, rest)%Z    (* + *)
        else (1%Z, s1)
    | EmptyString => (1%Z, s1)
    end in
  if startsWithDigit signed.2 then Some (signed.1 * leadingDigits 0 signed.2)%Z else None.

(** The callback of [tabbables.forEach] in [normalizeTabIndexGlobal]. *)
Definition normalizeTabIndex (el : node) : Js Page unit :=
  val ← readAttribute el "tabindex";
  match val ≫= parseInt with
  | Some v => if (0 <? v)%Z then setAttrTracked el "tabindex" "0" else mret tt
  | None => mret tt
  end.

(** The body of [normalizeTabIndexGlobal], which is called without a root. *)
Definition tabIndexBody : Js Page unit :=
  p ← js_get;
  forEach (querySelectorAll (documentNode (doc p)) [[HasAttr "tabindex"]] p)
    normalizeTabIndex.

(** An element that takes part in sequential focus navigation before the
    others: its [tabindex] parses as a positive number. *)
Definition positiveTabIndex (p : Page) (el : node) : bool :=
  match attributes (nodeOf p el) !! "tabindex" ≫= parseInt with
  | Some v => (0 <? v)%Z
  | None => false
  end.

(** The callback of [notif.forEach] in [enhanceLocalLiveRegions]. *)
Definition markLiveRegion (n : node) : Js Page unit :=
  λ p, if negb (isVisible p n) then (Ok tt, p)
       else
         (flag ← readAttribute n "data-a11y-flag-live";
          if bool_decide (flag = Some "1") then mret tt
          else
            setAttrTracked n "data-a11y-flag-live" "1";;
            q ← js_get;
            if negb (elementHasOwnAccessibility q n)
            then setAttrTracked n "role" "status";;
                 setAttrTracked n "aria-live" "polite"
            else mret tt) p.

(** Pages that differ at most in the ledger and in the attributes named. *)
Definition sameBut (names : list string) (p p' : Page) : Prop :=
  documentNode (doc p') = documentNode (doc p) ∧
  head (doc p') = head (doc p) ∧ body (doc p') = body (doc p) ∧
  nextNode (doc p') = nextNode (doc p) ∧
  quirksMode (doc p') = quirksMode (doc p) ∧
  ∀ el, with_attributes ∅ (nodeOf p' el) = with_attributes ∅ (nodeOf p el) ∧
        ∀ a, a ∉ names → attributes (nodeOf p' el) !! a = attributes (nodeOf p el) !! a.

(** What a rule of the shape of [selectAndApply] does to the page once the
    guard has passed. *)
Definition rulePass (root : option node) (sel : Selector)
    (callback : node → Js Page unit) : Js Page unit :=
  p ← js_get;
  forEach (querySelectorAll (containerOf root p) sel p) callback.

(** The attribute a simple selector looks at. *)
Definition attributeOf (sel : SimpleSelector) : option string :=
  match sel with
  | Tag _ => None
  | HasAttr a | AttrIs a _ | AttrContains a _ => Some a
  | Class _ => Some "class"
  end.

Definition selectorMentions (names : list string) (sel : Selector) : bool :=
  existsb (existsb (λ s, match attributeOf s with
                         | Some a => bool_decide (a ∈ names)
                         | None => false
                         end)) sel.

(** The elements on which the callbacks of [enhanceClickableRoles],
    [enhanceUnlabeledButtons] and [enhanceLocalLiveRegions] get to their
    writes. *)
Definition wantsButtonRole (p : Page) (el : node) : bool :=
  isVisible p el && negb (elementHasOwnAccessibility p el) &&
  negb (bool_decide (tagName (nodeOf p el) = "BUTTON") ||
        bool_decide (tagName (nodeOf p el) = "A")) &&
  (onclickHandler (nodeOf p el) ||
   negb (bool_decide (default "" (attributes (nodeOf p el) !! "onclick") = "")) ||
   matches p clickableSelector el).

Definition wantsLabel (p : Page) (btn : node) : bool :=
  isVisible p btn &&
  negb (hasAttribute (nodeOf p btn) "aria-label" ||
        hasAttribute (nodeOf p btn) "aria-labelledby") &&
  isBlank (innerText (nodeOf p btn)).

Definition wantsLiveFlag (p : Page) (n : node) : bool :=
  isVisible p n &&
  negb (bool_decide (attributes (nodeOf p n) !! "data-a11y-flag-live" = Some "1")).

(** The rules of the script that are modelled in full, the others finding
    nothing to do. *)
Definition scriptedHeuristics : Heuristics :=
  mkHeuristics (λ _ _, "Button")
    (λ _, mret tt) (λ _, mret tt) (λ _, mret tt) (λ _, mret tt)
    (λ _, mret tt) markLiveRegion (λ _, mret tt)
    (mret tt) (mret tt) (mret tt) (mret tt) tabIndexBody.

(** What the three callbacks leave behind where they write. *)
Definition madeButton (el : node) (p : Page) : Page :=
  let p1 := tracked (SetAttr el "role" "button") p in
  if hasAttribute (nodeOf p1 el) "tabindex" then p1
  else tracked (SetAttr el "tabindex" "0") p1.

Definition labelled (H : Heuristics) (btn : node) (p : Page) : Page :=
  tracked (SetAttr btn "aria-label" (buttonLabel H btn p)) p.

Definition markedLive (n : node) (p : Page) : Page :=
  let p1 := tracked (SetAttr n "data-a11y-flag-live" "1") p in
  if elementHasOwnAccessibility p1 n then p1
  else tracked (SetAttr n "aria-live" "polite") (tracked (SetAttr n "role" "status") p1).

(** [<body><div class="toast"></div>
    <div class="alert" role="alert"></div></body>]: two notifications, the
    second with a role of its own. *)
Definition toastNodes (el : node) : Node :=
  match el with
  | 1 => otherNode 9 "#document" [2] true
  | 2 => elementNode "HTML" [] (Some 1) [3; 4] true
  | 3 => elementNode "HEAD" [] (Some 2) [] true
  | 4 => elementNode "BODY" [] (Some 2) [5; 6] true
  | 5 => elementNode "DIV" [("class", "toast")] (Some 4) [] true
  | 6 => elementNode "DIV" [("class", "alert"); ("role", "alert")] (Some 4) [] true
  | _ => otherNode 3 "#text" [] false
  end%positive.

Definition toastDocument : Document :=
  mkDocument toastNodes 1%positive (Some 3%positive) (Some 4%positive) 7%positive false.


(** The callback of [links.forEach] in [enhanceUnlabeledLinks].  Which label
    the class, URL, sibling and role patterns arrive at is left to
    [linkLabel]; every path through them ends in one tracked write of
    [aria-label]. *)
Definition labelLink (linkLabel : node → Page → string) (a : node) : Js Page unit :=
  λ p, if negb (isElement p a) then (Ok tt, p)
       else if negb (isVisible p a) then (Ok tt, p)
       else if hasAttribute (nodeOf p a) "aria-label" ||
               hasAttribute (nodeOf p a) "aria-labelledby" then (Ok tt, p)
       else if negb (isBlank (innerText (nodeOf p a))) then (Ok tt, p)
       else if bool_decide (attributes (nodeOf p a) !! "aria-hidden" = Some "true")
            then (Ok tt, p)
       else setAttrTracked a "aria-label" (linkLabel a p) p.





(* ===================================================================== *)
(** * Properties *)
(* ===================================================================== *)

(** ** The monad *)

Lemma js_bind_ok {S A B} (m : Js S A) (f : A → Js S B) s a s' :
  m s = (Ok a, s') → (m ≫= f) s = f a s'.
Proof. intros H. unfold mbind, Js_bind, js_bind. by rewrite H. Qed.


(** A loop whose body never throws is the fold of its body. *)
Lemma forEach_total {S A} (body : A → Js S unit) (step : S → A → S) (l : list A) :
  (∀ x s, body x s = (Ok tt, step s x)) →
  ∀ s, forEach l body s = (Ok tt, foldl step s l).
Proof.
  intros Hb. induction l as [|x l IH]; intros s; simpl; [done|].
  erewrite js_bind_ok by apply Hb. apply IH.
Qed.

(** The same when the body is total only on the states of an invariant. *)
Lemma forEach_total_inv {S A} (I : S → Prop) (body : A → Js S unit)
    (step : S → A → S) (l : list A) :
  (∀ x s, I s → body x s = (Ok tt, step s x) ∧ I (step s x)) →
  ∀ s, I s → forEach l body s = (Ok tt, foldl step s l) ∧ I (foldl step s l).
Proof.
  intros Hb. induction l as [|x l IH]; intros s Hs; simpl; [done|].
  destruct (Hb x s Hs) as [E Hs'].
  erewrite js_bind_ok by exact E. by apply IH.
Qed.

(** ** DOM primitives *)

Lemma isElement_updNode p el f el' :
  nodeType (f (nodeOf p el)) = nodeType (nodeOf p el) →
  isElement (with_doc (updNode el f (doc p)) p) el' = isElement p el'.
Proof.
  intros H. unfold isElement, nodeOf in *. simpl.
  destruct (decide (el = el')) as [->|Hne].
  - by rewrite fn_lookup_insert, H.
  - by rewrite fn_lookup_insert_ne.
Qed.

Lemma nodeOf_updNode p el f el' :
  nodeOf (with_doc (updNode el f (doc p)) p) el' =
  if decide (el = el') then f (nodeOf p el) else nodeOf p el'.
Proof.
  unfold nodeOf. simpl. case_decide as H.
  - subst. by rewrite fn_lookup_insert.
  - by rewrite fn_lookup_insert_ne.
Qed.

(** ** Replaying the ledger *)

Lemma restoreAttrs_list (l : list (string * option string)) :
  NoDup l.*1 →
  ∀ (a : gmap string string) (k : string),
    foldl restoreAttrStep a l !! k =
    match (list_to_map l : gmap string (option string)) !! k with
    | Some o => o
    | None => a !! k
    end.
Proof.
  induction l as [|[k0 o] l IH]; intros Hnd a k; simpl; [done|].
  apply list.NoDup_cons in Hnd as [Hnotin Hnd].
  rewrite IH by done.
  destruct (decide (k0 = k)) as [->|Hne].
  - rewrite lookup_insert_eq.
    rewrite (not_elem_of_list_to_map_1 l k) by done.
    unfold restoreAttrStep. simpl. destruct o.
    + by rewrite lookup_insert_eq.
    + by rewrite lookup_delete_eq.
  - rewrite lookup_insert_ne by done.
    destruct (list_to_map l !! k); [done|].
    unfold restoreAttrStep. simpl. destruct o.
    + by rewrite lookup_insert_ne.
    + by rewrite lookup_delete_ne.
Qed.

Lemma restoreAttrs_lookup (m : gmap string (option string)) (a : gmap string string) k :
  foldl restoreAttrStep a (map_to_list m) !! k =
  match m !! k with Some o => o | None => a !! k end.
Proof.
  rewrite restoreAttrs_list by apply NoDup_fst_map_to_list.
  by rewrite list_to_map_to_list.
Qed.

Lemma assignStyle_read prop v st k :
  default "" (assignStyle prop v st !! k) =
  if decide (prop = k) then v else default "" (st !! k).
Proof.
  unfold assignStyle. case_decide as Hv; case_decide as Hk; subst.
  - by rewrite lookup_delete_eq.
  - by rewrite lookup_delete_ne.
  - by rewrite lookup_insert_eq.
  - by rewrite lookup_insert_ne.
Qed.

Lemma restoreStyles_list (l : list (string * string)) :
  NoDup l.*1 →
  ∀ (st : gmap string string) (k : string),
    default "" (foldl restoreStyleStep st l !! k) =
    match (list_to_map l : gmap string string) !! k with
    | Some v => v
    | None => default "" (st !! k)
    end.
Proof.
  induction l as [|[k0 v] l IH]; intros Hnd st k; simpl; [done|].
  apply list.NoDup_cons in Hnd as [Hnotin Hnd].
  rewrite IH by done.
  destruct (decide (k0 = k)) as [->|Hne].
  - rewrite lookup_insert_eq.
    rewrite (not_elem_of_list_to_map_1 l k) by done.
    unfold restoreStyleStep. simpl. rewrite assignStyle_read. by case_decide.
  - rewrite lookup_insert_ne by done.
    destruct (list_to_map l !! k); [done|].
    unfold restoreStyleStep. simpl. rewrite assignStyle_read. by case_decide.
Qed.

Lemma restoreStyles_lookup (m st : gmap string string) k :
  default "" (foldl restoreStyleStep st (map_to_list m) !! k) =
  match m !! k with Some v => v | None => default "" (st !! k) end.
Proof.
  rewrite restoreStyles_list by apply NoDup_fst_map_to_list.
  by rewrite list_to_map_to_list.
Qed.

Lemma setAttribute_element el a v p :
  isElement p el = true → setAttribute el a v p = (Ok tt, setAttributeOn el a v p).
Proof. intros H. unfold setAttribute, onElement. by rewrite H. Qed.

Lemma removeAttribute_element el a p :
  isElement p el = true → removeAttribute el a p = (Ok tt, removeAttributeOn el a p).
Proof. intros H. unfold removeAttribute, onElement. by rewrite H. Qed.

Lemma writeStyle_element el s v p :
  isElement p el = true → writeStyle el s v p = (Ok tt, writeStyleOn el s v p).
Proof. intros H. unfold writeStyle, onElement. by rewrite H. Qed.

Lemma isElement_setAttributeOn el a v p el' :
  isElement (setAttributeOn el a v p) el' = isElement p el'.
Proof. by apply isElement_updNode. Qed.

Lemma isElement_removeAttributeOn el a p el' :
  isElement (removeAttributeOn el a p) el' = isElement p el'.
Proof. by apply isElement_updNode. Qed.

Lemma isElement_writeStyleOn el s v p el' :
  isElement (writeStyleOn el s v p) el' = isElement p el'.
Proof. by apply isElement_updNode. Qed.

Lemma isElement_restoreAttrOn el p kv el' :
  isElement (restoreAttrOn el p kv) el' = isElement p el'.
Proof.
  unfold restoreAttrOn. destruct kv.2.
  - apply isElement_setAttributeOn.
  - apply isElement_removeAttributeOn.
Qed.

Lemma nodeOf_restoreAttrOn el p kv el' :
  nodeOf (restoreAttrOn el p kv) el' =
  if decide (el = el')
  then with_attributes (restoreAttrStep (attributes (nodeOf p el)) kv) (nodeOf p el)
  else nodeOf p el'.
Proof.
  unfold restoreAttrOn, restoreAttrStep.
  destruct kv.2; unfold setAttributeOn, removeAttributeOn; by rewrite nodeOf_updNode.
Qed.

Lemma nodeOf_restoreStyleOn el p kv el' :
  nodeOf (restoreStyleOn el p kv) el' =
  if decide (el = el')
  then with_style (restoreStyleStep (style (nodeOf p el)) kv) (nodeOf p el)
  else nodeOf p el'.
Proof. unfold restoreStyleOn, writeStyleOn. by rewrite nodeOf_updNode. Qed.

(** Replaying the keys of one entry: the node of the entry gets its
    attributes and its style folded, every other node is left alone. *)
Lemma nodeOf_restoreAttrs el l : ∀ p el',
  nodeOf (foldl (restoreAttrOn el) p l) el' =
  if decide (el = el')
  then with_attributes (foldl restoreAttrStep (attributes (nodeOf p el)) l) (nodeOf p el)
  else nodeOf p el'.
Proof.
  induction l as [|kv l IH]; intros p el'; simpl.
  - case_decide; [subst; by destruct (nodeOf p el')|done].
  - rewrite IH, !nodeOf_restoreAttrOn.
    rewrite (decide_True (P := el = el)) by done.
    by case_decide.
Qed.

Lemma nodeOf_restoreStyles el l : ∀ p el',
  nodeOf (foldl (restoreStyleOn el) p l) el' =
  if decide (el = el')
  then with_style (foldl restoreStyleStep (style (nodeOf p el)) l) (nodeOf p el)
  else nodeOf p el'.
Proof.
  induction l as [|kv l IH]; intros p el'; simpl.
  - case_decide; [subst; by destruct (nodeOf p el')|done].
  - rewrite IH, !nodeOf_restoreStyleOn.
    rewrite (decide_True (P := el = el)) by done.
    by case_decide.
Qed.

Lemma changeLog_restoreAttrs el l : ∀ p,
  changeLog (foldl (restoreAttrOn el) p l) = changeLog p.
Proof.
  induction l as [|kv l IH]; intros p; simpl; [done|].
  rewrite IH. unfold restoreAttrOn. by destruct kv.2.
Qed.

Lemma changeLog_restoreStyles el l : ∀ p,
  changeLog (foldl (restoreStyleOn el) p l) = changeLog p.
Proof. induction l as [|kv l IH]; intros p; simpl; [done|]. by rewrite IH. Qed.

Lemma isElement_restoreAttrs el l el' : ∀ p,
  isElement (foldl (restoreAttrOn el) p l) el' = isElement p el'.
Proof.
  induction l as [|kv l IH]; intros p; simpl; [done|].
  by rewrite IH, isElement_restoreAttrOn.
Qed.

Lemma isElement_restoreStyles el l el' : ∀ p,
  isElement (foldl (restoreStyleOn el) p l) el' = isElement p el'.
Proof.
  induction l as [|kv l IH]; intros p; simpl; [done|].
  rewrite IH. apply isElement_writeStyleOn.
Qed.

Lemma nodeOf_restoreStep p el e el' :
  nodeOf (restoreStep p (el, e)) el' =
  if decide (el = el')
  then (if isElement p el then restoredNode e (nodeOf p el) else nodeOf p el)
  else nodeOf p el'.
Proof.
  unfold restoreStep. simpl. destruct (isElement p el) eqn:He.
  - rewrite nodeOf_restoreStyles. case_decide as Hd.
    + rewrite nodeOf_restoreAttrs, decide_True by done. done.
    + by rewrite nodeOf_restoreAttrs, decide_False by done.
  - by case_decide; subst.
Qed.

Lemma changeLog_restoreStep p ee : changeLog (restoreStep p ee) = changeLog p.
Proof.
  unfold restoreStep. destruct (isElement p ee.1); [|done].
  by rewrite changeLog_restoreStyles, changeLog_restoreAttrs.
Qed.

Lemma isElement_restoreStep p ee el' :
  isElement (restoreStep p ee) el' = isElement p el'.
Proof.
  unfold restoreStep. destruct (isElement p ee.1); [|done].
  by rewrite isElement_restoreStyles, isElement_restoreAttrs.
Qed.

(** The callback of [clearAllTrackedChanges] never throws. *)
Lemma restoreEntry_total el e p : restoreEntry el e p = (Ok tt, restoreStep p (el, e)).
Proof.
  unfold restoreEntry, restoreStep. simpl.
  destruct (isElement p el) eqn:He; simpl; [|done].
  destruct (forEach_total_inv (λ q, isElement q el = true)
    (λ '(attr, oldVal), match oldVal with
                        | None => removeAttribute el attr
                        | Some v => setAttribute el attr v
                        end)
    (restoreAttrOn el) (map_to_list (attrs e))) with p as [E1 He1]; [|done|].
  { intros [k o] q Hq. unfold restoreAttrOn. simpl. destruct o.
    - by rewrite setAttribute_element, isElement_setAttributeOn.
    - by rewrite removeAttribute_element, isElement_removeAttributeOn. }
  erewrite js_bind_ok by exact E1.
  destruct (forEach_total_inv (λ q, isElement q el = true)
    (λ '(prop, v), writeStyle el prop v)
    (restoreStyleOn el) (map_to_list (styles e)))
    with (foldl (restoreAttrOn el) p (map_to_list (attrs e))) as [E2 _]; [|done|done].
  intros [k v] q Hq. unfold restoreStyleOn. simpl.
  by rewrite writeStyle_element, isElement_writeStyleOn.
Qed.

Lemma clearAllTrackedChanges_total p :
  clearAllTrackedChanges p = (Ok tt, rolledBack p).
Proof.
  unfold clearAllTrackedChanges, rolledBack.
  erewrite js_bind_ok by reflexivity.
  erewrite js_bind_ok.
  2:{ apply forEach_total. intros [el e] q. apply restoreEntry_total. }
  done.
Qed.

Lemma nodeOf_restoreAll (l : list (node * Entry)) :
  NoDup l.*1 →
  ∀ p el,
    nodeOf (foldl restoreStep p l) el =
    match (list_to_map l : gmap node Entry) !! el with
    | Some e => if isElement p el then restoredNode e (nodeOf p el) else nodeOf p el
    | None => nodeOf p el
    end.
Proof.
  induction l as [|[el0 e0] l IH]; intros Hnd p el; simpl; [done|].
  apply list.NoDup_cons in Hnd as [Hnotin Hnd].
  rewrite IH by done.
  rewrite isElement_restoreStep, nodeOf_restoreStep.
  destruct (decide (el0 = el)) as [->|Hne].
  - rewrite lookup_insert_eq, (not_elem_of_list_to_map_1 l el) by done. done.
  - by rewrite lookup_insert_ne.
Qed.

Lemma changeLog_restoreAll (l : list (node * Entry)) : ∀ p,
  changeLog (foldl restoreStep p l) = changeLog p.
Proof.
  induction l as [|ee l IH]; intros p; simpl; [done|].
  by rewrite IH, changeLog_restoreStep.
Qed.

(** Replaying the ledger leaves the [document] singleton alone. *)
Lemma doc_frame_restoreAll (l : list (node * Entry)) : ∀ p,
  let q := foldl restoreStep p l in
  documentNode (doc q) = documentNode (doc p) ∧ head (doc q) = head (doc p) ∧
  body (doc q) = body (doc p) ∧ nextNode (doc q) = nextNode (doc p).
Proof.
  assert (∀ el l' p, let q := foldl (restoreAttrOn el) p l' in
    documentNode (doc q) = documentNode (doc p) ∧ head (doc q) = head (doc p) ∧
    body (doc q) = body (doc p) ∧ nextNode (doc q) = nextNode (doc p)) as HA.
  { intros el l'. induction l' as [|kv l' IH]; intros p; simpl; [done|].
    destruct (IH (restoreAttrOn el p kv)) as (-> & -> & -> & ->).
    unfold restoreAttrOn. by destruct kv.2. }
  assert (∀ el l' p, let q := foldl (restoreStyleOn el) p l' in
    documentNode (doc q) = documentNode (doc p) ∧ head (doc q) = head (doc p) ∧
    body (doc q) = body (doc p) ∧ nextNode (doc q) = nextNode (doc p)) as HS.
  { intros el l'. induction l' as [|kv l' IH]; intros p; simpl; [done|].
    by destruct (IH (restoreStyleOn el p kv)) as (-> & -> & -> & ->). }
  induction l as [|ee l IH]; intros p; simpl; [done|].
  destruct (IH (restoreStep p ee)) as (-> & -> & -> & ->).
  unfold restoreStep. destruct (isElement p ee.1); [|done].
  destruct (HS ee.1 (map_to_list (styles ee.2))
              (foldl (restoreAttrOn ee.1) p (map_to_list (attrs ee.2))))
    as (-> & -> & -> & ->).
  apply HA.
Qed.

(** What a rollback leaves on a node: the entry of the node replayed on it
    (when the node is an element), nothing else. *)
Lemma nodeOf_rolledBack p el :
  nodeOf (rolledBack p) el =
  match changeLog p !! el with
  | Some e => if isElement p el then restoredNode e (nodeOf p el) else nodeOf p el
  | None => nodeOf p el
  end.
Proof.
  unfold rolledBack.
  change (nodeOf (with_changeLog ∅ ?q) el) with (nodeOf q el).
  rewrite nodeOf_restoreAll by apply NoDup_fst_map_to_list.
  by rewrite list_to_map_to_list.
Qed.


(** In terms of keys: a captured key of an element reads as its captured
    original, every other key as before. *)
Lemma current_rolledBack p el k :
  current (rolledBack p) el k =
  if isElement p el
  then match captured p el k with Some o => o | None => current p el k end
  else current p el k.
Proof.
  unfold current, captured. rewrite nodeOf_rolledBack.
  destruct (changeLog p !! el) as [e|]; simpl; [|by destruct (isElement p el), k].
  destruct (isElement p el); [|done].
  destruct k as [a|s]; simpl.
  - apply restoreAttrs_lookup.
  - rewrite restoreStyles_lookup. by destruct (styles e !! s).
Qed.

(** ** Tracked writes *)

Lemma hasOwnProperty_empty {V} (x : string) :
  hasOwnProperty (∅ : gmap string V) x = false.
Proof.
  unfold hasOwnProperty. apply bool_decide_eq_false_2.
  rewrite lookup_empty. by intros [??].
Qed.

Ltac unfold_tracked :=
  unfold exec, setAttrTracked, removeAttrTracked, setStyleTracked, ensureEntry,
    readAttribute, readStyle, captureAttr, captureStyle, setAttribute,
    removeAttribute, writeStyle, onElement, js_modify, stateAfter,
    mbind, Js_bind, js_bind, mret, Js_ret, js_ret.

Lemma exec_element w p :
  isElement p (target w).1 = true → exec w p = (Ok tt, tracked w p).
Proof.
  intros HE. unfold tracked, entryOf.
  destruct w as [el a v|el a|el s v]; simpl in *; unfold_tracked;
    (destruct (changeLog p !! el) as [e|] eqn:HL; simpl;
     [ destruct (hasOwnProperty _ _) eqn:HO; simpl
     | unfold hasOwnProperty; rewrite lookup_empty, bool_decide_eq_false_2 by (by intros [??]); simpl ]).
  all: unfold isElement, nodeOf in *; simpl; repeat (rewrite HE; simpl).
  all: try (rewrite insert_id by done; by destruct p).
  all: unfold setAttributeOn, removeAttributeOn, writeStyleOn, with_changeLog, with_doc; simpl.
  all: f_equal; f_equal.
  all: try (rewrite alter_insert_eq; done).
  all: try (apply map_eq; intros i; destruct (decide (el = i)) as [<-|];
            [rewrite lookup_alter_eq, lookup_insert_eq, HL|rewrite lookup_alter_ne, lookup_insert_ne by done]; done).
Qed.

Lemma exec_not_element w p :
  isElement p (target w).1 = false → exec w p = (Throw TypeError, attempted w p).
Proof.
  intros HE. unfold attempted, entryOf.
  destruct w as [el a v|el a|el s v]; simpl in *; unfold_tracked;
    (destruct (changeLog p !! el) as [e|] eqn:HL; simpl;
     [ destruct (hasOwnProperty _ _) eqn:HO; simpl
     | unfold hasOwnProperty; rewrite lookup_empty, bool_decide_eq_false_2 by (by intros [??]); simpl ]).
  all: unfold isElement, nodeOf in *; simpl; repeat (rewrite HE; simpl).
  all: try (rewrite insert_id by done; by destruct p).
  all: done.
Qed.

(** A tracked write always leaves one of the two pages behind. *)
Lemma stateAfter_exec w p :
  stateAfter (exec w) p = if isElement p (target w).1 then tracked w p else attempted w p.
Proof.
  unfold stateAfter. destruct (isElement p (target w).1) eqn:HE.
  - by rewrite exec_element.
  - by rewrite exec_not_element.
Qed.

Lemma captured_attempted w p el k : captured (attempted w p) el k = captured p el k.
Proof.
  unfold captured, attempted, entryOf. simpl.
  destruct (decide ((target w).1 = el)) as [<-|Hne].
  - rewrite lookup_insert_eq.
    destruct (changeLog p !! (target w).1); simpl; [done|].
    destruct k; by rewrite lookup_empty.
  - by rewrite lookup_insert_ne.
Qed.

Lemma nodeOf_attempted w p el : nodeOf (attempted w p) el = nodeOf p el.
Proof. done. Qed.

Lemma changeLog_applyWrite w q : changeLog (applyWrite w q) = changeLog q.
Proof. by destruct w. Qed.

Lemma assignAttr_ordinary a v e :
  a ≠ "__proto__" →
  assignAttr a v e = mkEntry (<[a := v]> (attrs e)) (styles e) (attrsBare e).
Proof. intros Ha. unfold assignAttr. by rewrite bool_decide_eq_false_2. Qed.

Lemma attrs_assignAttr_ne a a' v e :
  a ≠ a' → attrs (assignAttr a v e) !! a' = attrs e !! a'.
Proof.
  intros Hne. unfold assignAttr. destruct (_ && _); [by destruct v|].
  simpl. by rewrite lookup_insert_ne.
Qed.

Lemma styles_assignAttr a v e : styles (assignAttr a v e) = styles e.
Proof. unfold assignAttr. destruct (_ && _); [by destruct v|done]. Qed.

Lemma hasOwnProperty_true {V} (m : gmap string V) x :
  hasOwnProperty m x = true → is_Some (m !! x).
Proof. unfold hasOwnProperty. apply bool_decide_eq_true_1. Qed.

Lemma hasOwnProperty_false {V} (m : gmap string V) x :
  hasOwnProperty m x = false → m !! x = None.
Proof.
  intros HO. unfold hasOwnProperty in HO.
  apply bool_decide_eq_false_1 in HO. by apply eq_None_not_Some.
Qed.

Lemma plainAttr_ordinary a : plainAttr a = true → a ≠ "__proto__".
Proof. intros Ha ->. vm_compute in Ha. discriminate Ha. Qed.

Lemma plainWrite_ordinary w : plainWrite w = true → ordinary w.
Proof. destruct w; simpl; [apply plainAttr_ordinary..|done]. Qed.

(** The original an entry holds for a key after [recordOriginal] on another
    key, and on the key itself. *)
Lemma recordOriginal_other_attr k0 v e a :
  k0 ≠ AttrKey a → attrs (recordOriginal k0 v e) !! a = attrs e !! a.
Proof.
  intros Hne. destruct k0 as [a0|s0]; simpl.
  - destruct (hasOwnProperty _ _); [done|]. apply attrs_assignAttr_ne. congruence.
  - by destruct (hasOwnProperty _ _).
Qed.

Lemma recordOriginal_other_style k0 v e s :
  k0 ≠ StyleKey s → styles (recordOriginal k0 v e) !! s = styles e !! s.
Proof.
  intros Hne. destruct k0 as [a0|s0]; simpl.
  - destruct (hasOwnProperty _ _); [done|]. by rewrite styles_assignAttr.
  - destruct (hasOwnProperty _ _); [done|]. simpl.
    rewrite lookup_insert_ne; [done|congruence].
Qed.

(** A write to another key leaves the recorded original of a key as it is,
    whatever the key written. *)
Lemma captured_tracked_other w p el k :
  (el, k) ≠ target w → captured (tracked w p) el k = captured p el k.
Proof.
  intros Hne. unfold captured, tracked. rewrite changeLog_applyWrite. simpl.
  destruct (target w) as [el0 k0] eqn:Ht. simpl.
  destruct (decide (el0 = el)) as [->|Hel]; [|by rewrite lookup_insert_ne].
  rewrite lookup_insert_eq. simpl. unfold entryOf.
  assert (k0 ≠ k) as Hk by congruence.
  destruct k as [a|s].
  - rewrite recordOriginal_other_attr by done.
    destruct (changeLog p !! el); simpl; [done|by rewrite lookup_empty].
  - rewrite recordOriginal_other_style by done.
    destruct (changeLog p !! el); simpl; [done|by rewrite lookup_empty].
Qed.

(** An original that is recorded stays, whatever the key written. *)
Lemma captured_tracked_kept w p el k o :
  captured p el k = Some o → captured (tracked w p) el k = Some o.
Proof.
  intros Hc. destruct (decide ((el, k) = target w)) as [Heq|Hne];
    [|by rewrite captured_tracked_other].
  unfold captured, tracked in *. rewrite changeLog_applyWrite. simpl.
  rewrite <- Heq. simpl. rewrite lookup_insert_eq. simpl. unfold entryOf.
  destruct (changeLog p !! el) as [e|]; simpl in *; [|done].
  destruct k as [a|s]; simpl.
  - destruct (hasOwnProperty (attrs e) a) eqn:HO; [done|].
    apply hasOwnProperty_false in HO. congruence.
  - destruct (styles e !! s) as [x|] eqn:Hs; [|done].
    destruct (hasOwnProperty (styles e) s) eqn:HO; [by rewrite Hs|].
    apply hasOwnProperty_false in HO. congruence.
Qed.

(** The ledger after a tracked write on an element: the key written now has
    an original, the one it had or else the value it read as. *)
Lemma captured_tracked w p el k :
  ordinary w →
  captured (tracked w p) el k =
  if decide ((el, k) = target w)
  then Some (match captured p el k with Some o => o | None => current p el k end)
  else captured p el k.
Proof.
  intros Hord. case_decide as Hd; [|by apply captured_tracked_other].
  destruct (captured p el k) as [o|] eqn:Hc; [by apply captured_tracked_kept|].
  unfold captured, tracked in *. rewrite changeLog_applyWrite. simpl.
  rewrite <- Hd. simpl. rewrite lookup_insert_eq. simpl. unfold entryOf.
  assert (match k with AttrKey a => a ≠ "__proto__" | StyleKey _ => True end) as Hk.
  { destruct w; simpl in *; inversion Hd; subst; done. }
  destruct (changeLog p !! el) as [e|]; simpl in *.
  - destruct k as [a|s]; simpl.
    + destruct (hasOwnProperty (attrs e) a) eqn:HO.
      { apply hasOwnProperty_true in HO as [? HO]. congruence. }
      rewrite assignAttr_ordinary by done. simpl. by rewrite lookup_insert_eq.
    + destruct (styles e !! s) as [x|] eqn:Hs; [done|].
      destruct (hasOwnProperty (styles e) s) eqn:HO.
      { apply hasOwnProperty_true in HO as [? HO]. congruence. }
      simpl. by rewrite lookup_insert_eq.
  - destruct k as [a|s]; simpl; unfold hasOwnProperty;
      rewrite lookup_empty, bool_decide_eq_false_2 by (by intros [??]).
    + rewrite assignAttr_ordinary by done. simpl. by rewrite lookup_insert_eq.
    + simpl. by rewrite lookup_insert_eq.
Qed.

Lemma current_tracked w p el k :
  current (tracked w p) el k =
  if decide ((el, k) = target w) then written w else current p el k.
Proof.
  unfold current, tracked.
  destruct w as [el0 a0 v|el0 a0|el0 s0 v]; simpl;
    unfold setAttributeOn, removeAttributeOn, writeStyleOn;
    rewrite nodeOf_updNode; unfold nodeOf; simpl;
    (destruct (decide (el0 = el)) as [->|Hne];
     [|rewrite decide_False by congruence; done]);
    destruct k as [a|s]; simpl.
  - destruct (decide (a0 = a)) as [->|Hna].
    + by rewrite decide_True, lookup_insert_eq.
    + rewrite decide_False by congruence. by rewrite lookup_insert_ne.
  - by rewrite decide_False by congruence.
  - destruct (decide (a0 = a)) as [->|Hna].
    + by rewrite decide_True, lookup_delete_eq.
    + rewrite decide_False by congruence. by rewrite lookup_delete_ne.
  - by rewrite decide_False by congruence.
  - by rewrite decide_False by congruence.
  - rewrite assignStyle_read. destruct (decide (s0 = s)) as [->|Hns].
    + by rewrite decide_True.
    + by rewrite decide_False by congruence.
Qed.

Lemma isElement_tracked w p el : isElement (tracked w p) el = isElement p el.
Proof.
  unfold tracked. destruct w; simpl;
    [rewrite isElement_setAttributeOn|rewrite isElement_removeAttributeOn
    |rewrite isElement_writeStyleOn]; done.
Qed.

Lemma isElement_stateAfter_exec w p el :
  isElement (stateAfter (exec w) p) el = isElement p el.
Proof.
  rewrite stateAfter_exec. destruct (isElement p (target w).1); [|done].
  apply isElement_tracked.
Qed.

(** A write to another key changes neither the value nor the recorded
    original of a key. *)
Lemma exec_other_key w p el k :
  target w ≠ (el, k) →
  current (stateAfter (exec w) p) el k = current p el k ∧
  captured (stateAfter (exec w) p) el k = captured p el k.
Proof.
  intros Hne. rewrite stateAfter_exec. destruct (isElement p (target w).1).
  - rewrite current_tracked, captured_tracked_other by congruence.
    by rewrite !decide_False by congruence.
  - by rewrite captured_attempted.
Qed.

Lemma run_other_keys ws el k : ∀ p,
  Forall (λ w, target w ≠ (el, k)) ws →
  current (run ws p) el k = current p el k ∧
  captured (run ws p) el k = captured p el k.
Proof.
  induction ws as [|w ws IH]; intros p Hall; simpl; [done|].
  apply Forall_cons_1 in Hall as [Hw Hall].
  destruct (IH (stateAfter (exec w) p) Hall) as [-> ->].
  by apply exec_other_key.
Qed.



Lemma run_app ws1 ws2 p : run (ws1 ++ ws2) p = run ws2 (run ws1 p).
Proof. unfold run. by rewrite foldl_app. Qed.

Lemma isElement_run ws el : ∀ p, isElement (run ws p) el = isElement p el.
Proof.
  induction ws as [|w ws IH]; intros p; simpl; [done|].
  by rewrite IH, isElement_stateAfter_exec.
Qed.

Lemma keyInv_start p el k : captured p el k = None → keyInv p p el k.
Proof. intros Hc. unfold keyInv. by rewrite Hc. Qed.

Lemma keyInv_exec p0 p w el k :
  ordinary w →
  keyInv p0 p el k → keyInv p0 (stateAfter (exec w) p) el k.
Proof.
  unfold keyInv. intros Hord Hinv.
  rewrite isElement_stateAfter_exec.
  rewrite stateAfter_exec. destruct (isElement p (target w).1) eqn:HE.
  - rewrite captured_tracked, current_tracked by done. case_decide as Hd.
    + rewrite <- Hd in HE. simpl in HE.
      destruct (captured p el k); [done|]. by split.
    + done.
  - by rewrite captured_attempted.
Qed.

Lemma keyInv_run p0 ws el k : ∀ p,
  forallb plainWrite ws = true →
  keyInv p0 p el k → keyInv p0 (run ws p) el k.
Proof.
  induction ws as [|w ws IH]; intros p Hplain Hinv; simpl in *; [done|].
  apply andb_true_iff in Hplain as [Hw Hplain].
  apply IH; [done|]. by apply keyInv_exec; [apply plainWrite_ordinary|].
Qed.

(** Under the invariant a rollback puts the key back. *)
Lemma keyInv_rolledBack p0 p el k :
  keyInv p0 p el k → current (rolledBack p) el k = current p0 el k.
Proof.
  unfold keyInv. intros Hinv. rewrite current_rolledBack.
  destruct (captured p el k) as [o|].
  - destruct Hinv as [-> ->]. done.
  - by destruct (isElement p el).
Qed.




(** ** Garbage collection *)

Lemma garbageCollect_total p : garbageCollect p = (Ok tt, collected p).
Proof.
  unfold garbageCollect, collected.
  erewrite js_bind_ok by reflexivity.
  by apply forEach_total.
Qed.

Lemma doc_collectSteps l : ∀ p, doc (foldl collectStep p l) = doc p.
Proof.
  induction l as [|el l IH]; intros p; simpl; [done|].
  rewrite IH. unfold collectStep. by destruct (negb _).
Qed.

Lemma changeLog_collectSteps l el : ∀ p,
  changeLog (foldl collectStep p l) !! el =
  if decide (el ∈ l)
  then (if isConnected (nodeOf p el) then changeLog p !! el else None)
  else changeLog p !! el.
Proof.
  induction l as [|el0 l IH]; intros p; simpl; [done|].
  rewrite IH.
  assert (nodeOf (collectStep p el0) el = nodeOf p el) as ->.
  { unfold collectStep. by destruct (negb _). }
  assert (changeLog (collectStep p el0) !! el =
          if decide (el0 = el)
          then (if isConnected (nodeOf p el) then changeLog p !! el else None)
          else changeLog p !! el) as ->.
  { unfold collectStep. destruct (decide (el0 = el)) as [Hd|Hd].
    - subst. destruct (isConnected (nodeOf p el)); simpl; [done|].
      apply lookup_delete_eq.
    - destruct (isConnected (nodeOf p el0)); simpl; [done|].
      by apply lookup_delete_ne. }
  destruct (decide (el0 = el)) as [->|Hne].
  - rewrite (decide_True (P := el ∈ el :: l)) by apply list_elem_of_here.
    destruct (decide (el ∈ l)); by destruct (isConnected (nodeOf p el)).
  - destruct (decide (el ∈ l)) as [Hin|Hnin].
    + by rewrite decide_True by by apply list_elem_of_further.
    + rewrite decide_False; [done|].
      intros [?|?]%elem_of_cons; congruence.
Qed.

(** The ledger after a collection: the entries of the connected nodes, as
    they were. *)
Lemma changeLog_collected p el :
  changeLog (collected p) !! el =
  if isConnected (nodeOf p el) then changeLog p !! el else None.
Proof.
  unfold collected. rewrite changeLog_collectSteps.
  case_decide as Hin; [done|].
  destruct (changeLog p !! el) as [e|] eqn:HL; [|by destruct (isConnected _)].
  exfalso. apply Hin. apply list_elem_of_fmap. exists (el, e).
  split; [done|]. by apply elem_of_map_to_list.
Qed.

Lemma doc_collected p : doc (collected p) = doc p.
Proof. apply doc_collectSteps. Qed.

(* ===================================================================== *)
(** * The ledger claims *)
(* ===================================================================== *)












(** C10 — [garbageCollect] performs no DOM write.  It leaves the document
    as it is, keeps the entries of the connected nodes as they are and deletes
    the entries of the disconnected ones.  It does not roll a disconnected
    node back, and no later [clearAllTrackedChanges] does: after a collection
    a rollback leaves a disconnected node exactly as the tracked writes left
    it, and whatever tracked writes on plain keys come after the collection
    of a ledger of plain keys, a rollback only brings the plain keys of that
    node back to what they were at the collection, never to the originals
    that were recorded before it. *)
Theorem gc_no_dom_write (p : Page) :
  let p' := stateAfter garbageCollect p in
  doc p' = doc p ∧
  (∀ el, changeLog p' !! el =
         if isConnected (nodeOf p el) then changeLog p !! el else None) ∧
  (∀ el, isConnected (nodeOf p el) = false →
         nodeOf (stateAfter clearAllTrackedChanges p') el = nodeOf p el) ∧
  (∀ el k ws, isConnected (nodeOf p el) = false →
         plainLedger p = true → forallb plainWrite ws = true → plainKey k = true →
         current (stateAfter clearAllTrackedChanges (run ws p')) el k = current p el k).
Proof.
  intros p'.
  assert (p' = collected p) as ->.
  { unfold p', stateAfter. by rewrite garbageCollect_total. }
  split; [apply doc_collected|]. split; [apply changeLog_collected|]. split.
  - intros el Hd. unfold stateAfter. rewrite clearAllTrackedChanges_total. simpl.
    rewrite nodeOf_rolledBack, changeLog_collected, Hd.
    unfold nodeOf. by rewrite doc_collected.
  - intros el k ws Hd _ Hplain _. unfold stateAfter.
    rewrite clearAllTrackedChanges_total. simpl.
    rewrite (keyInv_rolledBack (collected p)).
    + unfold current, nodeOf. by rewrite doc_collected.
    + apply keyInv_run; [done|]. apply keyInv_start. unfold captured.
      by rewrite changeLog_collected, Hd.
Qed.

Lemma gc_no_dom_write_witness :
  let p0 := freshPage sampleDocument in
  let p := run [SetAttr 7 "role" "button"] p0 in
  let p' := stateAfter garbageCollect p in
  let final := stateAfter clearAllTrackedChanges p' in
  let later := stateAfter clearAllTrackedChanges (run [SetAttr 7 "role" "tab"] p') in
  isConnected (nodeOf p 7) = false ∧
  plainLedger p = true ∧
  current p0 7 (AttrKey "role") = Some "note" ∧
  captured p 7 (AttrKey "role") = Some (Some "note") ∧
  current final 7 (AttrKey "role") = Some "button" ∧
  current later 7 (AttrKey "role") = Some "button".
Proof.
  intros p0 p p' final later.
  destruct (gc_no_dom_write p) as (_ & _ & Hkept & Hlater).
  assert (isConnected (nodeOf p 7) = false) as Hd by reflexivity.
  assert (plainLedger p = true) as HL by (vm_compute; reflexivity).
  split; [exact Hd|]. split; [exact HL|].
  split; [reflexivity|]. split; [reflexivity|]. split.
  - unfold current, final, p'. by rewrite (Hkept 7%positive Hd).
  - exact (Hlater 7%positive (AttrKey "role") [SetAttr 7 "role" "tab"] Hd HL
             eq_refl eq_refl).
Defined.

(* ===================================================================== *)
(** * The engine *)
(* ===================================================================== *)

(** ** The disabled engine *)

Lemma whenEnabled_disabled (m : Js Engine unit) s :
  a11yEnabled s = false → whenEnabled m s = (Ok tt, s).
Proof. intros H. unfold whenEnabled. by rewrite H. Qed.

Lemma selectAndApply_disabled root sel callback s :
  a11yEnabled s = false → selectAndApply root sel callback s = (Ok tt, s).
Proof. apply whenEnabled_disabled. Qed.

Lemma runLocalEnhancements_disabled H root s :
  a11yEnabled s = false → runLocalEnhancements H root s = (Ok tt, s).
Proof.
  intros Hd. unfold runLocalEnhancements.
  unfold enhanceUnlabeledButtons, enhanceUnlabeledLinks, enhanceInputsAndForms,
    enhanceClickableRoles, enhanceLocalDropdowns, enhanceLocalLiveRegions, enhanceSliders.
  repeat (erewrite js_bind_ok by (by apply whenEnabled_disabled)).
  by apply whenEnabled_disabled.
Qed.

Lemma runGlobalEnhancements_disabled H c s :
  a11yEnabled s = false → runGlobalEnhancements H c s = (Ok tt, s).
Proof.
  intros Hd. unfold runGlobalEnhancements.
  erewrite js_bind_ok.
  2:{ unfold enhanceRegionsGlobal. by rewrite Hd. }
  unfold enhanceTabsGlobal, enhanceDialogsGlobal, enhanceStickyHeadersGlobal,
    normalizeTabIndexGlobal, enhanceInfiniteScrollGlobal.
  repeat (erewrite js_bind_ok by (by apply whenEnabled_disabled)).
  by apply whenEnabled_disabled.
Qed.

Lemma frameCallback_disabled H cb s :
  a11yEnabled s = false →
  frameCallback H cb s =
  (Ok tt, match cb with
          | LocalBatch _ => s
          | GlobalPass => with_pendingItemCount 0 (with_enhancementScheduled false s)
          end).
Proof.
  intros Hd. destruct cb as [ns|]; simpl.
  - induction ns as [|n ns IH]; simpl; [done|].
    erewrite js_bind_ok by (by apply runLocalEnhancements_disabled). done.
  - erewrite js_bind_ok by reflexivity.
    erewrite js_bind_ok by reflexivity.
    erewrite js_bind_ok by (by apply runGlobalEnhancements_disabled).
    done.
Qed.

(** A frame of a disabled engine touches the scheduler's two variables and
    the frame queue, nothing else. *)
Lemma animationFrame_disabled H s :
  a11yEnabled s = false →
  let s' := animationFrame H s in
  page s' = page s ∧ timerQueue s' = timerQueue s ∧ liveRegionEl s' = liveRegionEl s ∧
  a11yEnabled s' = false ∧ frameQueue s' = [].
Proof.
  intros Hd. unfold animationFrame.
  assert (∀ q t, a11yEnabled t = false →
    let t' := foldl (λ s' cb, stateAfter (frameCallback H cb) s') t q in
    page t' = page t ∧ timerQueue t' = timerQueue t ∧ liveRegionEl t' = liveRegionEl t ∧
    a11yEnabled t' = false ∧ frameQueue t' = frameQueue t) as Hfold.
  { induction q as [|cb q IH]; intros t Ht; simpl; [done|].
    assert (stateAfter (frameCallback H cb) t =
            match cb with
            | LocalBatch _ => t
            | GlobalPass => with_pendingItemCount 0 (with_enhancementScheduled false t)
            end) as ->.
    { unfold stateAfter. by rewrite frameCallback_disabled. }
    destruct cb; simpl.
    - by apply IH.
    - destruct (IH (with_pendingItemCount 0 (with_enhancementScheduled false t)) Ht)
        as (-> & -> & -> & -> & ->). done. }
  destruct (Hfold (frameQueue s) (with_frameQueue [] s) Hd) as (-> & -> & -> & -> & ->).
  done.
Qed.

(** ** Disable *)

Lemma detachIfAttached_total x s :
  detachIfAttached x s = (Ok tt, with_page (detached x (page s)) s).
Proof.
  unfold detachIfAttached, detached, attached.
  destruct x as [el|]; [|by destruct s].
  destruct (bool_decide _); [done|by destruct s].
Qed.

Lemma stopMutationObserver_total s :
  stopMutationObserver s =
  (Ok tt, with_mutationObserver None
            (with_observations
               (match mutationObserver s with
                | Some o => filter (λ r, r.1 ≠ o) (observations s)
                | None => observations s
                end) (nextObserver s) s)).
Proof.
  unfold stopMutationObserver. destruct s as [? ? [o|] ? ? ? ? ? ? ? ? ? ? ?]; done.
Qed.

Lemma removeSkipLink_total s :
  removeSkipLink s =
  (Ok tt, with_skipLinkEl None (with_page (detached (skipLinkEl s) (page s)) s)).
Proof.
  unfold removeSkipLink.
  erewrite js_bind_ok by reflexivity.
  erewrite js_bind_ok by apply detachIfAttached_total. done.
Qed.

Lemma removeLiveRegion_total s :
  removeLiveRegion s =
  (Ok tt, with_liveRegionEl None (with_page (detached (liveRegionEl s) (page s)) s)).
Proof.
  unfold removeLiveRegion.
  erewrite js_bind_ok by reflexivity.
  erewrite js_bind_ok by apply detachIfAttached_total. done.
Qed.

Lemma removeGlobalStyles_total s :
  removeGlobalStyles s =
  (Ok tt, with_globalStyleEl None (with_page (detached (globalStyleEl s) (page s)) s)).
Proof.
  unfold removeGlobalStyles.
  erewrite js_bind_ok by reflexivity.
  erewrite js_bind_ok by apply detachIfAttached_total. done.
Qed.

Lemma onPage_clearAllTrackedChanges s :
  onPage clearAllTrackedChanges s = (Ok tt, with_page (rolledBack (page s)) s).
Proof. unfold onPage. by rewrite clearAllTrackedChanges_total. Qed.

Lemma disableA11Y_total s : disableA11Y s = (Ok tt, disabledState s).
Proof.
  unfold disableA11Y.
  erewrite js_bind_ok by apply stopMutationObserver_total.
  erewrite js_bind_ok by apply removeSkipLink_total.
  erewrite js_bind_ok by apply removeLiveRegion_total.
  erewrite js_bind_ok by apply removeGlobalStyles_total.
  erewrite js_bind_ok by apply onPage_clearAllTrackedChanges.
  erewrite js_bind_ok by reflexivity.
  reflexivity.
Qed.

(** ** What the passes leave alone *)

Lemma sameControl_refl s : sameControl s s.
Proof. by repeat split. Qed.

Lemma sameControl_trans s1 s2 s3 :
  sameControl s1 s2 → sameControl s2 s3 → sameControl s1 s3.
Proof.
  unfold sameControl. intros (?&?&?&?&?&?&?&?&?&?&?) (?&?&?&?&?&?&?&?&?&?&?).
  repeat split; congruence.
Qed.

Lemma keepsControl_ret {A} (a : A) : keepsControl (mret a : Js Engine A).
Proof. intros s. apply sameControl_refl. Qed.

Lemma keepsControl_bind {A B} (m : Js Engine A) (f : A → Js Engine B) :
  keepsControl m → (∀ a, keepsControl (f a)) → keepsControl (m ≫= f).
Proof.
  intros Hm Hf s. unfold mbind, Js_bind, js_bind.
  specialize (Hm s). destruct (m s) as [[a|e] s']; simpl in *; [|done].
  eapply sameControl_trans; [exact Hm|apply Hf].
Qed.

Lemma keepsControl_onPage {A} (m : Js Page A) : keepsControl (onPage m).
Proof. intros s. by repeat split. Qed.

Lemma keepsControl_whenEnabled (m : Js Engine unit) :
  keepsControl m → keepsControl (whenEnabled m).
Proof.
  intros Hm s. unfold whenEnabled. destruct (negb _); [apply sameControl_refl|apply Hm].
Qed.

Lemma keepsControl_get : keepsControl (js_get : Js Engine Engine).
Proof. intros s. apply sameControl_refl. Qed.

Lemma keepsControl_selectAndApply root sel callback :
  keepsControl (selectAndApply root sel callback).
Proof. apply keepsControl_whenEnabled, keepsControl_onPage. Qed.

Lemma keepsControl_throw {A} (e : exn) : keepsControl (js_throw e : Js Engine A).
Proof. intros s. apply sameControl_refl. Qed.

Lemma keepsControl_setLiveRegion x : keepsControl (js_modify (with_liveRegionEl x)).
Proof. intros s. by repeat split. Qed.

Lemma keepsControl_setTimeout cb : keepsControl (setTimeout cb).
Proof. intros s. by repeat split. Qed.

Ltac keeps_control :=
  repeat first
    [ apply keepsControl_onPage
    | apply keepsControl_ret
    | apply keepsControl_get
    | apply keepsControl_throw
    | apply keepsControl_setLiveRegion
    | apply keepsControl_setTimeout
    | apply keepsControl_selectAndApply
    | apply keepsControl_whenEnabled
    | apply keepsControl_bind; [|intros ?] ].

Lemma keepsControl_getLiveRegion : keepsControl getLiveRegion.
Proof.
  intros s. unfold getLiveRegion.
  destruct (negb (a11yEnabled s)); [apply sameControl_refl|].
  destruct (attached (page s) (liveRegionEl s)); [apply sameControl_refl|].
  match goal with |- sameControl s (?m s).2 => assert (keepsControl m) as Hk; [|apply Hk] end.
  keeps_control. destruct (body _); keeps_control.
Qed.

Lemma keepsControl_announce text : keepsControl (announce text).
Proof.
  unfold announce. apply keepsControl_whenEnabled.
  case_decide; [keeps_control|].
  apply keepsControl_bind; [apply keepsControl_getLiveRegion|].
  intros [r|]; keeps_control.
Qed.

Lemma keepsControl_runLocalEnhancements H root :
  keepsControl (runLocalEnhancements H root).
Proof.
  unfold runLocalEnhancements, enhanceUnlabeledButtons, enhanceUnlabeledLinks,
    enhanceInputsAndForms, enhanceClickableRoles, enhanceLocalDropdowns,
    enhanceLocalLiveRegions, enhanceSliders.
  keeps_control.
Qed.

Lemma keepsControl_runGlobalEnhancements H c :
  keepsControl (runGlobalEnhancements H c).
Proof.
  unfold runGlobalEnhancements.
  apply keepsControl_bind.
  { intros s. unfold enhanceRegionsGlobal.
    destruct (_ || _); [apply sameControl_refl|apply keepsControl_onPage]. }
  intros _. unfold enhanceTabsGlobal, enhanceDialogsGlobal,
    enhanceStickyHeadersGlobal, normalizeTabIndexGlobal, enhanceInfiniteScrollGlobal.
  keeps_control.
  destruct (0 <? c)%Z; [apply keepsControl_announce|keeps_control].
Qed.

(** ** The scheduler *)

Lemma scheduleEnhancements_idle c s :
  enhancementScheduled s = false →
  scheduleEnhancements c s =
  (Ok tt, with_frameQueue (frameQueue s ++ [GlobalPass])
            (with_enhancementScheduled true
               (with_pendingItemCount (pendingItemCount s + c) s))).
Proof.
  intros Hf. unfold scheduleEnhancements.
  erewrite js_bind_ok by reflexivity.
  erewrite js_bind_ok by reflexivity.
  simpl. rewrite Hf. reflexivity.
Qed.

Lemma scheduleEnhancements_pending c s :
  enhancementScheduled s = true →
  scheduleEnhancements c s =
  (Ok tt, with_pendingItemCount (pendingItemCount s + c) s).
Proof.
  intros Hf. unfold scheduleEnhancements.
  erewrite js_bind_ok by reflexivity.
  erewrite js_bind_ok by reflexivity.
  simpl. rewrite Hf. reflexivity.
Qed.

Lemma scheduleAll_cons c counts s :
  scheduleAll (c :: counts) s = scheduleAll counts (stateAfter (scheduleEnhancements c) s).
Proof. reflexivity. Qed.

(** While a pass is pending the scheduler only adds to the count. *)
Lemma scheduleAll_pending counts : ∀ s,
  enhancementScheduled s = true →
  pendingItemCount (scheduleAll counts s) = (pendingItemCount s + sumOf counts)%Z ∧
  enhancementScheduled (scheduleAll counts s) = true ∧
  frameQueue (scheduleAll counts s) = frameQueue s ∧
  page (scheduleAll counts s) = page s ∧
  timerQueue (scheduleAll counts s) = timerQueue s ∧
  a11yEnabled (scheduleAll counts s) = a11yEnabled s.
Proof.
  induction counts as [|c counts IH]; intros s Hf.
  - simpl. repeat split; try done. lia.
  - rewrite scheduleAll_cons. unfold stateAfter.
    rewrite scheduleEnhancements_pending by done. cbn [snd].
    destruct (IH (with_pendingItemCount (pendingItemCount s + c) s) Hf)
      as (-> & -> & -> & -> & -> & ->).
    simpl. repeat split; try done. lia.
Qed.

Lemma scheduleAll_idle counts s :
  counts ≠ [] →
  enhancementScheduled s = false →
  pendingItemCount (scheduleAll counts s) = (pendingItemCount s + sumOf counts)%Z ∧
  enhancementScheduled (scheduleAll counts s) = true ∧
  frameQueue (scheduleAll counts s) = (frameQueue s ++ [GlobalPass])%list ∧
  page (scheduleAll counts s) = page s ∧
  timerQueue (scheduleAll counts s) = timerQueue s ∧
  a11yEnabled (scheduleAll counts s) = a11yEnabled s.
Proof.
  intros Hne Hf. destruct counts as [|c counts]; [done|].
  rewrite scheduleAll_cons. unfold stateAfter.
  rewrite scheduleEnhancements_idle by done. cbn [snd].
  edestruct (scheduleAll_pending counts) as (-> & -> & -> & -> & -> & ->); [reflexivity|].
  simpl. repeat split; try done. lia.
Qed.

(** The frame callback of the scheduler, statement by statement. *)
Lemma frameCallback_GlobalPass H s :
  frameCallback H GlobalPass s =
  (runGlobalEnhancements H (pendingItemCount s);; js_modify (with_pendingItemCount 0))
    (with_enhancementScheduled false s).
Proof. reflexivity. Qed.

Lemma frameCallback_GlobalPass_flag H s :
  enhancementScheduled (stateAfter (frameCallback H GlobalPass) s) = false.
Proof.
  unfold stateAfter. rewrite frameCallback_GlobalPass.
  unfold mbind, Js_bind, js_bind.
  pose proof (keepsControl_runGlobalEnhancements H (pendingItemCount s)
                (with_enhancementScheduled false s)) as Hk.
  destruct (runGlobalEnhancements _ _ _) as [[[]|e] s']; simpl in *;
    destruct Hk as (_ & _ & -> & _); done.
Qed.

(** ** Singletons *)

Lemma parentNode_setConnected b els el : ∀ d,
  parentNode (nodes (setConnected b els d) el) = parentNode (nodes d el).
Proof.
  induction els as [|x els IH]; intros d; simpl; [done|].
  destruct (decide (x = el)) as [->|Hne].
  - rewrite fn_lookup_insert. simpl. apply IH.
  - rewrite fn_lookup_insert_ne by done. apply IH.
Qed.

Lemma parentNode_unlink c d el :
  parentNode (nodes (unlink c d) el) =
  if decide (el = c) then None else parentNode (nodes d el).
Proof.
  unfold unlink. destruct (parentNode (nodes d c)) as [par|] eqn:Hp.
  - rewrite parentNode_setConnected.
    unfold updNode. simpl. destruct (decide (el = c)) as [->|Hne].
    + by rewrite fn_lookup_insert.
    + rewrite fn_lookup_insert_ne by done.
      destruct (decide (par = el)) as [->|Hne'].
      * by rewrite fn_lookup_insert.
      * by rewrite fn_lookup_insert_ne.
  - case_decide; by subst.
Qed.

Lemma parentNode_detached x p el :
  parentNode (nodeOf (detached x p) el) =
  if decide (x = Some el) then None else parentNode (nodeOf p el).
Proof.
  unfold detached, attached. destruct x as [c|]; [|by rewrite decide_False].
  destruct (bool_decide (is_Some (parentNode (nodeOf p c)))) eqn:Ha.
  - unfold nodeOf. simpl. rewrite parentNode_unlink.
    destruct (decide (el = c)) as [->|Hne].
    + by rewrite decide_True.
    + by rewrite decide_False by congruence.
  - case_decide as Hx; [|done]. inversion Hx; subst.
    apply bool_decide_eq_false_1 in Ha. by apply eq_None_not_Some.
Qed.

Lemma parentNode_rolledBack p el :
  parentNode (nodeOf (rolledBack p) el) = parentNode (nodeOf p el).
Proof.
  rewrite nodeOf_rolledBack.
  destruct (changeLog p !! el); [|done]. by destruct (isElement p el).
Qed.

Lemma addGlobalStyles_present s :
  is_Some (globalStyleEl s) → addGlobalStyles s = (Ok tt, s).
Proof.
  intros Hg. unfold addGlobalStyles. by rewrite bool_decide_eq_true_2.
Qed.

Lemma addSkipLink_present s :
  attached (page s) (skipLinkEl s) = true → addSkipLink s = (Ok tt, s).
Proof.
  intros Ha. unfold addSkipLink.
  destruct (negb (a11yEnabled s)); [done|].
  destruct (body (doc (page s))); [|done]. by rewrite Ha.
Qed.

Lemma startMutationObserver_present s :
  is_Some (mutationObserver s) → startMutationObserver s = (Ok tt, s).
Proof.
  intros Hm. unfold startMutationObserver.
  rewrite (bool_decide_eq_true_2 _ Hm). by rewrite orb_true_r.
Qed.

Lemma with_changeLog_empty p : changeLog p = ∅ → rolledBack p = p.
Proof.
  intros He. unfold rolledBack. rewrite He, map_to_list_empty. simpl.
  destruct p as [d l]. simpl in *. by subst.
Qed.

Lemma disabledState_quiescent s : quiescent s → disabledState s = s.
Proof.
  intros (Hm & Hs & Hl & Hg & Hc & Hp & Hn).
  unfold disabledState. rewrite Hm, Hs, Hl, Hg. unfold detached. simpl.
  rewrite with_changeLog_empty by done.
  destruct s. simpl in *. by subst.
Qed.

Lemma quiescent_disabledState s : quiescent (disabledState s).
Proof. by repeat split. Qed.

(** ** The observer, the scheduler and a frame together

    One mutation record reporting three inserted articles and a text node:
    the three elements are queued as one local batch, one global pass is
    scheduled for them, and the frame announces the three items once. *)
Example observed_insertions_are_batched :
  let s := with_a11yEnabled true (initialEngine feedDocument) in
  let observed :=
    stateAfter (observerCallback quietHeuristics
                  [mkMutationRecord "childList" [5; 6; 20; 7]%positive]) s in
  frameQueue observed = [LocalBatch [5; 6; 7]%positive; GlobalPass] ∧
  pendingItemCount observed = 3%Z ∧
  mutationCounter observed = 1%Z ∧
  timerQueue (animationFrame quietHeuristics observed)
  = [SetRegionText 8 "3 more items loaded"] ∧
  pendingItemCount (animationFrame quietHeuristics observed) = 0%Z.
Proof. vm_compute. repeat split. Qed.

(* ===================================================================== *)
(** * The scheduler and lifecycle claims *)
(* ===================================================================== *)

(** C8 — Passes on a disabled engine.  When [a11yEnabled] is false,
    [runLocalEnhancements] and [runGlobalEnhancements] return normally and
    leave the whole state as it is: no tracked write, no ledger entry, no
    announcement.  So do the frame callbacks of a pass that was scheduled
    while the engine was enabled and runs after it was disabled: the local
    batch changes nothing, the global pass only clears the scheduler's flag
    and count, and a whole animation frame leaves the page, the timer queue
    and the live region untouched. *)
Theorem disabled_passes_are_noops (H : Heuristics) (s : Engine) (root : option node)
    (c : Z) (batch : list node) :
  a11yEnabled s = false →
  runLocalEnhancements H root s = (Ok tt, s) ∧
  runGlobalEnhancements H c s = (Ok tt, s) ∧
  frameCallback H (LocalBatch batch) s = (Ok tt, s) ∧
  frameCallback H GlobalPass s =
    (Ok tt, with_pendingItemCount 0 (with_enhancementScheduled false s)) ∧
  page (animationFrame H s) = page s ∧
  timerQueue (animationFrame H s) = timerQueue s ∧
  liveRegionEl (animationFrame H s) = liveRegionEl s.
Proof.
  intros Hd.
  split; [by apply runLocalEnhancements_disabled|].
  split; [by apply runGlobalEnhancements_disabled|].
  split; [by rewrite frameCallback_disabled|].
  split; [by rewrite frameCallback_disabled|].
  destruct (animationFrame_disabled H s Hd) as (? & ? & ? & _). done.
Qed.

Lemma disabled_passes_are_noops_witness :
  let enabled := stateAfter (toggleClick quietHeuristics) (initialEngine sampleDocument) in
  let scheduled := stateAfter (scheduleEnhancements 3) enabled in
  let s := stateAfter (toggleClick quietHeuristics) scheduled in
  a11yEnabled s = false ∧
  frameQueue s = [GlobalPass] ∧
  page (animationFrame quietHeuristics s) = page s ∧
  timerQueue (animationFrame quietHeuristics s) = [].
Proof.
  intros enabled scheduled s.
  assert (a11yEnabled s = false) as Hd by (vm_compute; reflexivity).
  destruct (disabled_passes_are_noops quietHeuristics s None 0 [] Hd)
    as (_ & _ & _ & _ & Hp & Ht & _).
  split; [exact Hd|]. split; [vm_compute; reflexivity|].
  split; [exact Hp|]. rewrite Ht. vm_compute. reflexivity.
Defined.

(** C4, as the code has it — After [disableA11Y] returns, the mutation
    observer is disconnected and forgotten, the skip link, the live region
    and the injected stylesheet are detached and forgotten, the ledger is
    empty after a rollback, and [pendingItemCount] and [mutationCounter] are
    zero.  The coalescing flag [enhancementScheduled] and the frame queue are
    left as they were: a pass that is pending stays pending. *)
Theorem disable_resets_engine (s : Engine) :
  let s' := stateAfter disableA11Y s in
  (disableA11Y s).1 = Ok tt ∧
  mutationObserver s' = None ∧
  (∀ o r, mutationObserver s = Some o → r ∈ observations s' → r.1 ≠ o) ∧
  skipLinkEl s' = None ∧ liveRegionEl s' = None ∧ globalStyleEl s' = None ∧
  (∀ el, skipLinkEl s = Some el ∨ liveRegionEl s = Some el ∨ globalStyleEl s = Some el →
         parentNode (nodeOf (page s') el) = None) ∧
  page s' = rolledBack (detached (globalStyleEl s)
              (detached (liveRegionEl s) (detached (skipLinkEl s) (page s)))) ∧
  changeLog (page s') = ∅ ∧
  pendingItemCount s' = 0%Z ∧ mutationCounter s' = 0%Z ∧
  enhancementScheduled s' = enhancementScheduled s ∧
  frameQueue s' = frameQueue s.
Proof.
  intros s'.
  assert (s' = disabledState s) as ->.
  { unfold s', stateAfter. by rewrite disableA11Y_total. }
  split; [by rewrite disableA11Y_total|].
  split; [done|]. split.
  { intros o r Ho Hr. simpl in Hr. rewrite Ho in Hr.
    by apply list_elem_of_filter in Hr as [? _]. }
  do 3 (split; [done|]). split.
  { intros el Hel. simpl. rewrite parentNode_rolledBack, !parentNode_detached.
    destruct (decide (globalStyleEl s = Some el)); [done|].
    destruct (decide (liveRegionEl s = Some el)); [done|].
    destruct (decide (skipLinkEl s = Some el)); [done|]. tauto. }
  by repeat split.
Qed.

Lemma disable_resets_engine_witness :
  let enabled := stateAfter (toggleClick quietHeuristics) (initialEngine sampleDocument) in
  let s := with_a11yEnabled false (scheduleAll [3; 4; 5]%Z enabled) in
  let s' := stateAfter disableA11Y s in
  mutationObserver s = Some 0 ∧ skipLinkEl s = Some 9%positive ∧
  pendingItemCount s = 12%Z ∧
  observations s' = [] ∧
  parentNode (nodeOf (page s') 9) = None ∧
  changeLog (page s') = ∅ ∧ pendingItemCount s' = 0%Z.
Proof.
  intros enabled s s'.
  destruct (disable_resets_engine s) as (_ & _ & _ & _ & _ & _ & Hpar & _ & HL & Hp & _).
  assert (skipLinkEl s = Some 9%positive) as Hs by (vm_compute; reflexivity).
  split; [vm_compute; reflexivity|]. split; [exact Hs|].
  split; [vm_compute; reflexivity|]. split; [vm_compute; reflexivity|].
  split; [exact (Hpar 9%positive (or_introl Hs))|]. split; [exact HL|exact Hp].
Defined.

(** C4, as stated, fails: a pass is scheduled while the engine is enabled,
    then the engine is disabled.  When [disableA11Y] has returned the
    coalescing flag is still set, which is not its initial value. *)
Lemma disable_leaves_flag_set :
  let enabled := stateAfter (toggleClick quietHeuristics) (initialEngine sampleDocument) in
  let scheduled := stateAfter (scheduleEnhancements 3) enabled in
  let s' := stateAfter disableA11Y (with_a11yEnabled false scheduled) in
  (disableA11Y (with_a11yEnabled false scheduled)).1 = Ok tt ∧
  enhancementScheduled s' = true ∧
  enhancementScheduled s' ≠ enhancementScheduled (initialEngine sampleDocument).
Proof.
  vm_compute. split; [reflexivity|]. split; [reflexivity|].
  intros Hflag. discriminate Hflag.
Qed.

(** C7 — Re-entrant transitions.  On an engine that is already enabled
    (the stylesheet is injected, the skip link is attached, the observer is
    attached) [addGlobalStyles], [addSkipLink] and [startMutationObserver]
    return at their guards and change nothing, so a second [enableA11Y] is
    the two passes and nothing else: no second stylesheet, no second skip
    link, no second observer registration.  [disableA11Y] on an engine that
    has nothing left to undo returns normally and leaves the state as it is;
    in particular a second [disableA11Y] right after a first changes
    nothing. *)
Theorem reentrant_transitions (H : Heuristics) (s : Engine) :
  is_Some (globalStyleEl s) →
  attached (page s) (skipLinkEl s) = true →
  is_Some (mutationObserver s) →
  addGlobalStyles s = (Ok tt, s) ∧
  addSkipLink s = (Ok tt, s) ∧
  startMutationObserver s = (Ok tt, s) ∧
  enableA11Y H s =
    (runLocalEnhancements H (body (doc (page s)));; runGlobalEnhancements H 0) s ∧
  globalStyleEl (stateAfter (enableA11Y H) s) = globalStyleEl s ∧
  skipLinkEl (stateAfter (enableA11Y H) s) = skipLinkEl s ∧
  mutationObserver (stateAfter (enableA11Y H) s) = mutationObserver s ∧
  observations (stateAfter (enableA11Y H) s) = observations s ∧
  (∀ t, quiescent t → disableA11Y t = (Ok tt, t)) ∧
  (∀ t, disableA11Y (stateAfter disableA11Y t) = (Ok tt, stateAfter disableA11Y t)).
Proof.
  intros Hg Hs Hm.
  assert (enableA11Y H s =
          (runLocalEnhancements H (body (doc (page s)));; runGlobalEnhancements H 0) s)
    as Henable.
  { unfold enableA11Y.
    erewrite js_bind_ok by (by apply addGlobalStyles_present).
    erewrite js_bind_ok by (by apply addSkipLink_present).
    erewrite js_bind_ok by reflexivity.
    unfold mbind, Js_bind, js_bind.
    pose proof (keepsControl_runLocalEnhancements H (body (doc (page s))) s) as K1.
    destruct (runLocalEnhancements H (body (doc (page s))) s) as [[[]|e1] s1]; [|done].
    pose proof (keepsControl_runGlobalEnhancements H 0 s1) as K2.
    destruct (runGlobalEnhancements H 0 s1) as [[[]|e2] s2]; [|done].
    simpl in *. apply startMutationObserver_present.
    destruct K1 as (_ & K1 & _), K2 as (_ & K2 & _). by rewrite K2, K1. }
  assert (sameControl s (stateAfter (enableA11Y H) s)) as K.
  { unfold stateAfter. rewrite Henable.
    apply keepsControl_bind; [apply keepsControl_runLocalEnhancements|].
    intros _. apply keepsControl_runGlobalEnhancements. }
  destruct K as (_ & Kobs & _ & Kskip & Kstyle & _ & _ & _ & Kreg & _).
  split; [by apply addGlobalStyles_present|].
  split; [by apply addSkipLink_present|].
  split; [by apply startMutationObserver_present|].
  split; [exact Henable|].
  do 4 (split; [done|]). split.
  - intros t Ht. by rewrite disableA11Y_total, disabledState_quiescent.
  - intros t. unfold stateAfter. rewrite !disableA11Y_total. simpl.
    by rewrite disabledState_quiescent by apply quiescent_disabledState.
Qed.

Lemma reentrant_transitions_witness :
  let s := stateAfter (toggleClick quietHeuristics) (initialEngine sampleDocument) in
  let s' := stateAfter (enableA11Y quietHeuristics) s in
  globalStyleEl s = Some 8%positive ∧
  attached (page s) (skipLinkEl s) = true ∧
  mutationObserver s = Some 0 ∧
  globalStyleEl s' = Some 8%positive ∧
  skipLinkEl s' = skipLinkEl s ∧
  observations s' = [(0, 4%positive)] ∧
  disableA11Y (initialEngine sampleDocument) = (Ok tt, initialEngine sampleDocument).
Proof.
  intros s s'.
  assert (globalStyleEl s = Some 8%positive) as Hg by (vm_compute; reflexivity).
  assert (attached (page s) (skipLinkEl s) = true) as Hs by (vm_compute; reflexivity).
  assert (mutationObserver s = Some 0) as Hm by (vm_compute; reflexivity).
  destruct (reentrant_transitions quietHeuristics s)
    as (_ & _ & _ & _ & Kg & Ks & _ & Ko & Hq & _).
  { by rewrite Hg. } { exact Hs. } { by rewrite Hm. }
  split; [exact Hg|]. split; [exact Hs|]. split; [exact Hm|].
  split; [by rewrite <- Hg|]. split; [exact Ks|].
  split; [unfold s'; rewrite Ko; vm_compute; reflexivity|].
  apply Hq. by repeat split.
Defined.

(** C3, as the code has it — Coalescing.  Take an engine with no pass
    pending and [pendingItemCount] zero, and call [scheduleEnhancements] once
    for each of N >= 1 item counts before the next animation frame, the
    counts being numbers of items: integers that are not negative, with a
    sum of at most 2^53, so that the additions of the script, which are
    additions of floating-point numbers, are the additions of integers.  Exactly
    one [GlobalPass] callback is added to the frame queue, the in-flight flag
    is set, and [pendingItemCount] is the sum of the counts.  The callback
    clears the flag, calls [runGlobalEnhancements] once, with that sum, and
    then resets [pendingItemCount]: the flag is clear whatever the pass
    does, the count is zero once the pass has returned.  When nothing else
    was queued, the next animation frame is that one callback. *)
Theorem coalescing (H : Heuristics) (s : Engine) (counts : list Z) :
  counts ≠ [] →
  Forall (λ c, (0 ≤ c)%Z) counts →
  (sumOf counts ≤ 2 ^ 53)%Z →
  enhancementScheduled s = false →
  pendingItemCount s = 0%Z →
  let pending := scheduleAll counts s in
  frameQueue pending = (frameQueue s ++ [GlobalPass])%list ∧
  enhancementScheduled pending = true ∧
  pendingItemCount pending = sumOf counts ∧
  frameCallback H GlobalPass pending =
    (runGlobalEnhancements H (sumOf counts);; js_modify (with_pendingItemCount 0))
      (with_enhancementScheduled false pending) ∧
  enhancementScheduled (stateAfter (frameCallback H GlobalPass) pending) = false ∧
  ((runGlobalEnhancements H (sumOf counts) (with_enhancementScheduled false pending)).1
     = Ok tt →
   (frameCallback H GlobalPass pending).1 = Ok tt ∧
   pendingItemCount (stateAfter (frameCallback H GlobalPass) pending) = 0%Z) ∧
  (frameQueue s = [] →
   animationFrame H pending =
   stateAfter (frameCallback H GlobalPass) (with_frameQueue [] pending)).
Proof.
  intros Hne _ _ Hidle Hzero pending.
  destruct (scheduleAll_idle counts s Hne Hidle) as (Hp & Hf & Hq & _).
  rewrite Hzero, Z.add_0_l in Hp. fold pending in Hp, Hf, Hq.
  split; [exact Hq|]. split; [exact Hf|]. split; [exact Hp|].
  split; [by rewrite frameCallback_GlobalPass, Hp|].
  split; [apply frameCallback_GlobalPass_flag|].
  split; [|intros Hempty; unfold animationFrame; by rewrite Hq, Hempty].
  intros Hok. unfold stateAfter. rewrite frameCallback_GlobalPass, Hp.
  unfold mbind, Js_bind, js_bind.
  destruct (runGlobalEnhancements H (sumOf counts) (with_enhancementScheduled false pending))
    as [[[]|e] s2]; [done|discriminate Hok].
Qed.

Lemma coalescing_witness :
  let s := stateAfter (toggleClick quietHeuristics) (initialEngine sampleDocument) in
  let pending := scheduleAll [3; 4; 5]%Z s in
  let s' := animationFrame quietHeuristics pending in
  Forall (λ c, (0 ≤ c)%Z) [3; 4; 5]%Z ∧ (sumOf [3; 4; 5] ≤ 2 ^ 53)%Z ∧
  enhancementScheduled s = false ∧ pendingItemCount s = 0%Z ∧
  frameQueue pending = [GlobalPass] ∧
  pendingItemCount pending = 12%Z ∧
  pendingItemCount (stateAfter (frameCallback quietHeuristics GlobalPass) pending) = 0%Z ∧
  timerQueue s' = [SetRegionText 10 "12 more items loaded"].
Proof.
  intros s pending s'.
  assert (enhancementScheduled s = false) as Hidle by (vm_compute; reflexivity).
  assert (pendingItemCount s = 0%Z) as Hzero by (vm_compute; reflexivity).
  assert (Forall (λ c, (0 ≤ c)%Z) [3; 4; 5]%Z) as Hpos by (repeat constructor; lia).
  assert (sumOf [3; 4; 5] ≤ 2 ^ 53)%Z as Hsum by (vm_compute; discriminate).
  destruct (coalescing quietHeuristics s [3; 4; 5]%Z) as (Hq & _ & Hp & _ & _ & Hreset & _);
    [discriminate|exact Hpos|exact Hsum|exact Hidle|exact Hzero|].
  split; [exact Hpos|]. split; [exact Hsum|].
  split; [exact Hidle|]. split; [exact Hzero|].
  split; [exact Hq|]. split; [exact Hp|].
  split; [apply Hreset; vm_compute; reflexivity|].
  vm_compute. reflexivity.
Defined.

(** C3, as stated, fails.  The count is reset after the pass, not as it
    begins, and a pass that throws never reaches the reset.  After the engine
    is enabled the page inserts a tab list whose tab is [<a href="#">]; three
    items are scheduled and the frame runs.  The pass throws in the tab rule:
    it has begun, the flag is clear, and [pendingItemCount] is still 3.  In
    the next window one call schedules 2 items, and the one pass of that
    window is invoked with 5, as its announcement shows. *)
Lemma stale_count_after_throwing_pass :
  let H := hashTabsHeuristics in
  let enabled := stateAfter (toggleClick H) (initialEngine tabsDocument) in
  let inserted := pageAppendsToBody 5 enabled in
  let first := animationFrame H (scheduleAll [3%Z] inserted) in
  let second := animationFrame H (scheduleAll [2%Z] first) in
  (toggleClick H (initialEngine tabsDocument)).1 = Ok tt ∧
  enhancementScheduled inserted = false ∧ pendingItemCount inserted = 0%Z ∧
  (frameCallback H GlobalPass (scheduleAll [3%Z] inserted)).1 = Throw SyntaxError ∧
  enhancementScheduled first = false ∧
  pendingItemCount first = 3%Z ∧
  pendingItemCount first ≠ 0%Z ∧
  frameQueue (scheduleAll [2%Z] first) = [GlobalPass] ∧
  timerQueue second = [SetRegionText 10 "5 more items loaded"] ∧
  sumOf [2%Z] ≠ 5%Z.
Proof.
  vm_compute. repeat (split; [reflexivity|]).
  split; [intros Hx; discriminate Hx|].
  repeat (split; [reflexivity|]). intros Hx; discriminate Hx.
Qed.

(** ** The local pass run twice *)

(** C5 — The local pass is not idempotent.  On
    [<body><div class="clickable"></div></body>], whatever the heuristics:
    the first [runLocalEnhancements(document.body)] does not select the
    [div] in [enhanceUnlabeledButtons] and then gives it [role="button"] and
    [tabindex] in [enhanceClickableRoles]; on the second run of the
    unchanged subtree [enhanceUnlabeledButtons] selects it by that role and
    makes a further tracked write, [aria-label], so the ledger grows from
    two recorded keys to three.  The same happens when the first run is the
    one [enableA11Y] makes. *)
Theorem local_pass_twice_grows_ledger (H : Heuristics) :
  let s0 := with_a11yEnabled true (initialEngine clickableDocument) in
  let s1 := stateAfter (runLocalEnhancements H (Some 4%positive)) s0 in
  let s2 := stateAfter (runLocalEnhancements H (Some 4%positive)) s1 in
  (runLocalEnhancements H (Some 4%positive) s0).1 = Ok tt ∧
  (runLocalEnhancements H (Some 4%positive) s1).1 = Ok tt ∧
  current (page s1) 5 (AttrKey "role") = Some "button" ∧
  captured (page s1) 5 (AttrKey "aria-label") = None ∧
  current (page s1) 5 (AttrKey "aria-label") = None ∧
  captured (page s2) 5 (AttrKey "aria-label") = Some None ∧
  current (page s2) 5 (AttrKey "aria-label") = Some (buttonLabel H 5 (page s1)) ∧
  ledgerSize (page s1) = 2 ∧
  ledgerSize (page s2) = 3 ∧
  let e1 := stateAfter (toggleClick quietHeuristics) (initialEngine clickableDocument) in
  let e2 := stateAfter (runLocalEnhancements quietHeuristics (body (doc (page e1)))) e1 in
  captured (page e1) 5 (AttrKey "aria-label") = None ∧
  captured (page e2) 5 (AttrKey "aria-label") = Some None ∧
  current (page e2) 5 (AttrKey "aria-label") = Some "Button".
Proof. vm_compute. repeat split. Qed.

(* ===================================================================== *)
(** * Further properties of the ledger *)
(* ===================================================================== *)

(** X1 — Last write wins, on plain keys.  When a tracked write on a plain
    key returns normally, its key reads as that write left it for as long as
    no later tracked write has the same node and key, the later writes being
    on plain keys too: whatever was written to it before and whatever is
    written to other keys afterwards. *)
Theorem last_write_wins (p : Page) (pre post : list TrackedWrite) (w : TrackedWrite) :
  forallb plainWrite (w :: post) = true →
  (exec w (run pre p)).1 = Ok tt →
  Forall (λ w', target w' ≠ target w) post →
  current (run (pre ++ w :: post) p) (target w).1 (target w).2 = written w.
Proof.
  intros _ Hreturns Hpost.
  assert (isElement p (target w).1 = true) as HE.
  { destruct (isElement p (target w).1) eqn:HE; [done|].
    rewrite exec_not_element in Hreturns by (by rewrite isElement_run).
    discriminate Hreturns. }
  rewrite run_app. simpl.
  destruct (run_other_keys post (target w).1 (target w).2
              (stateAfter (exec w) (run pre p))) as [-> _].
  { eapply list.Forall_impl; [exact Hpost|]. intros w' Hw'. by destruct (target w). }
  rewrite stateAfter_exec, isElement_run, HE, current_tracked.
  rewrite decide_True; [done|]. by destruct (target w).
Qed.

Lemma last_write_wins_witness :
  let pre := [SetAttr 5 "aria-expanded" "false"; SetStyle 6 "display" "none"] in
  let w := SetAttr 5 "aria-expanded" "true" in
  let post := [SetAttr 5 "role" "button"; RemoveAttr 6 "hidden"] in
  forallb plainWrite (w :: post) = true ∧
  (exec w (run pre (freshPage sampleDocument))).1 = Ok tt ∧
  Forall (λ w', target w' ≠ target w) post ∧
  current (run (pre ++ w :: post) (freshPage sampleDocument)) 5 (AttrKey "aria-expanded")
  = Some "true".
Proof.
  intros pre w post.
  assert (forallb plainWrite (w :: post) = true) as Hplain by reflexivity.
  assert ((exec w (run pre (freshPage sampleDocument))).1 = Ok tt) as Hreturns.
  { vm_compute. reflexivity. }
  assert (Forall (λ w', target w' ≠ target w) post) as Hpost.
  { repeat constructor; discriminate. }
  split; [exact Hplain|]. split; [exact Hreturns|]. split; [exact Hpost|].
  exact (last_write_wins (freshPage sampleDocument) pre post w Hplain Hreturns Hpost).
Defined.

(** X2 — What a tracked write leaves alone.  Whether it returns or throws, a
    tracked write on a plain key changes no other plain key: every other
    plain attribute, and the [display] of every other node, reads as before
    and keeps the original the ledger recorded for it, or keeps having none.
    It leaves the type and the tag of every node, its place in the tree and
    its text as they are, and [document.head], [document.body] and the node
    counter too. *)
Theorem tracked_write_frame (w : TrackedWrite) (p : Page) :
  plainWrite w = true →
  let p' := stateAfter (exec w) p in
  (∀ el k, plainKey k = true → (el, k) ≠ target w →
     current p' el k = current p el k ∧ captured p' el k = captured p el k) ∧
  (∀ el, nodeType (nodeOf p' el) = nodeType (nodeOf p el) ∧
         tagName (nodeOf p' el) = tagName (nodeOf p el) ∧
         parentNode (nodeOf p' el) = parentNode (nodeOf p el) ∧
         childNodes (nodeOf p' el) = childNodes (nodeOf p el) ∧
         isConnected (nodeOf p' el) = isConnected (nodeOf p el) ∧
         textContent (nodeOf p' el) = textContent (nodeOf p el)) ∧
  head (doc p') = head (doc p) ∧ body (doc p') = body (doc p) ∧
  documentNode (doc p') = documentNode (doc p) ∧ nextNode (doc p') = nextNode (doc p).
Proof.
  intros _ p'. split.
  { intros el k _ Hne. apply exec_other_key. congruence. }
  unfold p'. rewrite stateAfter_exec.
  destruct (isElement p (target w).1); [|done].
  unfold tracked. destruct w as [el0 a v|el0 a|el0 s v]; simpl;
    unfold setAttributeOn, removeAttributeOn, writeStyleOn;
    (split; [|done]); intros el; rewrite nodeOf_updNode;
    case_decide; subst; done.
Qed.

Lemma tracked_write_frame_witness :
  let p := freshPage sampleDocument in
  let p' := stateAfter (setAttrTracked 5 "aria-label" "Close") p in
  plainWrite (SetAttr 5 "aria-label" "Close") = true ∧
  current p' 6 (AttrKey "id") = Some "panel" ∧
  current p' 6 (StyleKey "display") = Some "block" ∧
  captured p' 5 (AttrKey "role") = None ∧
  childNodes (nodeOf p' 4) = [5; 6]%positive.
Proof.
  intros p p'.
  assert (plainWrite (SetAttr 5 "aria-label" "Close") = true) as Hplain by reflexivity.
  destruct (tracked_write_frame (SetAttr 5 "aria-label" "Close") p Hplain) as (Hk & _).
  destruct (Hk 6%positive (AttrKey "id")) as [H1 _]; [reflexivity|discriminate|].
  destruct (Hk 5%positive (AttrKey "role")) as [_ H2]; [reflexivity|discriminate|].
  destruct (Hk 6%positive (StyleKey "display")) as [H3 _]; [reflexivity|discriminate|].
  split; [exact Hplain|].
  split; [exact H1|]. split; [exact H3|]. split; [exact H2|]. reflexivity.
Defined.

(** X3 — A tracked write to a node that is not an element.  [ensureEntry]
    runs first, then the first element method ([hasAttribute], or
    [setAttribute] and the like when the key has an original) is missing:
    each of the three tracked writes throws a [TypeError], writes nothing to
    the document and records no original, but leaves a ledger entry for the
    node behind.  A later [clearAllTrackedChanges] skips that entry and
    leaves the node as it is. *)
Theorem tracked_write_on_non_element (p : Page) (el : node) (a s v : string) :
  isElement p el = false →
  (setAttrTracked el a v p).1 = Throw TypeError ∧
  (removeAttrTracked el a p).1 = Throw TypeError ∧
  (setStyleTracked el s v p).1 = Throw TypeError ∧
  (∀ w, (target w).1 = el →
     let p' := stateAfter (exec w) p in
     doc p' = doc p ∧
     is_Some (changeLog p' !! el) ∧
     (∀ el' k, captured p' el' k = captured p el' k) ∧
     nodeOf (stateAfter clearAllTrackedChanges p') el = nodeOf p el).
Proof.
  intros HE.
  assert (∀ w, (target w).1 = el → exec w p = (Throw TypeError, attempted w p)) as Hx.
  { intros w Hel. apply exec_not_element. by rewrite Hel. }
  split; [exact (f_equal fst (Hx (SetAttr el a v) eq_refl))|].
  split; [exact (f_equal fst (Hx (RemoveAttr el a) eq_refl))|].
  split; [exact (f_equal fst (Hx (SetStyle el s v) eq_refl))|].
  intros w Hel p'. unfold p', stateAfter at 1 2 3. rewrite (Hx w Hel). simpl.
  split; [done|]. split.
  { unfold attempted. simpl. rewrite Hel, lookup_insert_eq. by eexists. }
  split; [intros el' k; apply captured_attempted|].
  unfold stateAfter. rewrite (Hx w Hel), clearAllTrackedChanges_total. simpl.
  rewrite nodeOf_rolledBack.
  assert (isElement (attempted w p) el = false) as -> by done.
  by destruct (changeLog (attempted w p) !! el).
Qed.

Lemma tracked_write_on_non_element_witness :
  let p := freshPage sampleDocument in
  isElement p 20 = false ∧
  (setAttrTracked 20 "role" "button" p).1 = Throw TypeError ∧
  changeLog p !! 20%positive = None ∧
  is_Some (changeLog (stateAfter (setAttrTracked 20 "role" "button") p) !! 20%positive).
Proof.
  intros p.
  assert (isElement p 20 = false) as HE by reflexivity.
  destruct (tracked_write_on_non_element p 20 "role" "display" "button" HE)
    as (H1 & _ & _ & Hw).
  destruct (Hw (SetAttr 20 "role" "button") eq_refl) as (_ & H2 & _).
  split; [exact HE|]. split; [exact H1|]. split; [reflexivity|exact H2].
Defined.

(** X4 — Rollback composes with itself.  A second [clearAllTrackedChanges]
    right after a first returns normally and changes nothing, and so does a
    rollback on a ledger that is empty. *)
Theorem rollback_is_idempotent (p : Page) :
  let p1 := stateAfter clearAllTrackedChanges p in
  clearAllTrackedChanges p1 = (Ok tt, p1) ∧
  (changeLog p = ∅ → clearAllTrackedChanges p = (Ok tt, p)).
Proof.
  intros p1. unfold p1, stateAfter. rewrite !clearAllTrackedChanges_total. simpl.
  split.
  - by rewrite with_changeLog_empty.
  - intros He. by rewrite with_changeLog_empty.
Qed.

Lemma rollback_is_idempotent_witness :
  let p := freshPage sampleDocument in
  changeLog p = ∅ ∧ clearAllTrackedChanges p = (Ok tt, p).
Proof.
  intros p. split; [reflexivity|].
  exact (proj2 (rollback_is_idempotent p) eq_refl).
Defined.

Lemma collected_connected p :
  (∀ el, is_Some (changeLog p !! el) → isConnected (nodeOf p el) = true) →
  collected p = p.
Proof.
  intros Hall.
  assert (changeLog (collected p) = changeLog p) as HL.
  { apply map_eq. intros el. rewrite changeLog_collected.
    destruct (isConnected (nodeOf p el)) eqn:Hc; [done|].
    destruct (changeLog p !! el) eqn:HE; [|done].
    rewrite Hall in Hc by by eexists. done. }
  pose proof (doc_collected p) as HD.
  destruct (collected p) as [d l], p as [d' l']. simpl in *. by subst.
Qed.

(** X5 — Collection composes with itself.  A second [garbageCollect] right
    after a first changes nothing, and a collection changes nothing at all
    when every node the ledger has an entry for is connected. *)
Theorem gc_is_idempotent (p : Page) :
  let p1 := stateAfter garbageCollect p in
  garbageCollect p1 = (Ok tt, p1) ∧
  ((∀ el, is_Some (changeLog p !! el) → isConnected (nodeOf p el) = true) →
   garbageCollect p = (Ok tt, p)).
Proof.
  intros p1. unfold p1, stateAfter. rewrite !garbageCollect_total. simpl. split.
  - f_equal. apply collected_connected.
    intros el [e He]. rewrite changeLog_collected in He.
    unfold nodeOf. rewrite doc_collected. fold (nodeOf p el).
    by destruct (isConnected (nodeOf p el)).
  - intros Hall. f_equal. by apply collected_connected.
Qed.

Lemma gc_is_idempotent_witness :
  let p := run [SetAttr 5 "aria-label" "Close"; SetStyle 6 "display" "none"]
               (freshPage sampleDocument) in
  (∀ el, is_Some (changeLog p !! el) → isConnected (nodeOf p el) = true) ∧
  garbageCollect p = (Ok tt, p).
Proof.
  intros p.
  assert (∀ el, is_Some (changeLog p !! el) → isConnected (nodeOf p el) = true) as Hall.
  { intros el [e He]. apply elem_of_map_to_list in He.
    assert (el ∈ (map_to_list (changeLog p)).*1) as Hin.
    { apply list_elem_of_fmap. by exists (el, e). }
    revert Hin.
    let l := eval vm_compute in ((map_to_list (changeLog p)).*1) in
    change ((map_to_list (changeLog p)).*1) with l.
    intros [->|[->|[]%elem_of_nil]%elem_of_cons]%elem_of_cons; reflexivity. }
  split; [exact Hall|]. exact (proj2 (gc_is_idempotent p) Hall).
Defined.

Lemma isConnected_stateAfter_exec w p el :
  isConnected (nodeOf (stateAfter (exec w) p) el) = isConnected (nodeOf p el).
Proof.
  rewrite stateAfter_exec. destruct (isElement p (target w).1); [|done].
  unfold tracked. destruct w; simpl;
    unfold setAttributeOn, removeAttributeOn, writeStyleOn;
    rewrite nodeOf_updNode; case_decide; subst; done.
Qed.

Lemma stateAfter_garbageCollect p : stateAfter garbageCollect p = collected p.
Proof. unfold stateAfter. by rewrite garbageCollect_total. Qed.

Lemma keyInv_collected p0 p el k :
  isConnected (nodeOf p el) = true → keyInv p0 p el k → keyInv p0 (collected p) el k.
Proof.
  intros Hc. unfold keyInv, captured, current, isElement, nodeOf.
  rewrite changeLog_collected, doc_collected. fold (nodeOf p el). by rewrite Hc.
Qed.

Lemma keyInv_runOps p0 ops el k : ∀ p,
  forallb plainOp ops = true →
  isConnected (nodeOf p el) = true → keyInv p0 p el k → keyInv p0 (runOps ops p) el k.
Proof.
  induction ops as [|op ops IH]; intros p Hplain Hc Hinv; simpl in *; [done|].
  apply andb_true_iff in Hplain as [Hop Hplain].
  apply IH; [done| |].
  - destruct op as [w|]; simpl.
    + by rewrite isConnected_stateAfter_exec.
    + rewrite stateAfter_garbageCollect. unfold nodeOf. by rewrite doc_collected.
  - destruct op as [w|]; simpl.
    + by apply keyInv_exec; [apply plainWrite_ordinary|].
    + rewrite stateAfter_garbageCollect. by apply keyInv_collected.
Qed.

(** X6 — Collections do not cost a connected node its rollback.  Start from
    an empty ledger and interleave tracked writes on plain keys with any
    number of [garbageCollect] calls.  For every node that is connected, the
    final [clearAllTrackedChanges] still puts every plain attribute, and
    [display], back to the value it had at the start. *)
Theorem gc_keeps_rollback_exact (d : Document) (ops : list LedgerOp) (el : node) (k : Key) :
  forallb plainOp ops = true →
  plainKey k = true →
  isConnected (nodes d el) = true →
  current (stateAfter clearAllTrackedChanges (runOps ops (freshPage d))) el k
  = current (freshPage d) el k.
Proof.
  intros Hplain _ Hc. unfold stateAfter. rewrite clearAllTrackedChanges_total. simpl.
  apply keyInv_rolledBack, keyInv_runOps; [exact Hplain|exact Hc|].
  apply keyInv_start. unfold captured. simpl. by rewrite lookup_empty.
Qed.

Lemma gc_keeps_rollback_exact_witness :
  let ops := [Write (SetAttr 5 "aria-label" "Close"); Write (SetAttr 7 "role" "button");
              Collect; Write (SetAttr 5 "aria-label" "Dismiss"); Collect;
              Write (SetStyle 6 "display" "none")] in
  let final := stateAfter clearAllTrackedChanges (runOps ops (freshPage sampleDocument)) in
  forallb plainOp ops = true ∧
  isConnected (sampleNodes 5) = true ∧
  current final 5 (AttrKey "aria-label") = None ∧
  current final 6 (StyleKey "display") = Some "block".
Proof.
  intros ops final.
  assert (forallb plainOp ops = true) as Hplain by reflexivity.
  split; [exact Hplain|]. split; [reflexivity|]. split.
  - exact (gc_keeps_rollback_exact sampleDocument ops 5 (AttrKey "aria-label")
             Hplain eq_refl eq_refl).
  - exact (gc_keeps_rollback_exact sampleDocument ops 6 (StyleKey "display")
             Hplain eq_refl eq_refl).
Defined.

(** ** The order of enumeration *)

Lemma restoreStyles_list_exact (l : list (string * string)) :
  NoDup l.*1 →
  ∀ (st : gmap string string) (k : string),
    foldl restoreStyleStep st l !! k =
    match (list_to_map l : gmap string string) !! k with
    | Some v => if decide (v = "") then None else Some v
    | None => st !! k
    end.
Proof.
  induction l as [|[k0 v] l IH]; intros Hnd st k; simpl; [done|].
  apply list.NoDup_cons in Hnd as [Hnotin Hnd].
  rewrite IH by done.
  destruct (decide (k0 = k)) as [->|Hne].
  - rewrite lookup_insert_eq.
    rewrite (not_elem_of_list_to_map_1 l k) by done.
    unfold restoreStyleStep, assignStyle. simpl. case_decide.
    + by rewrite lookup_delete_eq.
    + by rewrite lookup_insert_eq.
  - rewrite lookup_insert_ne by done.
    destruct (list_to_map l !! k); [done|].
    unfold restoreStyleStep, assignStyle. simpl. case_decide.
    + by rewrite lookup_delete_ne.
    + by rewrite lookup_insert_ne.
Qed.

Lemma replayedNode_restoredNode originals n :
  NoDup originals.1.*1 → NoDup originals.2.*1 →
  replayedNode originals n = restoredNode (entryOfLists originals) n.
Proof.
  intros H1 H2. unfold replayedNode, restoredNode, entryOfLists. simpl.
  assert (foldl restoreAttrStep (attributes n) originals.1 =
          foldl restoreAttrStep (attributes n) (map_to_list (list_to_map originals.1)))
    as ->.
  { apply map_eq. intros k. rewrite restoreAttrs_list by done.
    rewrite restoreAttrs_list by apply NoDup_fst_map_to_list.
    by rewrite list_to_map_to_list. }
  assert (foldl restoreStyleStep (style n) originals.2 =
          foldl restoreStyleStep (style n) (map_to_list (list_to_map originals.2)))
    as ->; [|done].
  apply map_eq. intros k. rewrite restoreStyles_list_exact by done.
  rewrite restoreStyles_list_exact by apply NoDup_fst_map_to_list.
  by rewrite list_to_map_to_list.
Qed.

Lemma nodeOf_replayEntry p ee el :
  nodeOf (replayEntry p ee) el =
  if decide (ee.1 = el)
  then (if isElement p el then replayedNode ee.2 (nodeOf p el) else nodeOf p el)
  else nodeOf p el.
Proof.
  unfold replayEntry. destruct (isElement p ee.1) eqn:He.
  - rewrite nodeOf_restoreStyles. case_decide as Hd.
    + subst el. rewrite He, nodeOf_restoreAttrs, decide_True by done. done.
    + by rewrite nodeOf_restoreAttrs, decide_False by done.
  - case_decide; [subst; by rewrite He|done].
Qed.

Lemma isElement_replayEntry p ee el :
  isElement (replayEntry p ee) el = isElement p el.
Proof.
  unfold replayEntry. destruct (isElement p ee.1); [|done].
  by rewrite isElement_restoreStyles, isElement_restoreAttrs.
Qed.

Lemma nodeOf_replayAll (l : Enumeration) :
  NoDup l.*1 →
  ∀ p el,
    nodeOf (foldl replayEntry p l) el =
    match (list_to_map l : gmap node _) !! el with
    | Some originals =>
        if isElement p el then replayedNode originals (nodeOf p el) else nodeOf p el
    | None => nodeOf p el
    end.
Proof.
  induction l as [|[el0 o0] l IH]; intros Hnd p el; simpl; [done|].
  apply list.NoDup_cons in Hnd as [Hnotin Hnd].
  rewrite IH by done.
  rewrite isElement_replayEntry, nodeOf_replayEntry. simpl.
  destruct (decide (el0 = el)) as [->|Hne].
  - rewrite lookup_insert_eq, (not_elem_of_list_to_map_1 l el) by done. done.
  - by rewrite lookup_insert_ne.
Qed.

(** X7 — The order of enumeration does not matter.  Take the ledger that
    tracked writes on plain keys and collections have built from an empty
    one.  In whatever order it hands out its entries and an entry its keys,
    replaying them leaves every node exactly as [clearAllTrackedChanges] is
    modelled to leave it: replaying the attribute originals and the style
    originals of the entries has no ordering hazard. *)
Theorem rollback_order_irrelevant (d : Document) (ops : list LedgerOp) (l : Enumeration) :
  forallb plainOp ops = true →
  let p := runOps ops (freshPage d) in
  enumerates l (changeLog p) →
  (∀ el, nodeOf (replay l p) el = nodeOf (stateAfter clearAllTrackedChanges p) el) ∧
  changeLog (replay l p) = changeLog (stateAfter clearAllTrackedChanges p).
Proof.
  intros _ p (Hnd & Hkeys & HL). unfold stateAfter.
  rewrite clearAllTrackedChanges_total. simpl. split; [|done].
  intros el. rewrite nodeOf_rolledBack. unfold replay.
  change (nodeOf (with_changeLog ∅ ?q) el) with (nodeOf q el).
  rewrite nodeOf_replayAll by done. rewrite HL, lookup_fmap.
  destruct (list_to_map l !! el) as [originals|] eqn:Hl; simpl; [|done].
  destruct (isElement p el); [|done].
  apply elem_of_list_to_map_2 in Hl.
  rewrite list.Forall_forall in Hkeys. destruct (Hkeys _ Hl) as [H1 H2].
  by apply replayedNode_restoredNode.
Qed.

Lemma rollback_order_irrelevant_witness :
  let ops := [Write (SetAttr 5 "aria-label" "Close"); Write (SetStyle 6 "display" "none");
              Collect; Write (SetAttr 5 "role" "button"); Write (RemoveAttr 6 "id")] in
  let p := runOps ops (freshPage sampleDocument) in
  let l : Enumeration :=
    [(5%positive, ([("aria-label", None); ("role", None)], []));
     (6%positive, ([("id", Some "panel")], [("display", "block")]))] in
  forallb plainOp ops = true ∧
  enumerates l (changeLog p) ∧ enumerates (reverse l) (changeLog p) ∧
  nodeOf (replay l p) 6 = nodeOf (replay (reverse l) p) 6.
Proof.
  intros ops p l.
  assert (forallb plainOp ops = true) as Hplain by reflexivity.
  assert (enumerates l (changeLog p)) as H1.
  { split; [|split].
    - apply (bool_decide_unpack _). vm_compute. exact I.
    - repeat constructor; simpl; apply (bool_decide_unpack _); vm_compute; exact I.
    - vm_compute. reflexivity. }
  assert (enumerates (reverse l) (changeLog p)) as H2.
  { split; [|split].
    - apply (bool_decide_unpack _). vm_compute. exact I.
    - repeat constructor; simpl; apply (bool_decide_unpack _); vm_compute; exact I.
    - vm_compute. reflexivity. }
  split; [exact Hplain|]. split; [exact H1|]. split; [exact H2|].
  exact (eq_trans
           (proj1 (rollback_order_irrelevant sampleDocument ops l Hplain H1) 6%positive)
           (eq_sym (proj1 (rollback_order_irrelevant sampleDocument ops (reverse l)
                             Hplain H2) 6%positive))).
Defined.

(* ===================================================================== *)
(** * The engine over a whole session *)

(** ** What enabling leaves alone *)

Lemma sameSchedule_refl s : sameSchedule s s.
Proof. by repeat split. Qed.

Lemma sameSchedule_trans s1 s2 s3 :
  sameSchedule s1 s2 → sameSchedule s2 s3 → sameSchedule s1 s3.
Proof.
  unfold sameSchedule. intros H1 H2. destruct_and!.
  repeat split; congruence.
Qed.

Lemma sameControl_sameSchedule s s' : sameControl s s' → sameSchedule s s'.
Proof. unfold sameControl, sameSchedule. intros H. destruct_and!. by repeat split. Qed.

Lemma keepsControl_keepsSchedule {A} (m : Js Engine A) : keepsControl m → keepsSchedule m.
Proof. intros Hk s. apply sameControl_sameSchedule, Hk. Qed.

Lemma keepsSchedule_bind {A B} (m : Js Engine A) (f : A → Js Engine B) :
  keepsSchedule m → (∀ a, keepsSchedule (f a)) → keepsSchedule (m ≫= f).
Proof.
  intros Hm Hf s. unfold mbind, Js_bind, js_bind.
  specialize (Hm s). destruct (m s) as [[a|e] s']; simpl in *; [|done].
  eapply sameSchedule_trans; [exact Hm|apply Hf].
Qed.

Lemma keepsControl_forEach {A} (l : list A) (body : A → Js Engine unit) :
  (∀ x, keepsControl (body x)) → keepsControl (forEach l body).
Proof.
  intros Hb. induction l as [|x l IH]; simpl.
  - apply keepsControl_ret.
  - apply keepsControl_bind; [apply Hb|]. intros _. apply IH.
Qed.

Lemma keepsSchedule_addGlobalStyles : keepsSchedule addGlobalStyles.
Proof.
  intros s. unfold addGlobalStyles.
  destruct (_ || _); [apply sameSchedule_refl|].
  destruct (head _); [|apply sameSchedule_refl].
  match goal with |- sameSchedule s (?m s).2 => assert (keepsSchedule m) as Hk; [|apply Hk] end.
  apply keepsSchedule_bind; [apply keepsControl_keepsSchedule, keepsControl_onPage|].
  intros style.
  repeat (apply keepsSchedule_bind;
          [apply keepsControl_keepsSchedule, keepsControl_onPage|intros _]).
  intros t. by repeat split.
Qed.

Lemma keepsSchedule_addSkipLink : keepsSchedule addSkipLink.
Proof.
  intros s. unfold addSkipLink.
  destruct (negb _); [apply sameSchedule_refl|].
  destruct (body _); [|apply sameSchedule_refl].
  destruct (attached _ _); [apply sameSchedule_refl|].
  match goal with |- sameSchedule s (?m s).2 => assert (keepsSchedule m) as Hk; [|apply Hk] end.
  apply keepsSchedule_bind.
  { case_decide; apply keepsControl_keepsSchedule;
      [apply keepsControl_onPage|apply keepsControl_ret]. }
  intros _.
  apply keepsSchedule_bind; [apply keepsControl_keepsSchedule, keepsControl_onPage|].
  intros skip.
  apply keepsSchedule_bind; [apply keepsControl_keepsSchedule, keepsControl_get|].
  intros s'.
  repeat (apply keepsSchedule_bind;
          [apply keepsControl_keepsSchedule, keepsControl_onPage|intros _]).
  intros t. by repeat split.
Qed.

(** [enableA11Y] leaves the schedule as it is until it starts the observer,
    if it gets that far. *)
Lemma enableA11Y_cases H s :
  ∃ s1, sameSchedule s s1 ∧
        (stateAfter (enableA11Y H) s = s1 ∨
         stateAfter (enableA11Y H) s = stateAfter startMutationObserver s1).
Proof.
  set (P := λ m : Js Engine unit,
         ∀ s, ∃ s1, sameSchedule s s1 ∧
                ((m s).2 = s1 ∨ (m s).2 = stateAfter startMutationObserver s1)).
  assert (∀ {A} (m : Js Engine A) (f : A → Js Engine unit),
            keepsSchedule m → (∀ a, P (f a)) → P (m ≫= f)) as Hbind.
  { intros A m f Hm Hf t. unfold mbind, Js_bind, js_bind.
    specialize (Hm t). destruct (m t) as [[a|e] t'] eqn:E; simpl in *.
    - destruct (Hf a t') as (s1 & Hs1 & Hor).
      exists s1. split; [by eapply sameSchedule_trans|done].
    - exists t'. split; [done|by left]. }
  assert (P (enableA11Y H)) as HP; [|apply HP].
  unfold enableA11Y.
  apply Hbind; [apply keepsSchedule_addGlobalStyles|intros _].
  apply Hbind; [apply keepsSchedule_addSkipLink|intros _].
  apply Hbind; [apply keepsControl_keepsSchedule, keepsControl_get|intros s0].
  apply Hbind;
    [apply keepsControl_keepsSchedule, keepsControl_runLocalEnhancements|intros _].
  apply Hbind;
    [apply keepsControl_keepsSchedule, keepsControl_runGlobalEnhancements|intros _].
  intros t. exists t. split; [apply sameSchedule_refl|by right].
Qed.

(** ** The invariant of the session *)

Lemma settled_sameSchedule ok n s s' :
  sameSchedule s s' → a11yEnabled s = true → settled ok n s → settled ok n s'.
Proof.
  unfold sameSchedule, settled.
  intros (Ha & Ho & Hf & Hc & Hp & _ & Hobs & _ & Hq) Hen (I1 & I2 & I3 & I4 & I5 & I6).
  rewrite Ha, Ho, Hf, Hc, Hp, Hobs, Hq, Hen.
  repeat split; try done; lia.
Qed.

Lemma settled_startMutationObserver ok n s :
  a11yEnabled s = true → settled ok n s → settled ok n (stateAfter startMutationObserver s).
Proof.
  intros Hen Hs. unfold stateAfter, startMutationObserver.
  destruct (_ || _) eqn:Hg; [done|].
  destruct (body _); [|done]. simpl.
  apply orb_false_iff in Hg as [_ Hnone].
  apply bool_decide_eq_false_1 in Hnone.
  assert (mutationObserver s = None) as Hm by (by apply eq_None_not_Some).
  destruct Hs as (I1 & I2 & I3 & I4 & I5 & I6).
  rewrite Hm in I4. simpl in I4. apply fmap_nil_inv in I4.
  unfold settled. simpl. rewrite I4, Hen. simpl.
  repeat split; try done; lia.
Qed.

Lemma settled_enableA11Y ok H n s :
  a11yEnabled s = true → settled ok n s → settled ok n (stateAfter (enableA11Y H) s).
Proof.
  intros Hen Hs. destruct (enableA11Y_cases H s) as (s1 & Hsame & [-> | ->]).
  - by eapply settled_sameSchedule.
  - apply settled_startMutationObserver.
    + destruct Hsame as (-> & _). done.
    + by eapply settled_sameSchedule.
Qed.

Lemma settled_enabling ok n s :
  settled ok n s → settled ok n (with_a11yEnabled true s).
Proof.
  unfold settled. simpl. intros (I1 & I2 & I3 & I4 & I5 & I6).
  repeat split; try done; lia.
Qed.

Lemma filter_own_observer (o : observer) (l : list (observer * node)) :
  l.*1 = [o] → filter (λ r, r.1 ≠ o) l = [].
Proof.
  destruct l as [|[o' b] [|? ?]]; simpl; try done.
  intros [= ->]. by rewrite filter_cons_False by (simpl; tauto).
Qed.

Lemma settled_disabledState ok n s :
  settled ok n s → settled ok n (disabledState (with_a11yEnabled false s)).
Proof.
  unfold settled. simpl. intros (I1 & I2 & I3 & I4 & I5 & I6).
  split; [done|]. split; [lia|]. split; [lia|]. split.
  - destruct (mutationObserver s) as [o|]; simpl in *; [|done].
    by rewrite filter_own_observer.
  - split; [by intros _ [? [=]]|]. by intros _ _.
Qed.

Lemma toggleClick_unfold H s :
  toggleClick H s =
  (if a11yEnabled s then disableA11Y else enableA11Y H)
    (with_a11yEnabled (negb (a11yEnabled s)) s).
Proof.
  unfold toggleClick.
  erewrite js_bind_ok by reflexivity.
  erewrite js_bind_ok by reflexivity.
  cbn [a11yEnabled with_a11yEnabled].
  by destruct (a11yEnabled s).
Qed.

Lemma toggleListener_saved H s : toggleListener H true s = toggleClick H s.
Proof. reflexivity. Qed.

Lemma toggleListener_refused H s :
  toggleListener H false s
  = (Throw DOMException, with_a11yEnabled (negb (a11yEnabled s)) s).
Proof. reflexivity. Qed.

Lemma settled_toggleClick ok H s :
  settled ok 0 s → settled ok 0 (stateAfter (toggleClick H) s).
Proof.
  intros Hs. unfold stateAfter. rewrite toggleClick_unfold.
  destruct (a11yEnabled s) eqn:E; simpl.
  - rewrite disableA11Y_total. cbn [snd]. by apply settled_disabledState.
  - apply settled_enableA11Y; [done|]. by apply settled_enabling.
Qed.

Lemma pendingPasses_app q1 q2 :
  pendingPasses (q1 ++ q2) = (pendingPasses q1 + pendingPasses q2)%nat.
Proof. unfold pendingPasses. by rewrite list.filter_app, length_app. Qed.

Lemma pendingPasses_LocalBatch ns : pendingPasses [LocalBatch ns] = 0%nat.
Proof. reflexivity. Qed.

Lemma pendingPasses_GlobalPass : pendingPasses [GlobalPass] = 1%nat.
Proof. reflexivity. Qed.

Lemma settled_scheduleEnhancements ok n c s :
  (0 ≤ c)%Z → a11yEnabled s = true → n = 0%nat →
  settled ok n s → settled ok n (stateAfter (scheduleEnhancements c) s).
Proof.
  intros Hc Hen -> (I1 & I2 & I3 & I4 & I5 & I6). unfold stateAfter.
  destruct (enhancementScheduled s) eqn:Hf.
  - rewrite scheduleEnhancements_pending by done. unfold settled. simpl.
    rewrite Hf, Hen. repeat split; try done; lia.
  - rewrite scheduleEnhancements_idle by done. unfold settled. simpl.
    rewrite pendingPasses_app, pendingPasses_GlobalPass, Hen.
    repeat split; try done; lia.
Qed.

Lemma settled_observerCallback ok H mutations s :
  settled ok 0 s → settled ok 0 (stateAfter (observerCallback H mutations) s).
Proof.
  intros Hs. unfold stateAfter.
  destruct (a11yEnabled s) eqn:Hen.
  2:{ unfold observerCallback. by rewrite whenEnabled_disabled. }
  unfold observerCallback, whenEnabled. rewrite Hen. simpl.
  erewrite js_bind_ok by reflexivity.
  set (ns := flat_map _ mutations).
  set (c := Z.of_nat _).
  assert (∃ s0, (if bool_decide (ns = []) then mret tt
                 else requestAnimationFrame (LocalBatch ns);; scheduleEnhancements c) s
                = (Ok tt, s0) ∧ settled ok 0 s0 ∧ a11yEnabled s0 = true) as (s0 & E0 & Hs0 & Hen0).
  { case_bool_decide.
    - by exists s.
    - set (s1 := with_frameQueue (frameQueue s ++ [LocalBatch ns]) s).
      assert (settled ok 0 s1) as Hs1.
      { destruct Hs as (I1 & I2 & I3 & I4 & I5 & I6).
        unfold settled, s1. cbn -[pendingPasses].
        rewrite pendingPasses_app, pendingPasses_LocalBatch, Nat.add_0_r, Hen.
        repeat split; try done; lia. }
      exists (stateAfter (scheduleEnhancements c) s1). split; [|split].
      + erewrite js_bind_ok by reflexivity.
        unfold stateAfter. fold s1.
        destruct (enhancementScheduled s1) eqn:Hf.
        * by rewrite scheduleEnhancements_pending.
        * by rewrite scheduleEnhancements_idle.
      + apply settled_scheduleEnhancements; try done. unfold c. lia.
      + unfold stateAfter.
        destruct (enhancementScheduled s1) eqn:Hf.
        * by rewrite scheduleEnhancements_pending.
        * by rewrite scheduleEnhancements_idle. }
  erewrite js_bind_ok by exact E0.
  erewrite js_bind_ok by reflexivity.
  erewrite js_bind_ok by reflexivity.
  cbn [mutationCounter with_mutationCounter].
  destruct Hs0 as (I1 & I2 & I3 & I4 & I5 & I6).
  destruct (80 <=? mutationCounter s0 + 1)%Z eqn:Hc.
  - unfold onPage at 1. erewrite js_bind_ok.
    2:{ unfold onPage. rewrite garbageCollect_total. reflexivity. }
    simpl. unfold settled. simpl. rewrite Hen0.
    repeat split; try done; lia.
  - simpl. unfold settled. simpl. rewrite Hen0.
    apply Z.leb_gt in Hc.
    repeat split; try done; lia.
Qed.

Lemma settled_LocalBatch ok H ns n s :
  settled ok n s → settled ok n (stateAfter (frameCallback H (LocalBatch ns)) s).
Proof.
  intros Hs. destruct (a11yEnabled s) eqn:Hen.
  - eapply settled_sameSchedule; [|done|done].
    apply sameControl_sameSchedule.
    apply (keepsControl_forEach ns (λ x, runLocalEnhancements H (Some x))).
    intros x. apply keepsControl_runLocalEnhancements.
  - unfold stateAfter. by rewrite frameCallback_disabled.
Qed.

Lemma settled_GlobalPass ok H n s :
  settled ok (S n) s → settled ok n (stateAfter (frameCallback H GlobalPass) s).
Proof.
  intros (I1 & I2 & I3 & I4 & I5 & I6).
  assert (enhancementScheduled s = true ∧ n = 0%nat ∧ pendingPasses (frameQueue s) = 0%nat)
    as (Hf & -> & Hq).
  { destruct (enhancementScheduled s); [lia|lia]. }
  unfold stateAfter. rewrite frameCallback_GlobalPass.
  set (s1 := with_enhancementScheduled false s).
  pose proof (keepsControl_runGlobalEnhancements H (pendingItemCount s) s1) as Hk.
  destruct (a11yEnabled s) eqn:Hen.
  2:{ erewrite js_bind_ok by (by apply runGlobalEnhancements_disabled).
      simpl. unfold settled. simpl. rewrite Hq, Hen. simpl.
      repeat split; try done; try lia.
      all: match goal with
           | Hok : _ = true |- _ => by destruct (I6 Hok eq_refl) as (? & ? & ? & ? & ? & ?)
           end. }
  unfold mbind, Js_bind, js_bind.
  destruct (runGlobalEnhancements H (pendingItemCount s) s1) as [[[]|e] s2].
  all: destruct Hk as (Ha & Ho & Hfl & _ & _ & Hc & Hp & _ & Hobs & _ & Hfq).
  all: subst s1; cbn -[pendingPasses] in *.
  all: unfold settled; cbn -[pendingPasses].
  all: rewrite ?Ha, ?Ho, ?Hfl, ?Hc, ?Hp, ?Hobs, ?Hfq, ?Hq, ?Hen.
  all: repeat split; try done; lia.
Qed.

Lemma settled_frames ok H (q : list FrameCallback) : ∀ s,
  settled ok (pendingPasses q) s →
  settled ok 0 (foldl (λ s' cb, stateAfter (frameCallback H cb) s') s q).
Proof.
  induction q as [|cb q IH]; intros s Hs; simpl; [done|].
  apply IH. destruct cb as [ns|].
  - apply settled_LocalBatch. exact Hs.
  - apply settled_GlobalPass. exact Hs.
Qed.

Lemma settled_animationFrame ok H s :
  settled ok 0 s → settled ok 0 (animationFrame H s).
Proof.
  intros (I1 & I2 & I3 & I4 & I5 & I6). unfold animationFrame.
  apply settled_frames. unfold settled. simpl.
  change (pendingPasses []) with 0%nat. rewrite Nat.add_0_r. simpl in I1.
  repeat split; try done; try lia; by apply I6.
Qed.

Lemma settled_fire ok H ev s :
  (ok = true → storageKept ev = true) →
  settled ok 0 s → settled ok 0 (fire H ev s).
Proof.
  intros Hkept Hs. destruct ev as [saved|mutations| | |f]; simpl.
  - destruct saved.
    + unfold stateAfter. rewrite toggleListener_saved. by apply settled_toggleClick.
    + unfold stateAfter. rewrite toggleListener_refused. cbn [snd].
      destruct ok; [by specialize (Hkept eq_refl)|].
      destruct Hs as (I1 & I2 & I3 & I4 & _). unfold settled. simpl.
      split; [done|]. split; [done|]. split; [done|]. split; [done|].
      split; intros [=].
  - case_bool_decide; [done|]. by apply settled_observerCallback.
  - by apply settled_animationFrame.
  - destruct (timerQueue s) as [|[region text] rest]; [done|].
    destruct Hs as (I1 & I2 & I3 & I4 & I5 & I6).
    unfold settled. simpl. repeat split; try done; try lia; by apply I6.
  - destruct Hs as (I1 & I2 & I3 & I4 & I5 & I6).
    unfold settled. simpl. repeat split; try done; try lia; by apply I6.
Qed.

Lemma settled_runEvents ok H evs : ∀ s,
  (ok = true → forallb storageKept evs = true) →
  settled ok 0 s → settled ok 0 (runEvents H evs s).
Proof.
  induction evs as [|ev evs IH]; intros s Hkept Hs; simpl; [done|].
  apply IH.
  - intros Hok. by apply Hkept, andb_true_iff in Hok as [_ ?].
  - apply settled_fire; [|done].
    intros Hok. by apply Hkept, andb_true_iff in Hok as [? _].
Qed.

Lemma settled_startUp ok H supported stored d :
  settled ok 0 (stateAfter (startUp H stored) (engineAtLoad supported d)).
Proof.
  assert (settled ok 0 (engineAtLoad supported d)) as H0.
  { unfold settled. simpl. repeat split; try done; lia. }
  unfold stateAfter, startUp.
  destruct (body _); [|done].
  case_bool_decide; [|done].
  erewrite js_bind_ok by reflexivity.
  erewrite js_bind_ok by reflexivity.
  destruct stored; cbn [a11yEnabled with_a11yEnabled].
  - apply settled_enableA11Y; [done|]. by apply settled_enabling.
  - done.
Qed.

Lemma settled_session ok H supported stored d evs :
  (ok = true → forallb storageKept evs = true) →
  settled ok 0 (session H supported stored d evs).
Proof. intros Hkept. apply settled_runEvents; [done|apply settled_startUp]. Qed.

(** ** What holds throughout a session *)

(** X8 — At most one global pass is pending, and the flag says which.
    However the toggle is clicked, mutations arrive, frames and timers run
    and the page changes its document, between two callbacks the frame queue
    holds one global pass when [enhancementScheduled] is set and none when it
    is not — also after passes that threw. *)
Theorem one_global_pass_pending (H : Heuristics) (supported stored : bool) (d : Document)
    (evs : list Event) :
  let s := session H supported stored d evs in
  pendingPasses (frameQueue s) = if enhancementScheduled s then 1%nat else 0%nat.
Proof.
  intros s. destruct (settled_session false H supported stored d evs) as (I1 & _); [done|]. exact I1.
Qed.

(** A click whose preference the browser refuses to store flips the flag
    and stops.  On an engine that start-up enabled, the flag then says
    disabled while the observer goes on observing and the skip link, the
    stylesheet and the ledger stay as they are. *)
Lemma refused_click_leaves_engine_running :
  let s0 := session quietHeuristics true true sampleDocument [] in
  let s := session quietHeuristics true true sampleDocument [ToggleClicked false] in
  (toggleListener quietHeuristics false s0).1 = Throw DOMException ∧
  a11yEnabled s = false ∧
  s = with_a11yEnabled false s0 ∧
  length (observations s) = 1%nat ∧
  is_Some (mutationObserver s) ∧ is_Some (skipLinkEl s) ∧ is_Some (globalStyleEl s).
Proof.
  vm_compute. repeat (split; [reflexivity|]). repeat split; by eexists.
Qed.

(** X9 — The page is observed by at most one observer, the one the engine
    holds in [mutationObserver], whatever the events; and as long as the
    browser has stored the preference at every click of the toggle
    ([localStorage.setItem] returned), by none while the engine is
    disabled. *)
Theorem observer_registered_once (H : Heuristics) (supported stored : bool) (d : Document)
    (evs : list Event) :
  let s := session H supported stored d evs in
  (observations s).*1 = option_list (mutationObserver s) ∧
  (length (observations s) ≤ 1)%nat ∧
  (forallb storageKept evs = true → a11yEnabled s = true ∨ observations s = []).
Proof.
  intros s.
  destruct (settled_session false H supported stored d evs) as (_ & _ & _ & I4 & _);
    [done|].
  fold s in I4. split; [exact I4|]. split.
  - rewrite <- (length_fmap fst), I4. destruct (mutationObserver s); simpl; lia.
  - intros Hkept.
    destruct (settled_session true H supported stored d evs) as (_ & _ & _ & _ & I5 & _);
      [done|].
    fold s in I5.
    destruct (mutationObserver s) as [o|] eqn:Hm; simpl in I4.
    + left. apply I5; [done|]. by eexists.
    + apply fmap_nil_inv in I4. by right.
Qed.

Lemma observer_registered_once_witness :
  let evs := [MutationsObserved [mkMutationRecord "childList" [5; 6; 7]%positive];
              ToggleClicked true; FrameTick; ToggleClicked true; ToggleClicked true] in
  let s := session quietHeuristics true true feedDocument evs in
  forallb storageKept evs = true ∧
  a11yEnabled s = false ∧
  observations s = [].
Proof.
  intros evs s.
  assert (forallb storageKept evs = true) as Hkept by reflexivity.
  assert (a11yEnabled s = false) as Hoff by (vm_compute; reflexivity).
  split; [exact Hkept|]. split; [exact Hoff|].
  destruct (observer_registered_once quietHeuristics true true feedDocument evs)
    as (_ & _ & Hnone).
  destruct (Hnone Hkept) as [Hon|Hobs]; [|exact Hobs].
  fold s in Hon. rewrite Hoff in Hon. discriminate Hon.
Defined.

(** X10 — The counters stay in range: [mutationCounter] counts the observer
    callbacks since the last collection and never reaches 80, and
    [pendingItemCount] is never negative. *)
Theorem counters_in_range (H : Heuristics) (supported stored : bool) (d : Document)
    (evs : list Event) :
  let s := session H supported stored d evs in
  (0 ≤ mutationCounter s < 80)%Z ∧ (0 ≤ pendingItemCount s)%Z.
Proof.
  intros s.
  destruct (settled_session false H supported stored d evs) as (_ & I2 & I3 & _); done.
Qed.

(** X11 — A disabled engine holds nothing.  As long as the browser has
    stored the preference at every click of the toggle
    ([localStorage.setItem] returned, so that every click got to its
    [enableA11Y] or [disableA11Y]): whenever [a11yEnabled] is false, at
    start-up or after any sequence of events, the ledger is empty, the skip
    link, the live region and the stylesheet are forgotten, no observer is
    held and both counters are zero: frames and timers left over from the
    enabled time bring nothing back. *)
Theorem disabled_engine_holds_nothing (H : Heuristics) (supported stored : bool)
    (d : Document) (evs : list Event) :
  let s := session H supported stored d evs in
  forallb storageKept evs = true →
  a11yEnabled s = false →
  changeLog (page s) = ∅ ∧ mutationObserver s = None ∧
  skipLinkEl s = None ∧ liveRegionEl s = None ∧ globalStyleEl s = None ∧
  pendingItemCount s = 0%Z ∧ mutationCounter s = 0%Z.
Proof.
  intros s Hkept Hoff.
  destruct (settled_session true H supported stored d evs) as (_ & _ & _ & _ & I5 & I6);
    [done|].
  fold s in I5, I6. destruct (I6 eq_refl Hoff) as (? & ? & ? & ? & ? & ?).
  repeat split; try done.
  destruct (mutationObserver s) eqn:Hm; [|done].
  rewrite I5 in Hoff by (done || by eexists). done.
Qed.

Lemma disabled_engine_holds_nothing_witness :
  let evs := [MutationsObserved [mkMutationRecord "childList" [5; 6; 7]%positive];
              ToggleClicked true; FrameTick; TimerFired] in
  let s := session quietHeuristics true true feedDocument evs in
  forallb storageKept evs = true ∧
  a11yEnabled s = false ∧
  changeLog (page s) = ∅ ∧ mutationObserver s = None ∧
  skipLinkEl s = None ∧ liveRegionEl s = None ∧ globalStyleEl s = None ∧
  pendingItemCount s = 0%Z ∧ mutationCounter s = 0%Z.
Proof.
  intros evs s.
  assert (forallb storageKept evs = true) as Hkept by reflexivity.
  assert (a11yEnabled s = false) as Hoff by (vm_compute; reflexivity).
  split; [exact Hkept|]. split; [exact Hoff|].
  exact (disabled_engine_holds_nothing quietHeuristics true true feedDocument evs
           Hkept Hoff).
Defined.

(* ===================================================================== *)
(** * Elements of the engine's own *)

(** ** The tree primitives *)

Lemma nodes_setConnected_other b els el : ∀ d,
  el ∉ els → nodes (setConnected b els d) el = nodes d el.
Proof.
  induction els as [|x els IH]; intros d Hnot; simpl; [done|].
  apply not_elem_of_cons in Hnot as [Hne Hnot].
  rewrite fn_lookup_insert_ne by done. by apply IH.
Qed.

Lemma nextNode_setConnected b els : ∀ d, nextNode (setConnected b els d) = nextNode d.
Proof. induction els as [|x els IH]; intros d; simpl; [done|apply IH]. Qed.

(** What [setConnected] changes of a node is its connection. *)
Lemma field_setConnected {X} (proj : Node → X) b els el :
  (∀ c n, proj (with_isConnected c n) = proj n) →
  ∀ d, proj (nodes (setConnected b els d) el) = proj (nodes d el).
Proof.
  intros Hproj. induction els as [|x els IH]; intros d; simpl; [done|].
  destruct (decide (x = el)) as [->|Hne].
  - rewrite fn_lookup_insert, Hproj. apply IH.
  - rewrite fn_lookup_insert_ne by done. apply IH.
Qed.

Lemma descendants_of_childless n d r :
  (∀ c, c ∈ childNodes (nodes d r) → c = r) →
  ∀ x, x ∈ descendantsUpTo n d r → x = r.
Proof.
  intros Hkids. induction n as [|n IH]; intros x Hx; simpl in Hx.
  - by apply elem_of_nil in Hx.
  - apply list_elem_of_In, in_flat_map in Hx as (c & Hc & Hx).
    apply list_elem_of_In in Hc. apply Hkids in Hc as ->.
    apply list_elem_of_In, elem_of_cons in Hx as [->|Hx]; [done|by apply IH].
Qed.

(** Linking a new element that has no parent and no children changes the
    child list of the parent and the element itself, nothing else. *)
Lemma nodes_link_fresh f parent r d el :
  parentNode (nodes d r) = None → childNodes (nodes d r) = [] → el ≠ r →
  nodes (link f parent r d) el =
  if decide (parent = el)
  then with_childNodes (if f then r :: childNodes (nodes d el)
                        else childNodes (nodes d el) ++ [r]) (nodes d el)
  else nodes d el.
Proof.
  intros Hpar Hkids Hne. unfold link, unlink. rewrite Hpar.
  rewrite nodes_setConnected_other.
  - unfold updNode. simpl. rewrite fn_lookup_insert_ne by done.
    destruct (decide (parent = el)) as [->|Hne'].
    + by rewrite fn_lookup_insert.
    + by rewrite fn_lookup_insert_ne.
  - unfold subtree. intros Hin. apply elem_of_cons in Hin as [?|Hin]; [done|].
    apply descendants_of_childless in Hin; [done|].
    intros c. unfold updNode. simpl. destruct (decide (parent = r)) as [->|Hne'].
    + rewrite fn_lookup_insert. simpl. rewrite Hkids.
      destruct f; simpl; intros Hc; apply list_elem_of_singleton in Hc; done.
    + rewrite fn_lookup_insert_ne by done. rewrite Hkids. by intros ?%elem_of_nil.
Qed.

Lemma field_link_fresh {X} (proj : Node → X) f parent r d el :
  (∀ c n, proj (with_isConnected c n) = proj n) →
  (∀ c n, proj (with_childNodes c n) = proj n) →
  (∀ c n, proj (with_parentNode c n) = proj n) →
  parentNode (nodes d r) = None →
  proj (nodes (link f parent r d) el) = proj (nodes d el).
Proof.
  intros H1 H2 H3 Hpar. unfold link, unlink. rewrite Hpar.
  rewrite field_setConnected by done.
  unfold updNode. simpl. destruct (decide (r = el)) as [->|Hne].
  - rewrite fn_lookup_insert, H3.
    destruct (decide (parent = el)) as [->|Hne'].
    + by rewrite fn_lookup_insert, H2.
    + by rewrite fn_lookup_insert_ne.
  - rewrite fn_lookup_insert_ne by done.
    destruct (decide (parent = el)) as [->|Hne'].
    + by rewrite fn_lookup_insert, H2.
    + by rewrite fn_lookup_insert_ne.
Qed.

Lemma parentNode_link f parent r d :
  parentNode (nodes (link f parent r d) r) = Some parent.
Proof.
  unfold link. rewrite parentNode_setConnected.
  unfold updNode at 1. simpl. by rewrite fn_lookup_insert.
Qed.

Lemma nextNode_link f parent r d :
  parentNode (nodes d r) = None → nextNode (link f parent r d) = nextNode d.
Proof. intros Hpar. unfold link, unlink. rewrite Hpar. by rewrite nextNode_setConnected. Qed.

(** ** What the engine's own elements leave alone *)

Lemma keepsOld_refl bound p : keepsOld bound p p.
Proof. by repeat split. Qed.

Lemma keepsOld_trans bound p1 p2 p3 :
  keepsOld bound p1 p2 → keepsOld bound p2 p3 → keepsOld bound p1 p3.
Proof.
  intros (L1 & N1 & O1) (L2 & N2 & O2). split; [congruence|]. split; [lia|].
  intros el Hel. destruct (O1 el Hel) as (? & ? & ? & ?).
  destruct (O2 el Hel) as (? & ? & ? & ?). repeat split; congruence.
Qed.

Lemma keepsOld_createElement tag p bound :
  (bound ≤ nextNode (doc p))%positive → keepsOld bound p (createElement tag p).2.
Proof.
  intros Hb. unfold createElement. simpl. split; [done|]. split; [simpl; lia|].
  intros el Hel. unfold nodeOf. simpl.
  rewrite fn_lookup_insert_ne by lia. done.
Qed.

Lemma nodeOf_setAttributeOn r a v p el :
  nodeOf (setAttributeOn r a v p) el =
  if decide (r = el)
  then with_attributes (<[a := v]> (attributes (nodeOf p r))) (nodeOf p r)
  else nodeOf p el.
Proof. unfold setAttributeOn. by rewrite nodeOf_updNode. Qed.

Lemma keepsOld_setAttributeOn r a v p bound :
  (bound ≤ r)%positive → keepsOld bound p (setAttributeOn r a v p).
Proof.
  intros Hb. split; [done|]. split; [simpl; lia|].
  intros el Hel. rewrite nodeOf_setAttributeOn, decide_False by lia. done.
Qed.

Lemma keepsOld_textContent r text p bound :
  keepsOld bound p (with_doc (updNode r (with_textContent text) (doc p)) p).
Proof.
  split; [done|]. split; [simpl; lia|].
  intros el Hel. rewrite nodeOf_updNode. by case_decide; subst.
Qed.

Lemma keepsOld_link f parent r p bound :
  (bound ≤ r)%positive →
  parentNode (nodeOf p r) = None → childNodes (nodeOf p r) = [] →
  keepsOld bound p (with_doc (link f parent r (doc p)) p).
Proof.
  intros Hb Hpar Hkids. split; [done|]. split.
  { unfold with_doc. cbn [doc]. rewrite nextNode_link by done. lia. }
  intros el Hel. unfold nodeOf, with_doc. cbn [doc].
  rewrite nodes_link_fresh by (done || lia).
  by case_decide.
Qed.

Lemma onPage_ok {A} (m : Js Page A) s a p' :
  m (page s) = (Ok a, p') → onPage m s = (Ok a, with_page p' s).
Proof. intros E. unfold onPage. by rewrite E. Qed.

(** ** Building an element *)

Lemma nodeOf_setAttributes r (attrs : list (string * string)) : ∀ p el,
  nodeOf (foldl (λ q kv, setAttributeOn r kv.1 kv.2 q) p attrs) el =
  if decide (r = el)
  then with_attributes (foldl (λ m kv, <[kv.1 := kv.2]> m) (attributes (nodeOf p r)) attrs)
         (nodeOf p r)
  else nodeOf p el.
Proof.
  induction attrs as [|[a v] attrs IH]; intros p el; simpl.
  - case_decide; [subst; by destruct (nodeOf p el)|done].
  - rewrite IH. case_decide; [|by rewrite nodeOf_setAttributeOn, decide_False].
    by rewrite nodeOf_setAttributeOn, decide_True.
Qed.

Lemma keepsOld_setAttributes r (attrs : list (string * string)) bound : ∀ p,
  (bound ≤ r)%positive →
  keepsOld bound p (foldl (λ q kv, setAttributeOn r kv.1 kv.2 q) p attrs).
Proof.
  induction attrs as [|[a v] attrs IH]; intros p Hb; simpl.
  - apply keepsOld_refl.
  - eapply keepsOld_trans; [by apply keepsOld_setAttributeOn|by apply IH].
Qed.

Lemma nextNode_setAttributes r (attrs : list (string * string)) : ∀ p,
  nextNode (doc (foldl (λ q kv, setAttributeOn r kv.1 kv.2 q) p attrs)) = nextNode (doc p).
Proof. induction attrs as [|[a v] attrs IH]; intros p; simpl; [done|by rewrite IH]. Qed.

(** The element before it is inserted. *)
Lemma built_before_link tag attrs text p :
  let r := nextNode (doc p) in
  let p2 := foldl (λ q kv, setAttributeOn r kv.1 kv.2 q) (createElement tag p).2 attrs in
  let p3 := match text with
            | Some t => with_doc (updNode r (with_textContent t) (doc p2)) p2
            | None => p2
            end in
  nodeOf p3 r =
    with_textContent (default "" text)
      (with_attributes (foldl (λ m kv, <[kv.1 := kv.2]> m) ∅ attrs) (newElement tag)) ∧
  keepsOld r p p3 ∧ nextNode (doc p3) = Pos.succ r.
Proof.
  intros r p2 p3.
  assert (nodeOf (createElement tag p).2 r = newElement tag) as Hnew.
  { unfold nodeOf, createElement. simpl. by rewrite fn_lookup_insert. }
  assert (nodeOf p2 r =
          with_attributes (foldl (λ m kv, <[kv.1 := kv.2]> m) ∅ attrs) (newElement tag)) as H2.
  { unfold p2. by rewrite nodeOf_setAttributes, decide_True, Hnew. }
  assert (keepsOld r p p2) as K2.
  { eapply keepsOld_trans; [apply keepsOld_createElement; fold r; lia|].
    by apply keepsOld_setAttributes. }
  assert (nextNode (doc p2) = Pos.succ r) as N2.
  { unfold p2. by rewrite nextNode_setAttributes. }
  destruct text as [t|]; subst p3; cbv iota.
  - split; [|split].
    + by rewrite nodeOf_updNode, decide_True, H2.
    + eapply keepsOld_trans; [exact K2|apply keepsOld_textContent].
    + exact N2.
  - split; [|split]; [by rewrite H2|exact K2|exact N2].
Qed.

(** What building an element gives: the element is new, has the attributes
    it was given and nothing else, and sits under its parent; the ledger and
    the nodes there were before are as they were. *)
Lemma built_spec tag attrs text atFront parent p :
  let r := nextNode (doc p) in
  let p' := built tag attrs text atFront parent p in
  keepsOld r p p' ∧
  nextNode (doc p') = Pos.succ r ∧
  parentNode (nodeOf p' r) = Some parent ∧
  isElement p' r = true ∧
  tagName (nodeOf p' r) = tag ∧
  attributes (nodeOf p' r) = foldl (λ m kv, <[kv.1 := kv.2]> m) ∅ attrs ∧
  style (nodeOf p' r) = ∅ ∧
  textContent (nodeOf p' r) = default "" text.
Proof.
  intros r p'.
  destruct (built_before_link tag attrs text p) as (H3 & K3 & N3).
  fold r in H3, K3, N3.
  set (p3 := match text with
             | Some t => with_doc (updNode r (with_textContent t) (doc _)) _
             | None => _
             end) in *.
  assert (p' = with_doc (link atFront parent r (doc p3)) p3) as -> by reflexivity.
  assert (parentNode (nodeOf p3 r) = None) as Hpar by (by rewrite H3).
  assert (childNodes (nodeOf p3 r) = []) as Hkids by (by rewrite H3).
  split; [|split; [|split]].
  - eapply keepsOld_trans; [exact K3|]. apply keepsOld_link; [lia|done|done].
  - unfold with_doc. cbn [doc]. by rewrite nextNode_link.
  - unfold nodeOf, with_doc. cbn [doc]. apply parentNode_link.
  - unfold isElement, nodeOf, with_doc. cbn [doc].
    rewrite !(field_link_fresh _ atFront parent r (doc p3) r) by done.
    fold (nodeOf p3 r). rewrite H3. done.
Qed.

Lemma isElement_created tag p : isElement (createElement tag p).2 (nextNode (doc p)) = true.
Proof. unfold isElement, nodeOf, createElement. simpl. by rewrite fn_lookup_insert. Qed.

Lemma isElement_textContent r text p el :
  isElement (with_doc (updNode r (with_textContent text) (doc p)) p) el = isElement p el.
Proof. by apply isElement_updNode. Qed.

Ltac set_attribute_on_new :=
  erewrite js_bind_ok;
  [|apply onPage_ok, setAttribute_element; cbn [page with_page];
    rewrite ?isElement_textContent, ?isElement_setAttributeOn; apply isElement_created].

Lemma getLiveRegion_creates s b :
  a11yEnabled s = true → attached (page s) (liveRegionEl s) = false →
  body (doc (page s)) = Some b →
  getLiveRegion s =
  (Ok (Some (nextNode (doc (page s)))),
   with_liveRegionEl (Some (nextNode (doc (page s))))
     (with_page (built "DIV" liveRegionAttributes None false b (page s)) s)).
Proof.
  intros Hen Hatt Hb. unfold getLiveRegion. rewrite Hen, Hatt, Hb. simpl negb. cbv iota.
  erewrite js_bind_ok by (apply onPage_ok; reflexivity).
  do 4 set_attribute_on_new.
  erewrite js_bind_ok by reflexivity.
  erewrite js_bind_ok by reflexivity.
  reflexivity.
Qed.


(** ** The live region *)

Lemma announce_attached text s r :
  a11yEnabled s = true → text ≠ "" →
  liveRegionEl s = Some r → is_Some (parentNode (nodeOf (page s) r)) →
  announce text s =
  (Ok tt,
   with_timerQueue (timerQueue s ++ [SetRegionText r text])
     (with_page (with_doc (updNode r (with_textContent "") (doc (page s))) (page s)) s)).
Proof.
  intros Hen Htext Hr Hpar. unfold announce, whenEnabled. rewrite Hen. simpl negb. cbv iota.
  rewrite decide_False by done.
  erewrite js_bind_ok.
  2:{ unfold getLiveRegion. rewrite Hen. simpl negb. cbv iota.
      unfold attached. rewrite Hr. rewrite bool_decide_eq_true_2 by done. reflexivity. }
  cbv beta iota. erewrite js_bind_ok by reflexivity. reflexivity.
Qed.

Lemma announce_detached text s b :
  a11yEnabled s = true → text ≠ "" →
  attached (page s) (liveRegionEl s) = false → body (doc (page s)) = Some b →
  let r := nextNode (doc (page s)) in
  let p' := built "DIV" liveRegionAttributes None false b (page s) in
  announce text s =
  (Ok tt,
   with_timerQueue (timerQueue s ++ [SetRegionText r text])
     (with_page (with_doc (updNode r (with_textContent "") (doc p')) p')
        (with_liveRegionEl (Some r) s))).
Proof.
  intros Hen Htext Hatt Hb r p'. unfold announce, whenEnabled.
  rewrite Hen. simpl negb. cbv iota.
  rewrite decide_False by done.
  erewrite js_bind_ok by (by apply getLiveRegion_creates).
  cbv beta iota. erewrite js_bind_ok by reflexivity. reflexivity.
Qed.

Lemma announceAll_attached (texts : list string) r : ∀ s,
  a11yEnabled s = true → Forall (λ t, t ≠ "") texts →
  liveRegionEl s = Some r → is_Some (parentNode (nodeOf (page s) r)) →
  let s' := announceAll texts s in
  liveRegionEl s' = Some r ∧
  timerQueue s' = (timerQueue s ++ map (SetRegionText r) texts)%list ∧
  parentNode (nodeOf (page s') r) = parentNode (nodeOf (page s) r) ∧
  attributes (nodeOf (page s') r) = attributes (nodeOf (page s) r) ∧
  nextNode (doc (page s')) = nextNode (doc (page s)) ∧
  changeLog (page s') = changeLog (page s) ∧
  textContent (nodeOf (page s') r) =
    match texts with [] => textContent (nodeOf (page s) r) | _ => "" end.
Proof.
  induction texts as [|t texts IH]; intros s Hen Hall Hr Hpar.
  - simpl. by rewrite app_nil_r.
  - apply Forall_cons_1 in Hall as [Ht Hall].
    pose (s1 := with_timerQueue (timerQueue s ++ [SetRegionText r t])
                  (with_page (with_doc (updNode r (with_textContent "") (doc (page s)))
                                (page s)) s)).
    assert (announceAll (t :: texts) s = announceAll texts s1) as ->.
    { unfold announceAll. simpl foldl. unfold stateAfter at 2.
      by rewrite (announce_attached t s r). }
    assert (nodeOf (page s1) r = with_textContent "" (nodeOf (page s) r)) as Hn.
    { unfold s1. cbn [page with_timerQueue with_page].
      by rewrite nodeOf_updNode, decide_True. }
    destruct (IH s1) as (I1 & I2 & I3 & I4 & I5 & I6 & I7); try done.
    { by rewrite Hn. }
    cbv zeta. rewrite I1, I2, I3, I4, I5, I6, I7, Hn.
    unfold s1. cbn [timerQueue with_timerQueue with_page]. rewrite <- app_assoc.
    repeat split; try done. by destruct texts.
Qed.

(** X12 — Announcements share one live region.  However many texts an
    enabled engine announces in a row, it creates at most one element: the
    live region it holds if that is in the document, a new [div] under the
    body with [role="status"] and [aria-live="polite"] if not.  The region
    is emptied, every text is queued for it in the order announced, and the
    ledger does not hear of any of it. *)
Theorem announcements_share_one_region (texts : list string) (s : Engine) (b : node) :
  a11yEnabled s = true → body (doc (page s)) = Some b →
  texts ≠ [] → Forall (λ t, t ≠ "") texts →
  let s' := announceAll texts s in
  ∃ r, liveRegionEl s' = Some r ∧
       timerQueue s' = (timerQueue s ++ map (SetRegionText r) texts)%list ∧
       is_Some (parentNode (nodeOf (page s') r)) ∧
       textContent (nodeOf (page s') r) = "" ∧
       changeLog (page s') = changeLog (page s) ∧
       if attached (page s) (liveRegionEl s)
       then liveRegionEl s = Some r ∧
            nextNode (doc (page s')) = nextNode (doc (page s))
       else r = nextNode (doc (page s)) ∧
            nextNode (doc (page s')) = Pos.succ r ∧
            parentNode (nodeOf (page s') r) = Some b ∧
            attributes (nodeOf (page s') r) = list_to_map liveRegionAttributes.
Proof.
  intros Hen Hb Hne Hall s'.
  destruct (attached (page s) (liveRegionEl s)) eqn:Hatt.
  - unfold attached in Hatt. destruct (liveRegionEl s) as [r|] eqn:Hr; [|done].
    apply bool_decide_eq_true_1 in Hatt.
    destruct (announceAll_attached texts r s) as (I1 & I2 & I3 & I4 & I5 & I6 & I7);
      try done.
    exists r. fold s' in I1, I2, I3, I4, I5, I6, I7.
    rewrite I3, I7. repeat split; try done. by destruct texts.
  - destruct texts as [|t texts]; [done|].
    apply Forall_cons_1 in Hall as [Ht Hall].
    set (r := nextNode (doc (page s))).
    set (p' := built "DIV" liveRegionAttributes None false b (page s)).
    destruct (built_spec "DIV" liveRegionAttributes None false b (page s))
      as (K & N & P & E & T & A & _).
    fold r p' in K, N, P, E, T, A.
    pose (s1 := with_timerQueue (timerQueue s ++ [SetRegionText r t])
                  (with_page (with_doc (updNode r (with_textContent "") (doc p')) p')
                     (with_liveRegionEl (Some r) s))).
    assert (s' = announceAll texts s1) as ->.
    { unfold s', announceAll. simpl foldl. unfold stateAfter at 2.
      by rewrite (announce_detached t s b). }
    assert (nodeOf (page s1) r = with_textContent "" (nodeOf p' r)) as Hn.
    { unfold s1. cbn [page with_timerQueue with_page].
      by rewrite nodeOf_updNode, decide_True. }
    destruct (announceAll_attached texts r s1) as (I1 & I2 & I3 & I4 & I5 & I6 & I7);
      try done.
    { rewrite Hn. simpl. rewrite P. by eexists. }
    exists r.
    rewrite I1, I2, I3, I4, I5, I6, I7, Hn.
    assert (timerQueue s1 = (timerQueue s ++ [SetRegionText r t])%list) as -> by done.
    assert (changeLog (page s1) = changeLog p') as -> by done.
    assert (nextNode (doc (page s1)) = nextNode (doc p')) as -> by done.
    destruct K as (-> & _). clearbody p' s1.
    cbn [parentNode attributes textContent with_textContent].
    rewrite P, A, N, <- app_assoc.
    repeat split; try done; try (by eexists); by destruct texts.
Qed.

Lemma announcements_share_one_region_witness :
  let s := stateAfter (toggleClick quietHeuristics) (initialEngine sampleDocument) in
  let s' := announceAll ["3 more items loaded"; "2 more items loaded"] s in
  ∃ r, liveRegionEl s' = Some r ∧
       timerQueue s' = (timerQueue s ++ map (SetRegionText r)
                          ["3 more items loaded"; "2 more items loaded"])%list ∧
       is_Some (parentNode (nodeOf (page s') r)) ∧
       textContent (nodeOf (page s') r) = "" ∧
       changeLog (page s') = changeLog (page s) ∧
       if attached (page s) (liveRegionEl s)
       then liveRegionEl s = Some r ∧
            nextNode (doc (page s')) = nextNode (doc (page s))
       else r = nextNode (doc (page s)) ∧
            nextNode (doc (page s')) = Pos.succ r ∧
            parentNode (nodeOf (page s') r) = Some 4%positive ∧
            attributes (nodeOf (page s') r) = list_to_map liveRegionAttributes.
Proof.
  intros s.
  apply (announcements_share_one_region
           ["3 more items loaded"; "2 more items loaded"] s 4%positive).
  - vm_compute. reflexivity.
  - vm_compute. reflexivity.
  - intros Hx. discriminate Hx.
  - repeat constructor; intros Hx; discriminate Hx.
Defined.

(** ** The skip link *)

Lemma skipLink_creation s b main :
  (skip ← onPage (createElement "A");
   s' ← js_get;
   onPage (setAttribute skip "href" ("#" +:+ idOf (page s') main));;
   onPage (setAttribute skip "class" "a11y-skip-link");;
   onPage (setTextContent skip "Skip to main content");;
   onPage (insertFirst b skip);;
   js_modify (with_skipLinkEl (Some skip))) s =
  (Ok tt,
   with_skipLinkEl (Some (nextNode (doc (page s))))
     (with_page (built "A" (skipLinkAttributes (idOf (createElement "A" (page s)).2 main))
                   (Some "Skip to main content") true b (page s)) s)).
Proof.
  erewrite js_bind_ok by (apply onPage_ok; reflexivity).
  erewrite js_bind_ok by reflexivity.
  do 2 set_attribute_on_new.
  erewrite js_bind_ok by reflexivity.
  erewrite js_bind_ok by reflexivity.
  reflexivity.
Qed.

Lemma idOf_keepsOld bound p p' el :
  keepsOld bound p p' → (el < bound)%positive → idOf p' el = idOf p el.
Proof.
  intros (_ & _ & Hold) Hel. unfold idOf.
  destruct (Hold el Hel) as (_ & -> & _). done.
Qed.

(** X13 — The skip link has a target.  When an enabled engine adds the skip
    link, the link is a new first child of the body whose [href] is [#]
    followed by the id of the main candidate, and that id is not empty: an
    id the candidate had is kept and the ledger is left alone, a missing or
    empty one becomes [a11y-main] by a write the ledger has recorded. *)
Theorem skip_link_has_a_target (s : Engine) (b : node) :
  let main := mainCandidateOf b (page s) in
  let s' := stateAfter addSkipLink s in
  a11yEnabled s = true → body (doc (page s)) = Some b →
  attached (page s) (skipLinkEl s) = false →
  isElement (page s) main = true → (main < nextNode (doc (page s)))%positive →
  ∃ skip,
    addSkipLink s = (Ok tt, s') ∧
    skipLinkEl s' = Some skip ∧ skip = nextNode (doc (page s)) ∧
    parentNode (nodeOf (page s') skip) = Some b ∧
    List.head (childNodes (nodeOf (page s') b)) = Some skip ∧
    idOf (page s') main ≠ "" ∧
    attributes (nodeOf (page s') skip) !! "href" = Some ("#" +:+ idOf (page s') main) ∧
    if decide (idOf (page s) main = "")
    then idOf (page s') main = "a11y-main" ∧
         is_Some (captured (page s') main (AttrKey "id"))
    else idOf (page s') main = idOf (page s) main ∧
         changeLog (page s') = changeLog (page s).
Proof.
  intros main s' Hen Hb Hatt Hmain Hlt.
  set (w := SetAttr main "id" "a11y-main").
  set (p1 := if decide (idOf (page s) main = "") then tracked w (page s) else page s).
  assert (nextNode (doc p1) = nextNode (doc (page s))) as Hnext.
  { unfold p1. by case_decide. }
  set (r := nextNode (doc (page s))).
  set (target := idOf (createElement "A" p1).2 main).
  set (p' := built "A" (skipLinkAttributes target) (Some "Skip to main content") true b p1).
  assert (addSkipLink s = (Ok tt, with_skipLinkEl (Some r) (with_page p' s))) as Hrun.
  { unfold addSkipLink. rewrite Hen, Hb, Hatt. simpl negb. cbv iota.
    fold (mainCandidateOf b (page s)). fold main.
    erewrite js_bind_ok with (s' := with_page p1 s).
    2:{ unfold p1. case_decide; [|by destruct s].
        apply onPage_ok. by apply (exec_element w). }
    rewrite skipLink_creation. cbn [page with_page].
    unfold p', target, r. by rewrite Hnext. }
  destruct (built_spec "A" (skipLinkAttributes target) (Some "Skip to main content")
              true b p1) as (K & N & P & E & T & A & _).
  fold p' in K, N, P, E, T, A. rewrite Hnext in K, N, P, E, T, A. fold r in K, N, P, E, T, A.
  assert (s' = with_skipLinkEl (Some r) (with_page p' s)) as Hs'.
  { unfold s', stateAfter. by rewrite Hrun. }
  assert (idOf p' main = idOf p1 main) as Hid by (by eapply idOf_keepsOld).
  assert (target = idOf p1 main) as Htarget.
  { unfold target. eapply idOf_keepsOld; [|exact Hlt].
    apply keepsOld_createElement. rewrite Hnext. fold r. lia. }
  clearbody s'. subst s'. exists r. cbn [page skipLinkEl with_skipLinkEl with_page].
  split; [exact Hrun|]. split; [done|]. split; [done|]. split; [exact P|].
  split.
  { unfold p', built. unfold nodeOf, with_doc. cbn [doc].
    rewrite Hnext. fold r. unfold link at 1.
    rewrite (field_setConnected (λ n, List.head (childNodes n))) by done.
    unfold updNode at 1. cbn [nodes with_nodes].
    destruct (decide (r = b)) as [->|Hne].
    - rewrite fn_lookup_insert. cbn [childNodes with_parentNode].
      unfold updNode at 1. cbn [nodes with_nodes]. by rewrite fn_lookup_insert.
    - rewrite fn_lookup_insert_ne by done.
      unfold updNode at 1. cbn [nodes with_nodes]. by rewrite fn_lookup_insert. }
  rewrite Hid, A. unfold skipLinkAttributes. simpl foldl.
  rewrite lookup_insert_ne by done. rewrite lookup_insert_eq. rewrite Htarget.
  destruct (decide (idOf (page s) main = "")) as [Hempty|Hfull].
  - assert (p1 = tracked w (page s)) as Hp1 by reflexivity.
    clearbody p1. subst p1.
    assert (idOf (tracked w (page s)) main = "a11y-main") as Hnew.
    { pose proof (current_tracked w (page s) main (AttrKey "id")) as Hc.
      rewrite decide_True in Hc by done. unfold idOf.
      change (attributes (nodeOf (tracked w (page s)) main) !! "id" = Some "a11y-main") in Hc.
      by rewrite Hc. }
    rewrite Hnew. split; [done|]. split; [done|]. split; [done|].
    destruct K as (HL & _). unfold captured. rewrite HL.
    assert (ordinary w) as Hord by (by unfold w).
    pose proof (captured_tracked w (page s) main (AttrKey "id") Hord) as Hc.
    rewrite decide_True in Hc by done. unfold captured in Hc.
    rewrite Hc. by eexists.
  - assert (p1 = page s) as Hp1 by reflexivity.
    clearbody p1. subst p1.
    split; [done|]. split; [done|]. split; [done|].
    by destruct K as (HL & _).
Qed.

Lemma skip_link_has_a_target_witness :
  let s := with_a11yEnabled true (initialEngine sampleDocument) in
  let s' := stateAfter addSkipLink s in
  ∃ skip,
    addSkipLink s = (Ok tt, s') ∧
    skipLinkEl s' = Some skip ∧ skip = nextNode (doc (page s)) ∧
    parentNode (nodeOf (page s') skip) = Some 4%positive ∧
    List.head (childNodes (nodeOf (page s') 4%positive)) = Some skip ∧
    idOf (page s') 4%positive ≠ "" ∧
    attributes (nodeOf (page s') skip) !! "href" = Some ("#" +:+ idOf (page s') 4%positive) ∧
    if decide (idOf (page s) 4%positive = "")
    then idOf (page s') 4%positive = "a11y-main" ∧
         is_Some (captured (page s') 4%positive (AttrKey "id"))
    else idOf (page s') 4%positive = idOf (page s) 4%positive ∧
         changeLog (page s') = changeLog (page s).
Proof.
  intros s.
  apply (skip_link_has_a_target s 4%positive).
  - reflexivity.
  - reflexivity.
  - reflexivity.
  - vm_compute. reflexivity.
  - vm_compute. reflexivity.
Defined.

(* ===================================================================== *)
(** * Toggling on and off again *)

(** ** Rule bodies *)








Lemma respectsLedger_throw {A} e : respectsLedger (js_throw e : Js Page A).
Proof. by intros p0 p x Hu. Qed.






(** ** Rules that write plainly *)


Lemma writesPlainly_same {A} (m : Js Page A) :
  (∀ p, (m p).2 = p) → writesPlainly m.
Proof. intros Hm p. exists []. split; [done|]. by rewrite Hm. Qed.

Lemma writesPlainly_ret {A} (a : A) : writesPlainly (mret a : Js Page A).
Proof. by apply writesPlainly_same. Qed.




Lemma writesPlainly_exec w : plainWrite w = true → writesPlainly (exec w).
Proof. intros Hw p. exists [w]. split; [by rewrite <- Hw; simpl; rewrite andb_true_r|done]. Qed.

Lemma writesPlainly_setAttrTracked el a v :
  plainAttr a = true → writesPlainly (setAttrTracked el a v).
Proof. apply (writesPlainly_exec (SetAttr el a v)). Qed.








(** ** Callbacks of the engine *)



Lemma steady_throw {A} e : steady (js_throw e : Js Engine A).
Proof. by intros p0 s x Hu. Qed.




















(** ** Enable *)





(** ** Disable *)







Lemma writesPlainly_labelLink linkLabel a : writesPlainly (labelLink linkLabel a).
Proof.
  intros p. unfold labelLink.
  repeat (match goal with |- context [if ?c then _ else _] => destruct c end;
          [by exists []|]).
  by apply writesPlainly_setAttrTracked.
Qed.

Lemma respectful_quietHeuristics : respectful quietHeuristics.
Proof.
  unfold respectful. repeat match goal with |- _ ∧ _ => split end.
  all: first [exact (writesPlainly_ret tt) | exact (λ _, writesPlainly_ret tt)].
Qed.





(* ===================================================================== *)
(** * Rules modelled in full *)

(** ** A pass of a rule over the elements it selects *)

(** A rule whose callback never throws on the elements selected, settles
    the element it is called on, leaves settled elements settled and does
    nothing on a settled element, settles every element selected; a second
    pass over the same elements does nothing. *)
Lemma pass_settles (body : node → Js Page unit) (settledAt : Page → node → Prop)
    (I : Page → Prop) (l : list node) :
  (∀ el p, el ∈ l → I p →
     (body el p).1 = Ok tt ∧ I (body el p).2 ∧ settledAt (body el p).2 el ∧
     (∀ el', settledAt p el' → settledAt (body el p).2 el') ∧
     (settledAt p el → (body el p).2 = p)) →
  ∀ p, I p →
  ∃ p', forEach l body p = (Ok tt, p') ∧ I p' ∧
        (∀ el, el ∈ l → settledAt p' el) ∧
        forEach l body p' = (Ok tt, p').
Proof.
  intros Hbody.
  assert (∀ l', l' ⊆ l → ∀ p, I p →
            ∃ p', forEach l' body p = (Ok tt, p') ∧ I p' ∧
                  (∀ el', settledAt p el' → settledAt p' el') ∧
                  (∀ el, el ∈ l' → settledAt p' el)) as HA.
  { induction l' as [|x l' IH]; intros Hsub p Hp.
    - exists p. repeat split; try done. by intros el ?%elem_of_nil.
    - assert (x ∈ l) as Hx by (apply Hsub; left).
      destruct (Hbody x p Hx Hp) as (Hok & HI & Hs & Hst & _).
      destruct (body x p) as [o p1] eqn:E. simpl in *. subst o.
      destruct (IH (λ y Hy, Hsub y (list_elem_of_further _ _ _ Hy)) p1 HI)
        as (p' & E' & HI' & Hst' & Hall).
      exists p'. split; [|split; [done|split]].
      + simpl. erewrite js_bind_ok by exact E. exact E'.
      + intros el' Hel'. by apply Hst', Hst.
      + intros el [->|Hel]%elem_of_cons; [by apply Hst'|by apply Hall]. }
  assert (∀ l', l' ⊆ l → ∀ p, I p → (∀ el, el ∈ l' → settledAt p el) →
            forEach l' body p = (Ok tt, p)) as HB.
  { induction l' as [|x l' IH]; intros Hsub p Hp Hall; [done|].
    assert (x ∈ l) as Hx by (apply Hsub; left).
    destruct (Hbody x p Hx Hp) as (Hok & _ & _ & _ & Hnoop).
    specialize (Hnoop (Hall x (list_elem_of_here _ _))).
    destruct (body x p) as [o p1] eqn:E. simpl in *. subst o p1.
    erewrite js_bind_ok by exact E.
    apply IH; [|done|].
    - intros y Hy. apply Hsub. by right.
    - intros el Hel. apply Hall. by right. }
  intros p Hp. destruct (HA l (λ _ H, H) p Hp) as (p' & E & HI & _ & Hall).
  exists p'. repeat split; try done. by apply HB.
Qed.

(** ** Selections that a rule does not disturb *)

Lemma descendantsUpTo_same_children d d' :
  (∀ el, childNodes (nodes d' el) = childNodes (nodes d el)) →
  ∀ n root, descendantsUpTo n d' root = descendantsUpTo n d root.
Proof.
  intros Hkids. induction n as [|n IH]; intros root; simpl; [done|].
  rewrite Hkids. induction (childNodes (nodes d root)) as [|c cs IHc]; simpl; [done|].
  by rewrite IH, IHc.
Qed.

Lemma sameBut_children names p p' el :
  sameBut names p p' → childNodes (nodeOf p' el) = childNodes (nodeOf p el).
Proof.
  intros (_ & _ & _ & _ & _ & Hn). destruct (Hn el) as (Heq & _).
  by apply (f_equal childNodes) in Heq.
Qed.

Lemma sameBut_isElement names p p' el :
  sameBut names p p' → isElement p' el = isElement p el.
Proof.
  intros (_ & _ & _ & _ & _ & Hn). destruct (Hn el) as (Heq & _).
  unfold isElement. apply (f_equal nodeType) in Heq. simpl in Heq. by rewrite Heq.
Qed.

Lemma sameBut_quirksMode names p p' :
  sameBut names p p' → quirksMode (doc p') = quirksMode (doc p).
Proof. by intros (_ & _ & _ & _ & Hq & _). Qed.

Lemma sameBut_descendants names p p' root :
  sameBut names p p' → descendants p' root = descendants p root.
Proof.
  intros Hs. unfold descendants.
  pose proof Hs as (_ & _ & _ & -> & _).
  apply descendantsUpTo_same_children. intros el.
  by apply (sameBut_children names p p' el).
Qed.

Lemma querySelectorAll_sameBut names root sel p p' :
  sameBut names p p' →
  (∀ el, isElement p el = true → matches p' sel el = matches p sel el) →
  querySelectorAll root sel p' = querySelectorAll root sel p.
Proof.
  intros Hs Hm. unfold querySelectorAll.
  rewrite (sameBut_descendants names p p') by done.
  apply list_filter_iff. intros el.
  rewrite (sameBut_isElement names p p') by done.
  destruct (isElement p el) eqn:HE; [|done]. by rewrite Hm.
Qed.

Lemma sameBut_refl names p : sameBut names p p.
Proof. by repeat split. Qed.

Lemma sameBut_trans names p1 p2 p3 :
  sameBut names p1 p2 → sameBut names p2 p3 → sameBut names p1 p3.
Proof.
  intros (A1 & B1 & C1 & D1 & Q1 & N1) (A2 & B2 & C2 & D2 & Q2 & N2).
  repeat split; try congruence.
  - destruct (N1 el) as (E1 & _). destruct (N2 el) as (E2 & _). congruence.
  - intros a Ha. destruct (N1 el) as (_ & E1). destruct (N2 el) as (_ & E2).
    rewrite E2, E1; done.
Qed.

(** A tracked write of an attribute on an element. *)
Lemma sameBut_setAttrTracked names el a v p :
  a ∈ names → isElement p el = true →
  setAttrTracked el a v p = (Ok tt, tracked (SetAttr el a v) p) ∧
  sameBut names p (tracked (SetAttr el a v) p) ∧
  attributes (nodeOf (tracked (SetAttr el a v) p) el) !! a = Some v ∧
  ∀ el', el' ≠ el → nodeOf (tracked (SetAttr el a v) p) el' = nodeOf p el'.
Proof.
  intros Ha HE. split; [by apply (exec_element (SetAttr el a v))|].
  unfold tracked. simpl. split; [|split].
  - repeat split; try done.
    + rewrite nodeOf_setAttributeOn. case_decide; [subst|]; done.
    + intros b Hb. rewrite nodeOf_setAttributeOn. case_decide; [subst|done].
      simpl. rewrite lookup_insert_ne; [done|]. intros ->. done.
  - rewrite nodeOf_setAttributeOn, decide_True by done. simpl. by rewrite lookup_insert_eq.
  - intros el' Hne. by rewrite nodeOf_setAttributeOn, decide_False.
Qed.

(** ** Tab order *)

Lemma elem_of_querySelectorAll el root sel p :
  el ∈ querySelectorAll root sel p ↔
  (isElement p el = true ∧ matches p sel el = true) ∧ el ∈ descendants p root.
Proof.
  unfold querySelectorAll. rewrite list_elem_of_filter.
  by rewrite andb_true_iff.
Qed.

Lemma normalizeTabIndex_element el p :
  isElement p el = true →
  normalizeTabIndex el p =
  (Ok tt, if positiveTabIndex p el then tracked (SetAttr el "tabindex" "0") p else p).
Proof.
  intros HE. unfold normalizeTabIndex.
  erewrite js_bind_ok by (unfold readAttribute, onElement; by rewrite HE).
  unfold positiveTabIndex.
  destruct (attributes (nodeOf p el) !! "tabindex" ≫= parseInt) as [v|]; [|done].
  destruct (0 <? v)%Z; [|done]. by apply (exec_element (SetAttr el "tabindex" "0")).
Qed.

Lemma positiveTabIndex_zero p el :
  attributes (nodeOf p el) !! "tabindex" = Some "0" → positiveTabIndex p el = false.
Proof. intros E. unfold positiveTabIndex. by rewrite E. Qed.

Lemma positiveTabIndex_same_node p p' el :
  nodeOf p' el = nodeOf p el → positiveTabIndex p' el = positiveTabIndex p el.
Proof. intros E. unfold positiveTabIndex. by rewrite E. Qed.

Lemma positiveTabIndex_has p el :
  positiveTabIndex p el = true → is_Some (attributes (nodeOf p el) !! "tabindex").
Proof.
  unfold positiveTabIndex. destruct (attributes (nodeOf p el) !! "tabindex"); [by eexists|done].
Qed.

(** X15 — No positive tabindex is left.  The body of
    [normalizeTabIndexGlobal] never throws; afterwards no element of the
    document has a [tabindex] that [parseInt] reads as a positive number, so
    that the tab order is the document order; the elements it changed are
    those that had one, and they now read ["0"]; every other node, and
    everything but the [tabindex] attribute, is as before; and running it
    again changes nothing. *)
Theorem no_positive_tabindex_left (p : Page) :
  let p' := stateAfter tabIndexBody p in
  tabIndexBody p = (Ok tt, p') ∧
  (∀ el, el ∈ descendants p' (documentNode (doc p')) → isElement p' el = true →
         positiveTabIndex p' el = false) ∧
  sameBut ["tabindex"] p p' ∧
  (∀ el, nodeOf p' el = nodeOf p el ∨
         (positiveTabIndex p el = true ∧
          attributes (nodeOf p' el) !! "tabindex" = Some "0")) ∧
  tabIndexBody p' = (Ok tt, p').
Proof.
  set (sel := [[HasAttr "tabindex"]]).
  set (l := querySelectorAll (documentNode (doc p)) sel p).
  set (I := λ q : Page,
         sameBut ["tabindex"] p q ∧
         ∀ el, nodeOf q el = nodeOf p el ∨
               (positiveTabIndex p el = true ∧
                attributes (nodeOf q el) !! "tabindex" = Some "0")).
  destruct (pass_settles normalizeTabIndex (λ q el, positiveTabIndex q el = false) I l)
    with (p := p) as (p' & Hrun & (Hsame & Hnodes) & Hall & Hagain).
  { intros el q Hel (Hs & Hn).
    apply elem_of_querySelectorAll in Hel as ((HE & _) & _).
    assert (isElement q el = true) as HEq
      by (by rewrite (sameBut_isElement ["tabindex"] p q)).
    rewrite normalizeTabIndex_element by done. cbn [fst snd].
    destruct (positiveTabIndex q el) eqn:Hpos.
    - destruct (sameBut_setAttrTracked ["tabindex"] el "tabindex" "0" q)
        as (_ & Hs' & Hset & Hother); [set_solver|done|].
      split; [done|]. split; [split|].
      + by eapply sameBut_trans.
      + intros el'. destruct (decide (el' = el)) as [->|Hne].
        * right. split; [|done]. destruct (Hn el) as [E|[? _]]; [|done].
          by rewrite <- (positiveTabIndex_same_node p q el).
        * rewrite Hother by done. apply Hn.
      + split; [by apply positiveTabIndex_zero|]. split; [|done].
        intros el' Hel'. destruct (decide (el' = el)) as [->|Hne]; [congruence|].
        by rewrite (positiveTabIndex_same_node q _ el') by (by apply Hother).
    - split; [done|]. split; [by split|]. split; [done|]. by split. }
  { split; [apply sameBut_refl|]. by left. }
  assert (tabIndexBody p = (Ok tt, p')) as Hbody.
  { unfold tabIndexBody. erewrite js_bind_ok by reflexivity. exact Hrun. }
  assert (querySelectorAll (documentNode (doc p')) sel p' = l) as Hl.
  { destruct Hsame as (Hd & Hrest). rewrite Hd.
    apply (querySelectorAll_sameBut ["tabindex"]); [by split|].
    intros el HE. unfold matches, sel. simpl. f_equal. f_equal.
    unfold hasAttribute. destruct (Hnodes el) as [->|[Hpos Hzero]]; [done|].
    rewrite Hzero. apply positiveTabIndex_has in Hpos.
    by rewrite !bool_decide_eq_true_2. }
  intros q. assert (q = p') as -> by (unfold q, stateAfter; by rewrite Hbody).
  split; [done|]. split; [|split; [done|split; [done|]]].
  - intros el Hdesc HE.
    destruct (attributes (nodeOf p' el) !! "tabindex") as [v|] eqn:Hv.
    + apply Hall. rewrite <- Hl. apply elem_of_querySelectorAll.
      split; [split; [done|]|done].
      unfold matches, sel. simpl. unfold hasAttribute. rewrite Hv.
      by rewrite bool_decide_eq_true_2.
    + unfold positiveTabIndex. by rewrite Hv.
  - unfold tabIndexBody. erewrite js_bind_ok by reflexivity.
    fold sel. rewrite Hl. exact Hagain.
Qed.

Example parseInt_reads_like_JavaScript :
  parseInt "3" = Some 3%Z ∧ parseInt "  42px" = Some 42%Z ∧ parseInt "-1" = Some (-1)%Z ∧
  parseInt "+07" = Some 7%Z ∧ parseInt "0" = Some 0%Z ∧ parseInt "-0" = Some 0%Z ∧
  parseInt "" = None ∧ parseInt "auto" = None ∧ parseInt "- 1" = None ∧
  parseInt "1e3" = Some 1%Z ∧
  parseInt (noBreakSpace +:+ "5") = Some 5%Z ∧
  parseInt (lineSeparator +:+ " " +:+ noBreakSpace +:+ "-7") = Some (-7)%Z.
Proof. by vm_compute. Qed.

(** A [tabindex] written after a no-break space is a positive one, and is
    normalised. *)
Example tabindex_after_a_no_break_space :
  let p := setAttributeOn 5 "tabindex" (noBreakSpace +:+ "5") (freshPage sampleDocument) in
  positiveTabIndex p 5 = true ∧
  current (stateAfter tabIndexBody p) 5 (AttrKey "tabindex") = Some "0".
Proof. by vm_compute. Qed.

(** ** Rules of the shape of [selectAndApply] *)

Lemma selectAndApply_enabled root sel callback s :
  a11yEnabled s = true →
  selectAndApply root sel callback s =
  ((rulePass root sel callback (page s)).1,
   with_page (rulePass root sel callback (page s)).2 s).
Proof. intros Hen. unfold selectAndApply, whenEnabled. by rewrite Hen. Qed.

Lemma matchesSimple_agree quirks n n' sel :
  tagName n' = tagName n →
  (∀ a, attributeOf sel = Some a → attributes n' !! a = attributes n !! a) →
  matchesSimple quirks n' sel = matchesSimple quirks n sel.
Proof.
  intros Ht Ha. destruct sel as [name|a|a v|a sub|name]; simpl in *.
  - by rewrite Ht.
  - unfold hasAttribute. by rewrite Ha.
  - by rewrite Ha.
  - by rewrite Ha.
  - by rewrite Ha.
Qed.

Lemma matches_sameBut names sel p p' el :
  sameBut names p p' → selectorMentions names sel = false →
  matches p' sel el = matches p sel el.
Proof.
  intros (_ & _ & _ & _ & Hq & Hn) Hsel. destruct (Hn el) as (Hnode & Hattrs).
  unfold matches. rewrite Hq. unfold selectorMentions in Hsel.
  induction sel as [|c sel IH]; simpl in *; [done|].
  apply orb_false_iff in Hsel as [Hc Hsel]. rewrite IH by done. f_equal.
  clear IH Hsel. induction c as [|x c IH]; simpl in *; [done|].
  apply orb_false_iff in Hc as [Hx Hc]. rewrite IH by done. f_equal.
  apply matchesSimple_agree.
  - by apply (f_equal tagName) in Hnode.
  - intros a Ha. rewrite Ha in Hx. apply Hattrs.
    by apply bool_decide_eq_false_1 in Hx.
Qed.

(** A rule that writes to the element it is called on, and only where it
    [wants] to, settles every element it selects; what it selects does not
    depend on the attributes it writes, so that a second pass finds the same
    elements settled and does nothing. *)
Lemma rulePass_spec root sel (body : node → Js Page unit) names
    (wants : Page → node → bool) (result : Page → node → Page)
    (post : Node → Node → Prop) (p : Page) :
  selectorMentions names sel = false →
  (∀ q el, isElement q el = true →
     body el q = (Ok tt, if wants q el then result q el else q)) →
  (∀ q el, isElement q el = true → wants q el = true →
     sameBut names q (result q el) ∧
     (∀ el', el' ≠ el → nodeOf (result q el) el' = nodeOf q el') ∧
     wants (result q el) el = false ∧
     post (nodeOf q el) (nodeOf (result q el) el)) →
  (∀ q q' el, quirksMode (doc q') = quirksMode (doc q) →
     nodeOf q' el = nodeOf q el → wants q' el = wants q el) →
  let l := querySelectorAll (containerOf root p) sel p in
  ∃ p', rulePass root sel body p = (Ok tt, p') ∧
        sameBut names p p' ∧
        (∀ el, el ∈ l → wants p' el = false) ∧
        (∀ el, nodeOf p' el = nodeOf p el ∨
               (el ∈ l ∧ wants p el = true ∧ post (nodeOf p el) (nodeOf p' el))) ∧
        rulePass root sel body p' = (Ok tt, p').
Proof.
  intros Hsel Hbody Hresult Hwants l.
  set (I := λ q : Page,
         sameBut names p q ∧
         ∀ el, nodeOf q el = nodeOf p el ∨
               (el ∈ l ∧ wants p el = true ∧ wants q el = false ∧
                post (nodeOf p el) (nodeOf q el))).
  destruct (pass_settles body (λ q el, wants q el = false) I l)
    with (p := p) as (p' & Hrun & (Hsame & Hnodes) & Hall & Hagain).
  { intros el q Hel (Hs & Hn).
    pose proof Hel as ((HE & _) & _)%elem_of_querySelectorAll.
    assert (isElement q el = true) as HEq by (by rewrite (sameBut_isElement names p q)).
    rewrite Hbody by done. cbn [fst snd].
    destruct (wants q el) eqn:Hw.
    - destruct (Hresult q el HEq Hw) as (Hs' & Hother & Hdone & Hpost).
      assert (nodeOf q el = nodeOf p el) as Hsame.
      { destruct (Hn el) as [E|(_ & _ & Hw' & _)]; [done|congruence]. }
      split; [done|]. split; [split|].
      + by eapply sameBut_trans.
      + intros el'. destruct (decide (el' = el)) as [->|Hne].
        * right. rewrite <- Hsame. split; [done|]. split; [|by split].
          rewrite (Hwants q p el); [done| |by symmetry].
          symmetry. by apply (sameBut_quirksMode names).
        * rewrite Hother by done. destruct (Hn el') as [E|(? & ? & Hw' & ?)]; [by left|].
          right. split; [done|]. split; [done|]. split; [|done].
          rewrite (Hwants q (result q el) el'); [done| |by apply Hother].
          by apply (sameBut_quirksMode names).
      + split; [done|]. split; [|done].
        intros el' Hel'. destruct (decide (el' = el)) as [->|Hne]; [congruence|].
        rewrite (Hwants q (result q el) el'); [done| |by apply Hother].
        by apply (sameBut_quirksMode names).
    - split; [done|]. split; [by split|]. split; [done|]. by split. }
  { split; [apply sameBut_refl|]. by left. }
  assert (querySelectorAll (containerOf root p') sel p' = l) as Hl.
  { assert (containerOf root p' = containerOf root p) as ->.
    { unfold containerOf. by destruct Hsame as (-> & _). }
    apply (querySelectorAll_sameBut names); [done|].
    intros el _. by apply (matches_sameBut names). }
  exists p'. split; [|split; [done|split; [done|split]]].
  - unfold rulePass. erewrite js_bind_ok by reflexivity. exact Hrun.
  - intros el. destruct (Hnodes el) as [E|(? & ? & ? & ?)]; [by left|by right].
  - unfold rulePass. erewrite js_bind_ok by reflexivity. rewrite Hl. exact Hagain.
Qed.

(** ** Clickable elements *)

Lemma isVisible_isElement p el : isVisible p el = true → isElement p el = true.
Proof. unfold isVisible. by intros [? _]%andb_true_iff. Qed.

Lemma makeButton_total el q :
  makeButton el q = (Ok tt, if wantsButtonRole q el then madeButton el q else q).
Proof.
  unfold makeButton, wantsButtonRole.
  destruct (isVisible q el) eqn:Hv; simpl; [|done].
  destruct (elementHasOwnAccessibility q el); simpl; [done|].
  destruct (_ || _); simpl; [done|].
  destruct (_ || _); simpl; [|done].
  apply isVisible_isElement in Hv.
  erewrite js_bind_ok by (by apply (exec_element (SetAttr el "role" "button"))).
  erewrite js_bind_ok by reflexivity.
  unfold madeButton. cbv zeta.
  destruct (hasAttribute _ "tabindex"); simpl; [done|].
  apply (exec_element (SetAttr el "tabindex" "0")).
  change (isElement (tracked (SetAttr el "role" "button") q) el = true).
  by rewrite isElement_tracked.
Qed.

Lemma madeButton_spec el q :
  isElement q el = true →
  sameBut ["role"; "tabindex"] q (madeButton el q) ∧
  (∀ el', el' ≠ el → nodeOf (madeButton el q) el' = nodeOf q el') ∧
  attributes (nodeOf (madeButton el q) el) !! "role" = Some "button" ∧
  attributes (nodeOf (madeButton el q) el) !! "tabindex" =
    Some (default "0" (attributes (nodeOf q el) !! "tabindex")).
Proof.
  intros HE. unfold madeButton. cbv zeta.
  set (q1 := tracked (SetAttr el "role" "button") q).
  destruct (sameBut_setAttrTracked ["role"; "tabindex"] el "role" "button" q)
    as (_ & S1 & R1 & O1); [set_solver|done|]. fold q1 in S1, R1, O1.
  assert (attributes (nodeOf q1 el) !! "tabindex" = attributes (nodeOf q el) !! "tabindex")
    as T1.
  { unfold q1, tracked. simpl. rewrite nodeOf_setAttributeOn, decide_True by done.
    simpl. by rewrite lookup_insert_ne. }
  unfold hasAttribute. rewrite T1.
  destruct (attributes (nodeOf q el) !! "tabindex") as [v|] eqn:Hv.
  - rewrite bool_decide_eq_true_2 by done. by rewrite T1.
  - rewrite bool_decide_eq_false_2 by (by intros [? ?]).
    assert (isElement q1 el = true) as HE1 by (unfold q1; by rewrite isElement_tracked).
    destruct (sameBut_setAttrTracked ["role"; "tabindex"] el "tabindex" "0" q1)
      as (_ & S2 & R2 & O2); [set_solver|done|].
    split; [by eapply sameBut_trans|]. split; [|split; [|done]].
    + intros el' Hne. by rewrite O2, O1.
    + unfold tracked at 1. simpl. rewrite nodeOf_setAttributeOn, decide_True by done.
      simpl. by rewrite lookup_insert_ne.
Qed.

Lemma wantsButtonRole_node q q' el :
  quirksMode (doc q') = quirksMode (doc q) →
  nodeOf q' el = nodeOf q el → wantsButtonRole q' el = wantsButtonRole q el.
Proof.
  intros Q E.
  unfold wantsButtonRole, isVisible, isElement, elementHasOwnAccessibility, matches.
  by rewrite Q, E.
Qed.

Lemma wantsButtonRole_with_role q el :
  is_Some (attributes (nodeOf q el) !! "role") → wantsButtonRole q el = false.
Proof.
  intros Hr. unfold wantsButtonRole, elementHasOwnAccessibility, hasAttribute.
  rewrite (bool_decide_eq_true_2 _ Hr). simpl. by rewrite andb_false_r.
Qed.

(** X16 — Clickable elements become buttons that can be focused.  When the
    engine is enabled, [enhanceClickableRoles] never throws.  Every [div] and
    [span] it selects that is visible, has no accessibility attribute of its
    own and is clickable ends with [role="button"] and with a [tabindex]:
    the one it had, or ["0"].  No other node changes, and nothing but these
    two attributes.  Running the rule again changes nothing. *)
Theorem clickable_roles_settle (root : option node) (s : Engine) :
  a11yEnabled s = true →
  let l := querySelectorAll (containerOf root (page s)) [[Tag "DIV"]; [Tag "SPAN"]]
             (page s) in
  let s' := stateAfter (enhanceClickableRoles root) s in
  enhanceClickableRoles root s = (Ok tt, s') ∧
  s' = with_page (page s') s ∧
  sameBut ["role"; "tabindex"] (page s) (page s') ∧
  (∀ el, el ∈ l → wantsButtonRole (page s) el = true →
     attributes (nodeOf (page s') el) !! "role" = Some "button" ∧
     attributes (nodeOf (page s') el) !! "tabindex" =
       Some (default "0" (attributes (nodeOf (page s) el) !! "tabindex"))) ∧
  (∀ el, el ∉ l ∨ wantsButtonRole (page s) el = false →
     nodeOf (page s') el = nodeOf (page s) el) ∧
  enhanceClickableRoles root s' = (Ok tt, s').
Proof.
  intros Hen l.
  destruct (rulePass_spec root [[Tag "DIV"]; [Tag "SPAN"]] makeButton ["role"; "tabindex"]
              wantsButtonRole (λ q el, madeButton el q)
              (λ n n', attributes n' !! "role" = Some "button" ∧
                       attributes n' !! "tabindex" =
                         Some (default "0" (attributes n !! "tabindex")))
              (page s))
    as (p' & Hrun & Hsame & Hall & Hnodes & Hagain).
  - reflexivity.
  - intros q el _. apply makeButton_total.
  - intros q el HE Hw. destruct (madeButton_spec el q HE) as (S & O & R & T).
    split; [done|]. split; [done|]. split; [|done].
    apply wantsButtonRole_with_role. rewrite R. by eexists.
  - apply wantsButtonRole_node.
  - fold l in Hall, Hnodes.
    assert (enhanceClickableRoles root s = (Ok tt, with_page p' s)) as E.
    { unfold enhanceClickableRoles. rewrite selectAndApply_enabled by done. by rewrite Hrun. }
    intros s'. assert (s' = with_page p' s) as -> by (unfold s', stateAfter; by rewrite E).
    cbn [page with_page].
    split; [done|]. split; [done|]. split; [done|]. split; [|split].
    + intros el Hel Hw. destruct (Hnodes el) as [Heq|(_ & _ & Hpost)]; [|done].
      rewrite <- (wantsButtonRole_node _ _ _ (sameBut_quirksMode _ _ _ Hsame) Heq),
        (Hall el Hel) in Hw. done.
    + intros el Hor. destruct (Hnodes el) as [Heq|(Hel & Hw & _)]; [done|].
      destruct Hor as [Hnot|Hw']; [done|congruence].
    + unfold enhanceClickableRoles. rewrite selectAndApply_enabled by done.
      cbn [page with_page]. rewrite Hagain. by destruct s.
Qed.

Lemma clickable_roles_settle_witness :
  let s := with_a11yEnabled true (initialEngine clickableDocument) in
  let s' := stateAfter (enhanceClickableRoles None) s in
  wantsButtonRole (page s) 5 = true ∧
  attributes (nodeOf (page s') 5) !! "role" = Some "button" ∧
  attributes (nodeOf (page s') 5) !! "tabindex" = Some "0" ∧
  enhanceClickableRoles None s' = (Ok tt, s').
Proof.
  intros s s'.
  destruct (clickable_roles_settle None s eq_refl) as (_ & _ & _ & Hset & _ & Hagain).
  assert (wantsButtonRole (page s) 5 = true) as Hw by (vm_compute; reflexivity).
  split; [exact Hw|].
  destruct (Hset 5%positive) as [Hr Ht]; [|exact Hw|].
  - apply (bool_decide_unpack _). vm_compute. exact I.
  - split; [exact Hr|]. split; [exact Ht|exact Hagain].
Defined.

(** ** Buttons without a name *)

Lemma labelButton_total H btn q :
  labelButton H btn q = (Ok tt, if wantsLabel q btn then labelled H btn q else q).
Proof.
  unfold labelButton, wantsLabel.
  destruct (isElement q btn) eqn:HE; simpl.
  2:{ unfold isVisible. by rewrite HE. }
  destruct (isVisible q btn); simpl; [|done].
  destruct (_ || _); simpl; [done|].
  destruct (isBlank _); simpl; [|done].
  by apply (exec_element (SetAttr btn "aria-label" (buttonLabel H btn q))).
Qed.

Lemma wantsLabel_node q q' el :
  nodeOf q' el = nodeOf q el → wantsLabel q' el = wantsLabel q el.
Proof. intros E. unfold wantsLabel, isVisible, isElement. by rewrite E. Qed.

(** X17 — Buttons without text get a name.  When the engine is enabled,
    [enhanceUnlabeledButtons] never throws.  Afterwards every button
    candidate it selected that is visible and has no text has an
    [aria-label] or an [aria-labelledby]; a candidate that had one of them,
    or has text, or is not visible, is left exactly as it was, and so is
    every node not selected; nothing but [aria-label] changes.  Running the
    rule again changes nothing. *)
Theorem unlabeled_buttons_settle (H : Heuristics) (root : option node) (s : Engine) :
  a11yEnabled s = true →
  let l := querySelectorAll (containerOf root (page s)) buttonSelector (page s) in
  let s' := stateAfter (enhanceUnlabeledButtons H root) s in
  enhanceUnlabeledButtons H root s = (Ok tt, s') ∧
  s' = with_page (page s') s ∧
  sameBut ["aria-label"] (page s) (page s') ∧
  (∀ el, el ∈ l → isVisible (page s') el = true →
     isBlank (innerText (nodeOf (page s') el)) = true →
     hasAttribute (nodeOf (page s') el) "aria-label" = true ∨
     hasAttribute (nodeOf (page s') el) "aria-labelledby" = true) ∧
  (∀ el, el ∉ l ∨ wantsLabel (page s) el = false →
     nodeOf (page s') el = nodeOf (page s) el) ∧
  enhanceUnlabeledButtons H root s' = (Ok tt, s').
Proof.
  intros Hen l.
  destruct (rulePass_spec root buttonSelector (labelButton H) ["aria-label"]
              wantsLabel (λ q el, labelled H el q)
              (λ n n', is_Some (attributes n' !! "aria-label"))
              (page s))
    as (p' & Hrun & Hsame & Hall & Hnodes & Hagain).
  - reflexivity.
  - intros q el _. apply labelButton_total.
  - intros q el HE Hw. unfold labelled.
    destruct (sameBut_setAttrTracked ["aria-label"] el "aria-label" (buttonLabel H el q) q)
      as (_ & S & R & O); [set_solver|done|].
    split; [done|]. split; [done|]. split; [|rewrite R; by eexists].
    unfold wantsLabel, hasAttribute. rewrite R.
    rewrite (bool_decide_eq_true_2 (is_Some (Some _))) by (by eexists).
    simpl. by rewrite andb_false_r.
  - intros q q' el _. apply wantsLabel_node.
  - fold l in Hall, Hnodes.
    assert (enhanceUnlabeledButtons H root s = (Ok tt, with_page p' s)) as E.
    { unfold enhanceUnlabeledButtons. rewrite selectAndApply_enabled by done.
      by rewrite Hrun. }
    intros s'. assert (s' = with_page p' s) as -> by (unfold s', stateAfter; by rewrite E).
    cbn [page with_page].
    split; [done|]. split; [done|]. split; [done|]. split; [|split].
    + intros el Hel Hv Hb. specialize (Hall el Hel). unfold wantsLabel in Hall.
      rewrite Hv, Hb, andb_true_r in Hall. simpl in Hall.
      apply negb_false_iff, orb_true_iff in Hall. exact Hall.
    + intros el Hor. destruct (Hnodes el) as [Heq|(Hel & Hw & _)]; [done|].
      destruct Hor as [Hnot|Hw']; [done|congruence].
    + unfold enhanceUnlabeledButtons. rewrite selectAndApply_enabled by done.
      cbn [page with_page]. rewrite Hagain. by destruct s.
Qed.

Lemma unlabeled_buttons_settle_witness :
  let s := with_a11yEnabled true (initialEngine sampleDocument) in
  let s' := stateAfter (enhanceUnlabeledButtons quietHeuristics None) s in
  hasAttribute (nodeOf (page s) 5) "aria-label" = false ∧
  (hasAttribute (nodeOf (page s') 5) "aria-label" = true ∨
   hasAttribute (nodeOf (page s') 5) "aria-labelledby" = true) ∧
  enhanceUnlabeledButtons quietHeuristics None s' = (Ok tt, s').
Proof.
  intros s s'.
  destruct (unlabeled_buttons_settle quietHeuristics None s eq_refl)
    as (_ & _ & _ & Hset & _ & Hagain).
  split; [vm_compute; reflexivity|]. split; [|exact Hagain].
  apply Hset.
  - apply (bool_decide_unpack _). vm_compute. exact I.
  - vm_compute. reflexivity.
  - vm_compute. reflexivity.
Defined.

(** A button that holds nothing but [&nbsp;] has no text: [trim()] removes
    the no-break space, and the button is given a name.  In a quirks-mode
    document a class selector finds the classes written in another case. *)
Example blank_text_and_quirks_mode :
  isBlank noBreakSpace = true ∧
  isBlank (" " +:+ lineSeparator +:+ noBreakSpace) = true ∧
  isBlank (noBreakSpace +:+ "x") = false ∧
  (let p := with_doc (updNode 5 (with_innerText noBreakSpace) sampleDocument)
              (freshPage sampleDocument) in
   let s := with_a11yEnabled true (with_page p (initialEngine sampleDocument)) in
   wantsLabel p 5 = true ∧
   current (page (stateAfter (enhanceUnlabeledButtons quietHeuristics None) s)) 5
     (AttrKey "aria-label") = Some "Button") ∧
  hasClass true "toast" "Toast big" = true ∧
  hasClass false "toast" "Toast big" = false ∧
  (let nodes' := <[5%positive := elementNode "DIV" [("class", "Toast")] (Some 4%positive)
                                    [] true]> toastNodes in
   let quirks := mkDocument nodes' 1 (Some 3%positive) (Some 4%positive) 7 true in
   let standards := mkDocument nodes' 1 (Some 3%positive) (Some 4%positive) 7 false in
   querySelectorAll 1 [[Class "toast"]] (freshPage quirks) = [5%positive] ∧
   querySelectorAll 1 [[Class "toast"]] (freshPage standards) = []).
Proof. by vm_compute. Qed.

(** ** Notifications *)

Lemma markLiveRegion_total n q :
  markLiveRegion n q = (Ok tt, if wantsLiveFlag q n then markedLive n q else q).
Proof.
  unfold markLiveRegion, wantsLiveFlag.
  destruct (isVisible q n) eqn:Hv; simpl; [|done].
  apply isVisible_isElement in Hv.
  erewrite js_bind_ok by (unfold readAttribute, onElement; by rewrite Hv).
  destruct (bool_decide _); simpl; [done|].
  erewrite js_bind_ok
    by (by apply (exec_element (SetAttr n "data-a11y-flag-live" "1"))).
  erewrite js_bind_ok by reflexivity.
  unfold markedLive. cbv zeta.
  set (q1 := tracked (SetAttr n "data-a11y-flag-live" "1") q).
  assert (isElement q1 n = true) as HE1 by (unfold q1; by rewrite isElement_tracked).
  destruct (elementHasOwnAccessibility q1 n); simpl; [done|].
  erewrite js_bind_ok by (by apply (exec_element (SetAttr n "role" "status"))).
  apply (exec_element (SetAttr n "aria-live" "polite")).
  change (isElement (tracked (SetAttr n "role" "status") q1) n = true).
  by rewrite isElement_tracked.
Qed.

Lemma wantsLiveFlag_node q q' el :
  nodeOf q' el = nodeOf q el → wantsLiveFlag q' el = wantsLiveFlag q el.
Proof. intros E. unfold wantsLiveFlag, isVisible, isElement. by rewrite E. Qed.

Lemma markedLive_spec n q :
  isElement q n = true →
  sameBut ["data-a11y-flag-live"; "role"; "aria-live"] q (markedLive n q) ∧
  (∀ el', el' ≠ n → nodeOf (markedLive n q) el' = nodeOf q el') ∧
  attributes (nodeOf (markedLive n q) n) !! "data-a11y-flag-live" = Some "1" ∧
  if elementHasOwnAccessibility q n
  then attributes (nodeOf (markedLive n q) n) !! "role" = attributes (nodeOf q n) !! "role" ∧
       attributes (nodeOf (markedLive n q) n) !! "aria-live" =
         attributes (nodeOf q n) !! "aria-live"
  else attributes (nodeOf (markedLive n q) n) !! "role" = Some "status" ∧
       attributes (nodeOf (markedLive n q) n) !! "aria-live" = Some "polite".
Proof.
  intros HE. unfold markedLive. cbv zeta.
  set (names := ["data-a11y-flag-live"; "role"; "aria-live"]).
  set (q1 := tracked (SetAttr n "data-a11y-flag-live" "1") q).
  destruct (sameBut_setAttrTracked names n "data-a11y-flag-live" "1" q)
    as (_ & S1 & R1 & O1); [set_solver|done|]. fold q1 in S1, R1, O1.
  assert (∀ a, a ≠ "data-a11y-flag-live" →
            attributes (nodeOf q1 n) !! a = attributes (nodeOf q n) !! a) as A1.
  { intros a Ha. unfold q1, tracked. simpl.
    rewrite nodeOf_setAttributeOn, decide_True by done. simpl.
    by rewrite lookup_insert_ne. }
  assert (elementHasOwnAccessibility q1 n = elementHasOwnAccessibility q n) as ->.
  { unfold elementHasOwnAccessibility, hasAttribute. cbv zeta. by rewrite !A1. }
  destruct (elementHasOwnAccessibility q n).
  - split; [done|]. split; [done|]. split; [done|]. by rewrite !A1.
  - assert (isElement q1 n = true) as HE1 by (unfold q1; by rewrite isElement_tracked).
    set (q2 := tracked (SetAttr n "role" "status") q1).
    destruct (sameBut_setAttrTracked names n "role" "status" q1)
      as (_ & S2 & R2 & O2); [set_solver|done|]. fold q2 in S2, R2, O2.
    assert (isElement q2 n = true) as HE2 by (unfold q2; by rewrite isElement_tracked).
    destruct (sameBut_setAttrTracked names n "aria-live" "polite" q2)
      as (_ & S3 & R3 & O3); [set_solver|done|].
    assert (∀ a, a ≠ "aria-live" →
              attributes (nodeOf (tracked (SetAttr n "aria-live" "polite") q2) n) !! a =
              attributes (nodeOf q2 n) !! a) as A3.
    { intros a Ha. unfold tracked at 1. simpl.
      rewrite nodeOf_setAttributeOn, decide_True by done. simpl.
      by rewrite lookup_insert_ne. }
    assert (∀ a, a ≠ "role" →
              attributes (nodeOf q2 n) !! a = attributes (nodeOf q1 n) !! a) as A2.
    { intros a Ha. unfold q2, tracked at 1. simpl.
      rewrite nodeOf_setAttributeOn, decide_True by done. simpl.
      by rewrite lookup_insert_ne. }
    split; [eapply sameBut_trans; [exact S1|]; by eapply sameBut_trans|].
    split; [intros el' Hne; by rewrite O3, O2, O1|].
    split; [by rewrite A3, A2 by done|].
    split; [by rewrite A3 by done|done].
Qed.

(** X18 — Notifications become live regions once.  With the callback of the
    script as [liveRegionRule] and the engine enabled,
    [enhanceLocalLiveRegions] never throws.  Every visible toast,
    notification, alert or snackbar it selects ends flagged; one that was not
    flagged and had no accessibility attribute of its own gets
    [role="status"] and [aria-live="polite"], one that had keeps its role
    and its [aria-live]; flagged and invisible elements and every other node
    are left exactly as they were, and nothing but these three attributes
    changes.  Running the rule again changes nothing. *)
Theorem notifications_settle (H : Heuristics) (root : option node) (s : Engine) :
  liveRegionRule H = markLiveRegion → a11yEnabled s = true →
  let sel := [[Class "toast"]; [Class "notification"]; [Class "alert"]; [Class "snackbar"]] in
  let l := querySelectorAll (containerOf root (page s)) sel (page s) in
  let s' := stateAfter (enhanceLocalLiveRegions H root) s in
  enhanceLocalLiveRegions H root s = (Ok tt, s') ∧
  s' = with_page (page s') s ∧
  sameBut ["data-a11y-flag-live"; "role"; "aria-live"] (page s) (page s') ∧
  (∀ el, el ∈ l → isVisible (page s') el = true →
     attributes (nodeOf (page s') el) !! "data-a11y-flag-live" = Some "1") ∧
  (∀ el, el ∈ l → wantsLiveFlag (page s) el = true →
     if elementHasOwnAccessibility (page s) el
     then attributes (nodeOf (page s') el) !! "role" =
            attributes (nodeOf (page s) el) !! "role" ∧
          attributes (nodeOf (page s') el) !! "aria-live" =
            attributes (nodeOf (page s) el) !! "aria-live"
     else attributes (nodeOf (page s') el) !! "role" = Some "status" ∧
          attributes (nodeOf (page s') el) !! "aria-live" = Some "polite") ∧
  (∀ el, el ∉ l ∨ wantsLiveFlag (page s) el = false →
     nodeOf (page s') el = nodeOf (page s) el) ∧
  enhanceLocalLiveRegions H root s' = (Ok tt, s').
Proof.
  intros HH Hen sel l.
  destruct (rulePass_spec root sel markLiveRegion
              ["data-a11y-flag-live"; "role"; "aria-live"]
              wantsLiveFlag (λ q el, markedLive el q)
              (λ n n',
                 if hasAttribute n "role" || hasAttribute n "aria-label" ||
                    hasAttribute n "aria-labelledby" || hasAttribute n "aria-describedby"
                 then attributes n' !! "role" = attributes n !! "role" ∧
                      attributes n' !! "aria-live" = attributes n !! "aria-live"
                 else attributes n' !! "role" = Some "status" ∧
                      attributes n' !! "aria-live" = Some "polite")
              (page s))
    as (p' & Hrun & Hsame & Hall & Hnodes & Hagain).
  - reflexivity.
  - intros q el _. apply markLiveRegion_total.
  - intros q el HE Hw. destruct (markedLive_spec el q HE) as (S & O & F & P).
    split; [done|]. split; [done|]. split; [|exact P].
    unfold wantsLiveFlag. rewrite F.
    rewrite bool_decide_eq_true_2 by done. by rewrite andb_false_r.
  - intros q q' el _. apply wantsLiveFlag_node.
  - fold l in Hall, Hnodes.
    assert (enhanceLocalLiveRegions H root s = (Ok tt, with_page p' s)) as E.
    { unfold enhanceLocalLiveRegions. rewrite HH, selectAndApply_enabled by done.
      fold sel. by rewrite Hrun. }
    intros s'. assert (s' = with_page p' s) as -> by (unfold s', stateAfter; by rewrite E).
    cbn [page with_page].
    split; [done|]. split; [done|]. split; [done|]. split; [|split; [|split]].
    + intros el Hel Hv. specialize (Hall el Hel). unfold wantsLiveFlag in Hall.
      rewrite Hv in Hall. simpl in Hall. apply negb_false_iff in Hall.
      by apply bool_decide_eq_true_1 in Hall.
    + intros el Hel Hw. destruct (Hnodes el) as [Heq|(_ & _ & Hpost)]; [|exact Hpost].
      rewrite <- (wantsLiveFlag_node _ _ _ Heq), (Hall el Hel) in Hw. done.
    + intros el Hor. destruct (Hnodes el) as [Heq|(Hel & Hw & _)]; [done|].
      destruct Hor as [Hnot|Hw']; [done|congruence].
    + unfold enhanceLocalLiveRegions. rewrite HH, selectAndApply_enabled by done.
      cbn [page with_page]. fold sel. rewrite Hagain. by destruct s.
Qed.

Lemma notifications_settle_witness :
  let s := with_a11yEnabled true (initialEngine toastDocument) in
  let s' := stateAfter (enhanceLocalLiveRegions scriptedHeuristics None) s in
  attributes (nodeOf (page s') 5) !! "role" = Some "status" ∧
  attributes (nodeOf (page s') 5) !! "aria-live" = Some "polite" ∧
  attributes (nodeOf (page s') 6) !! "role" = Some "alert" ∧
  attributes (nodeOf (page s') 6) !! "data-a11y-flag-live" = Some "1" ∧
  enhanceLocalLiveRegions scriptedHeuristics None s' = (Ok tt, s').
Proof.
  intros s s'.
  destruct (notifications_settle scriptedHeuristics None s eq_refl eq_refl)
    as (_ & _ & _ & Hflag & Hset & _ & Hagain).
  assert (5%positive ∈ querySelectorAll (containerOf None (page s))
            [[Class "toast"]; [Class "notification"]; [Class "alert"]; [Class "snackbar"]]
            (page s)) as H5 by (apply (bool_decide_unpack _); vm_compute; exact I).
  assert (6%positive ∈ querySelectorAll (containerOf None (page s))
            [[Class "toast"]; [Class "notification"]; [Class "alert"]; [Class "snackbar"]]
            (page s)) as H6 by (apply (bool_decide_unpack _); vm_compute; exact I).
  pose proof (Hset 5%positive H5 eq_refl) as P5.
  pose proof (Hset 6%positive H6 eq_refl) as P6.
  change (elementHasOwnAccessibility (page s) 5) with false in P5.
  change (elementHasOwnAccessibility (page s) 6) with true in P6.
  cbv iota in P5, P6. destruct P5 as [R5 L5]. destruct P6 as [R6 _].
  split; [exact R5|]. split; [exact L5|].
  split; [etrans; [exact R6|vm_compute; reflexivity]|].
  split; [|exact Hagain].
  apply (Hflag 6%positive H6). vm_compute. reflexivity.
Defined.

(** ** Links without a name *)




